(** * Port groups of the connection matrix: gtk2_ardour/port_group.cc

    A shallow embedding of [PortGroup] and [PortGroupList] and of the
    bundle synthesis helpers, with the properties of the design document
    stated and proved over it.

    Conventions.
    - A [shared_ptr<T>] is a value of [T] that carries the address of its
      pointee ([b_addr], [io_addr]); pointer comparison is comparison of
      addresses.  A pointer that may be null is an [option].
    - A method of a class is an action of the state-and-trace monad [Eff]
      over the object's fields; the trace records the signals it fires, in
      order.  Signal delivery is synchronous (the slots run on the thread
      that emits).
    - [uint32_t] counters only ever index containers, so they are [nat].
    - [assert] is a checked failure: [AssertFail]. *)

From Stdlib Require Import Ascii String ZArith Lia Sorted.
From stdpp Require Import base tactics option list functions gmap.

Local Open Scope Z_scope.
Local Open Scope nat_scope.

(* ===================================================================== *)
(** ** std::string *)
(* ===================================================================== *)

Module Str.

(** [npos] is [None]. *)
Definition size_type := option nat.

(** [s.find (c)] *)
Fixpoint find_char (s : string) (c : ascii) : size_type :=
  match s with
  | EmptyString => None
  | String a s' =>
      if Ascii.eqb a c then Some 0
      else match find_char s' c with
           | Some i => Some (S i)
           | None => None
           end
  end.

(** membership of a character in a character set *)
Fixpoint mem (c : ascii) (chars : string) : bool :=
  match chars with
  | EmptyString => false
  | String a chars' => Ascii.eqb a c || mem c chars'
  end.

(** [s.find_first_of (chars)] *)
Fixpoint find_first_of (s chars : string) : size_type :=
  match s with
  | EmptyString => None
  | String a s' =>
      if mem a chars then Some 0
      else match find_first_of s' chars with
           | Some i => Some (S i)
           | None => None
           end
  end.

(** [s.find (pat)] for a string pattern *)
Definition find (s pat : string) : size_type := String.index 0 pat s.

(** [pos != std::string::npos] *)
Definition found (pos : size_type) : bool :=
  match pos with
  | Some _ => true
  | None => false
  end.

(** [pos + 1] on [size_t]: [npos] is the largest value, so [npos + 1]
    wraps around to 0. *)
Definition plus1 (pos : size_type) : nat :=
  match pos with
  | Some i => S i
  | None => 0
  end.

(** [s.substr (pos, len)], for [pos <= s.size ()]; beyond that the call
    throws [std::out_of_range].  The callers here pass 0 or the length
    of a prefix of [s] (lemma [common_prefix_in_range] below). *)
Definition substr (s : string) (pos len : nat) : string :=
  String.substring pos len s.

(** [s.substr (pos)]: up to the end of [s]. *)
Definition substr_from (s : string) (pos : nat) : string :=
  substr s pos (String.length s - pos).

Definition lower_ascii (c : ascii) : ascii :=
  let n := nat_of_ascii c in
  if (65 <=? n) && (n <=? 90) then ascii_of_nat (n + 32) else c.

(** [boost::to_lower] in the C locale *)
Fixpoint to_lower (s : string) : string :=
  match s with
  | EmptyString => EmptyString
  | String a s' => String (lower_ascii a) (to_lower s')
  end.

Definition empty (s : string) : bool :=
  match s with
  | EmptyString => true
  | _ => false
  end.

End Str.

(* ===================================================================== *)
(** ** Errors and effects *)
(* ===================================================================== *)

(** Result of a call that may hit an [assert]. *)
Inductive outcome (A : Type) : Type :=
| Returns (a : A)
| AssertFail.
Arguments Returns {A} a.
Arguments AssertFail {A}.

(** Actions over an object of type [S] that fire events of type [E]. *)
Definition Eff (S E A : Type) : Type := S → A * S * list E.

Definition ret {S E A} (a : A) : Eff S E A := λ s, (a, s, []).

Definition bind {S E A B} (m : Eff S E A) (k : A → Eff S E B) : Eff S E B :=
  λ s, let '(a, s1, e1) := m s in
       let '(b, s2, e2) := k a s1 in
       (b, s2, e1 ++ e2).

Definition get {S E} : Eff S E S := λ s, (s, s, []).
Definition put {S E} (s' : S) : Eff S E unit := λ _, (tt, s', []).
Definition fire {S E} (e : E) : Eff S E unit := λ s, (tt, s, [e]).

Declare Scope eff_scope.
Delimit Scope eff_scope with eff.
Notation "'let!' x ':=' m 'in' k" := (bind m (λ x, k))
  (at level 10, x name, m at level 100, k at level 200) : eff_scope.
Notation "m ';;;' k" := (bind m (λ _, k))
  (at level 100, k at level 200, right associativity) : eff_scope.
Local Open Scope eff_scope.

(** Final object and trace of an action. *)
Definition state_of {S E A} (r : A * S * list E) : S := snd (fst r).
Definition trace_of {S E A} (r : A * S * list E) : list E := snd r.
Definition value_of {S E A} (r : A * S * list E) : A := fst (fst r).

(** An action keeps a property of the object. *)
Definition keeps {S E A} (Inv : S → Prop) (m : Eff S E A) : Prop :=
  ∀ s, Inv s → Inv (state_of (m s)).

(** [for (x : xs) body (x)] *)
Fixpoint for_each {S E A} (xs : list A) (body : A → Eff S E unit) : Eff S E unit :=
  match xs with
  | [] => ret tt
  | x :: xs' => body x ;;; for_each xs' body
  end.

(* ===================================================================== *)
(** ** Data model: ARDOUR::DataType, ChanCount, Bundle, IO *)
(* ===================================================================== *)

Inductive DataType := AUDIO | MIDI | NIL.

Global Instance DataType_eq_dec : EqDecision DataType.
Proof. solve_decision. Defined.

(** [DataType::begin () .. DataType::end ()]: the real types, in order. *)
Definition DataType_all : list DataType := [AUDIO; MIDI].

(** Modelled from the spec: [ChanCount] (libs/ardour) is not part of the
    sources.  "sum of channel counts (per type)": one counter per real
    data type. *)
Record ChanCount := mkChanCount { n_audio : nat; n_midi : nat }.

Global Instance ChanCount_eq_dec : EqDecision ChanCount.
Proof. solve_decision. Defined.

Module ChanCountOps.
Definition zero : ChanCount := mkChanCount 0 0.

(** [c.n (t)] / [c.get (t)] *)
Definition n (c : ChanCount) (t : DataType) : nat :=
  match t with
  | AUDIO => n_audio c
  | MIDI => n_midi c
  | NIL => 0
  end.

(** [c.set (t, v)]; there is no counter for [NIL]. *)
Definition set (c : ChanCount) (t : DataType) (v : nat) : ChanCount :=
  match t with
  | AUDIO => mkChanCount v (n_midi c)
  | MIDI => mkChanCount (n_audio c) v
  | NIL => c
  end.

Definition n_total (c : ChanCount) : nat := n_audio c + n_midi c.

(** [a += b] *)
Definition add (a b : ChanCount) : ChanCount :=
  mkChanCount (n_audio a + n_audio b) (n_midi a + n_midi b).
End ChanCountOps.

(** [Bundle::PortList]: the port names of one channel. *)
Definition PortList := list string.

(** Modelled from the spec: [Bundle] (libs/ardour) is not part of the
    sources.  "Channel: a logical signal line identified by name, type and
    an ordered list of underlying concrete port identifiers"; "Bundle:
    name, direction flag, ordered sequence of Channels". *)
Record Channel := mkChannel {
  ch_name : string;
  ch_type : DataType;
  ch_ports : PortList;
}.

Record Bundle := mkBundle {
  b_addr : nat;               (* identity of the shared object *)
  b_name : string;
  ports_are_inputs : bool;
  b_channel : list Channel;
}.

Global Instance Channel_eq_dec : EqDecision Channel.
Proof. solve_decision. Defined.
Global Instance Bundle_eq_dec : EqDecision Bundle.
Proof. solve_decision. Defined.

Module BundleOps.
(** [new Bundle (name, inputs)] at address [a] *)
Definition new (a : nat) (name : string) (inputs : bool) : Bundle :=
  mkBundle a name inputs [].

Definition set_name (b : Bundle) (name : string) : Bundle :=
  mkBundle (b_addr b) name (ports_are_inputs b) (b_channel b).

(** [b->add_channel (n, t)]: a channel without ports *)
Definition add_channel (b : Bundle) (n : string) (t : DataType) : Bundle :=
  mkBundle (b_addr b) (b_name b) (ports_are_inputs b)
           (b_channel b ++ [mkChannel n t []]).

(** [b->add_channel (n, t, port)]: a channel with one port *)
Definition add_channel_port (b : Bundle) (n : string) (t : DataType) (p : string) : Bundle :=
  mkBundle (b_addr b) (b_name b) (ports_are_inputs b)
           (b_channel b ++ [mkChannel n t [p]]).

(** [b->set_port (ch, portname)]: the channel gets exactly this port *)
Definition set_port (b : Bundle) (ch : nat) (p : string) : Bundle :=
  mkBundle (b_addr b) (b_name b) (ports_are_inputs b)
           (alter (λ c, mkChannel (ch_name c) (ch_type c) [p]) ch (b_channel b)).

(** [b->nchannels ()]: channels counted per type *)
Definition nchannels (b : Bundle) : ChanCount :=
  fold_left (λ c ch, ChanCountOps.set c (ch_type ch) (S (ChanCountOps.n c (ch_type ch))))
            (b_channel b) ChanCountOps.zero.

(** [b->channel_ports (c)] *)
Definition channel_ports (b : Bundle) (c : nat) : PortList :=
  match b_channel b !! c with
  | Some ch => ch_ports ch
  | None => []
  end.

(** [b->offers_port_alone (p)]: "exposes that exact port name as a
    singleton channel (not part of a multi-port channel)" *)
Definition offers_port_alone (b : Bundle) (p : string) : bool :=
  existsb (λ ch, bool_decide (ch_ports ch = [p])) (b_channel b).

(** pointer equality of two [shared_ptr<Bundle>] *)
Definition same_object (a b : Bundle) : bool := Nat.eqb (b_addr a) (b_addr b).
End BundleOps.

(** The two comparisons of libs/ardour whose definitions are outside the
    sources: [Bundle::has_same_ports] and [ChanCount::operator>]. *)
Class BundleLib := {
  has_same_ports : Bundle → Bundle → bool;
  chancount_gt : ChanCount → ChanCount → bool;
}.

(** [Bundle::Change], an enum of bit flags; 0 is no change at all. *)
Definition Change := Z.

(** [Gdk::Color] *)
Record Color := mkColor { red : nat; green : nat; blue : nat }.
Definition Color_default : Color := mkColor 0 0 0.

Global Instance Color_eq_dec : EqDecision Color.
Proof. solve_decision. Defined.

(** [ARDOUR::IO], as far as port groups look into it. *)
Record IO := mkIO {
  io_addr : nat;              (* identity of the shared object *)
  io_bundle : Bundle;         (* io->bundle () *)
  io_n_ports : ChanCount;     (* io->n_ports () *)
}.

Global Instance IO_eq_dec : EqDecision IO.
Proof. solve_decision. Defined.

(* ===================================================================== *)
(** ** PortGroup *)
(* ===================================================================== *)

(** [PortGroup::BundleRecord].  Its [changed_connection] is the scoped
    connection opened by [add_bundle_internal]; it is closed when the
    record is deleted. *)
Record BundleRecord := mkBundleRecord {
  bundle : Bundle;
  io : option IO;             (* weak_ptr<IO>, null when there is no owner *)
  colour : Color;
  has_colour : bool;
}.

Global Instance BundleRecord_eq_dec : EqDecision BundleRecord.
Proof. solve_decision. Defined.

Record PortGroup := mkPortGroup {
  name : string;
  _bundles : list BundleRecord;
}.

(** What a method of a group does to the outside: its two signals, and the
    subscriptions to the [Changed] signal of a bundle it opens and closes. *)
Inductive GroupEvent :=
| GChanged                       (* PortGroup::Changed () *)
| GBundleChanged (c : Change)    (* PortGroup::BundleChanged (c) *)
| GConnect (b : nat)             (* b->Changed.connect (br->changed_connection, ...) *)
| GDisconnect (b : nat).         (* delete br *)

Definition PG := Eff PortGroup GroupEvent.

(** Number of times a group fires [Changed] in a trace. *)
Definition times_changed (t : list GroupEvent) : nat :=
  length (List.filter (λ e, match e with GChanged => true | _ => false end) t).

Module PortGroupM.
Section WithLib.
Context `{BundleLib}.

(** [PortGroup::PortGroup (n)] *)
Definition new (n : string) : PortGroup := mkPortGroup n [].

Definition set_bundles (bs : list BundleRecord) : PG unit :=
  λ g, (tt, mkPortGroup (name g) bs, []).

(** The scan of [add_bundle_internal]: the first record whose bundle
    [b] has the same ports as. *)
Fixpoint find_same_ports (b : Bundle) (bs : list BundleRecord) : option BundleRecord :=
  match bs with
  | [] => None
  | r :: bs' => if has_same_ports b (bundle r) then Some r else find_same_ports b bs'
  end.

(** [PortGroup::add_bundle_internal]; [b] is not null. *)
Definition add_bundle_internal
    (b : Bundle) (io : option IO) (has_colour : bool) (colour : Color)
    (allow_dups : bool) : PG unit :=
  let! g := get in
  if negb allow_dups && bool_decide (is_Some (find_same_ports b (_bundles g)))
  then ret tt
  else
    let br := mkBundleRecord b io colour has_colour in
    fire (GConnect (b_addr b)) ;;;
    set_bundles (_bundles g ++ [br]) ;;;
    fire GChanged.

(** The three overloads of [PortGroup::add_bundle]. *)
Definition add_bundle (b : Bundle) (allow_dups : bool) : PG unit :=
  add_bundle_internal b None false Color_default allow_dups.

Definition add_bundle_io (b : Bundle) (io : IO) : PG unit :=
  add_bundle_internal b (Some io) false Color_default false.

Definition add_bundle_io_colour (b : Bundle) (io : IO) (c : Color) : PG unit :=
  add_bundle_internal b (Some io) true c false.

(** The scan of [remove_bundle]: split the list at the first record that
    holds the object [b]. *)
Fixpoint split_at_bundle (b : Bundle) (bs : list BundleRecord)
  : option (list BundleRecord * BundleRecord * list BundleRecord) :=
  match bs with
  | [] => None
  | r :: bs' =>
      if BundleOps.same_object (bundle r) b then Some ([], r, bs')
      else match split_at_bundle b bs' with
           | Some (pre, x, post) => Some (r :: pre, x, post)
           | None => None
           end
  end.

(** [PortGroup::remove_bundle]; [b] is not null. *)
Definition remove_bundle (b : Bundle) : PG unit :=
  let! g := get in
  match split_at_bundle b (_bundles g) with
  | None => ret tt
  | Some (pre, r, post) =>
      fire (GDisconnect (b_addr (bundle r))) ;;;
      set_bundles (pre ++ post) ;;;
      fire GChanged
  end.

(** [PortGroup::bundle_changed] *)
Definition bundle_changed (c : Change) : PG unit := fire (GBundleChanged c).

(** [PortGroup::clear] *)
Definition clear : PG unit :=
  let! g := get in
  for_each (_bundles g) (λ r, fire (GDisconnect (b_addr (bundle r)))) ;;;
  set_bundles [] ;;;
  fire GChanged.

(** [PortGroup::has_port] *)
Definition has_port (g : PortGroup) (p : string) : bool :=
  existsb (λ r, BundleOps.offers_port_alone (bundle r) p) (_bundles g).

(** [PortGroup::only_bundle] *)
Definition only_bundle (g : PortGroup) : outcome Bundle :=
  if Nat.eqb (length (_bundles g)) 1 then
    match _bundles g with
    | r :: _ => Returns (bundle r)
    | [] => AssertFail
    end
  else AssertFail.

(** [PortGroup::total_channels] *)
Definition total_channels (g : PortGroup) : ChanCount :=
  fold_left (λ n r, ChanCountOps.add n (BundleOps.nchannels (bundle r)))
            (_bundles g) ChanCountOps.zero.

(** *** remove_duplicates *)

(** The innermost loop: from [l], with [fuel] channels of [bj] left, move
    on while the ports of channel [l] of [bj] differ from [pk]; the
    result is the final [l]. *)
Fixpoint scan_l (fuel l : nat) (pk : PortList) (bj : Bundle) : nat :=
  match fuel with
  | 0 => l
  | S fuel' =>
      if bool_decide (pk ≠ BundleOps.channel_ports bj l)
      then scan_l fuel' (S l) pk bj
      else l
  end.

(** The loop over the channels [k] of [bi]: stops at the first channel
    without an equivalent on [bj]; the result is the final [k]. *)
Fixpoint scan_k (fuel k : nat) (bi bj : Bundle) : nat :=
  match fuel with
  | 0 => k
  | S fuel' =>
      let nj := ChanCountOps.n_total (BundleOps.nchannels bj) in
      let l := scan_l nj 0 (BundleOps.channel_ports bi k) bj in
      if Nat.eqb l nj then k
      else scan_k fuel' (S k) bi bj
  end.

(** Body of the loop over [j]: is [bj] larger, with every channel of
    [bi] represented on it? *)
Definition represented_by (bi bj : Bundle) : bool :=
  if chancount_gt (BundleOps.nchannels bj) (BundleOps.nchannels bi) then
    let ni := ChanCountOps.n_total (BundleOps.nchannels bi) in
    Nat.eqb (scan_k ni 0 bi bj) ni
  else false.

(** The loop over [j], through the whole current list; [remove]. *)
Definition to_remove (i : BundleRecord) (current : list BundleRecord) : bool :=
  existsb (λ j, represented_by (bundle i) (bundle j)) current.

(** The loop over [i].  [done] are the records before [i] that were
    kept, [rest] starts at [i]; the list of the group at this point is
    [done ++ rest].  An erased record is dropped from the list and
    nothing else happens to it. *)
Fixpoint remove_duplicates_from (done rest : list BundleRecord) : list BundleRecord :=
  match rest with
  | [] => done
  | i :: tmp =>
      if to_remove i (done ++ rest)
      then remove_duplicates_from done tmp
      else remove_duplicates_from (done ++ [i]) tmp
  end.

(** [PortGroup::remove_duplicates] *)
Definition remove_duplicates : PG unit :=
  let! g := get in
  set_bundles (remove_duplicates_from [] (_bundles g)).

(** [wp.lock ()] on a [weak_ptr<IO>]: the object while it is alive. *)
Definition lock (alive : IO → bool) (wp : option IO) : option IO :=
  match wp with
  | Some j => if alive j then Some j else None
  | None => None
  end.

(** [PortGroup::io_from_bundle] *)
Definition io_from_bundle (alive : IO → bool) (g : PortGroup) (b : Bundle) : option IO :=
  match split_at_bundle b (_bundles g) with
  | None => None
  | Some (_, r, _) => lock alive (io r)
  end.

(** The methods of a group that change it or fire a signal. *)
Inductive Op :=
| OAdd (b : Bundle) (io : option IO) (has_colour : bool) (colour : Color)
       (allow_dups : bool)
| ORemove (b : Bundle)
| OBundleChanged (c : Change)
| OClear
| ORemoveDuplicates.

Definition run_op (o : Op) : PG unit :=
  match o with
  | OAdd b io hc c allow_dups => add_bundle_internal b io hc c allow_dups
  | ORemove b => remove_bundle b
  | OBundleChanged c => bundle_changed c
  | OClear => clear
  | ORemoveDuplicates => remove_duplicates
  end.

Definition is_remove_duplicates (o : Op) : bool :=
  match o with
  | ORemoveDuplicates => true
  | _ => false
  end.

End WithLib.
End PortGroupM.

(* ===================================================================== *)
(** ** The session and the engine, as [gather] reads them *)
(* ===================================================================== *)

(** [ARDOUR::Port]; [port_type] is [AUDIO] for an [AudioPort] and [MIDI]
    for a [MidiPort]. *)
Record Port := mkPort {
  port_name : string;         (* port->name () *)
  pretty_name : string;       (* port->pretty_name () *)
  port_type : DataType;
}.

(** A processor of a route: an [IOProcessor] with its [input ()] and
    [output ()], either of which may be null, or any other processor. *)
Inductive Processor :=
| IOProcessor (input output : option IO)
| PlainProcessor.

(** A [PluginInsert]: the input of its side chain, when it has one. *)
Record PluginInsert := mkPluginInsert {
  sidechain : option IO;      (* p->sidechain (), then sc->input () *)
}.

Record Route := mkRoute {
  order : nat;                            (* presentation_info ().order () *)
  is_monitor : bool;
  is_track : bool;                        (* dynamic_pointer_cast<Track> *)
  input : IO;
  output : IO;
  processors : list (option Processor);   (* the weak pointers of foreach_processor;
                                             an expired one is None *)
  plugins : list PluginInsert;            (* nth_plugin (0), nth_plugin (1), ... *)
}.

Record TransportMaster := mkTransportMaster {
  tm_name : string;
  tm_port : option Port;
}.

(** [ControlProtocolInfo]: the bundles of its protocol, when one is
    loaded. *)
Record ControlProtocolInfo := mkControlProtocolInfo {
  protocol : option (list Bundle);
}.

Record IOPlug := mkIOPlug {
  plug_input : IO;
  plug_output : IO;
  is_pre : bool;
}.

Record Session := mkSession {
  get_routes : list Route;
  session_bundles : list (bool * Bundle);   (* session->bundles (), each with
                                               whether it is a UserBundle *)
  the_auditioner : option IO;               (* the_auditioner ()->output () *)
  click_io : option IO;
  ltc_output_port : Port;
  vkbd_output_port : Port;
  mmc_input_port : Port;
  mtc_output_port : Port;
  midi_clock_output_port : Port;
  mmc_output_port : Port;
  io_plugs : list IOPlug;
}.

(** What the port engine knows of a port handle; the two flags are
    [flags & Hidden] and [flags & IsPhysical]. *)
Record PortHandle := mkPortHandle {
  port_data_type : DataType;
  flag_hidden : bool;
  flag_physical : bool;
}.

(** The process-wide collaborators of [gather]: the program name, the
    audio engine and its port engine, the natural sort of libs/pbd, the
    transport masters, the control protocols, the editor, and the next
    free address of the heap. *)
Class Host := {
  PROGRAM_NAME : string;
  make_port_name_non_relative : string → string;
  get_ports : DataType → bool → list string;
      (* AudioEngine::get_ports (pattern, type, inputs ? IsInput : IsOutput, ..) *)
  sort_naturally : list string → list string;
      (* std::sort (.., PBD::naturally_less) *)
  get_port_by_name : string → option PortHandle;
  get_pretty_name_by_name : string → string;
  transport_masters : list TransportMaster;
  control_protocol_info : list ControlProtocolInfo;
  time_axis_view_colour : Route → option Color;
      (* time_axis_view_from_stripable (route), then tv->color () *)
  heap_start : nat;
}.

(* ===================================================================== *)
(** ** PortGroupList: signals, suspension, membership *)
(* ===================================================================== *)

(** The two signals of a [PortGroupList]. *)
Inductive Signal :=
| Changed                        (* PortGroupList::Changed () *)
| BundleChanged (c : Change).    (* PortGroupList::BundleChanged (c) *)

Global Instance Signal_eq_dec : EqDecision Signal.
Proof. solve_decision. Defined.

(** The fields of a [PortGroupList].  The groups are held by value: a
    group enters [_groups] through [add_group] only, which connects its
    two signals to [emit_changed] and [emit_bundle_changed].  This is
    the list whose members are distinct objects, each connected once:
    the list that [gather] builds, from eight groups that it has just
    made.  The source holds [shared_ptr<PortGroup>]; a list in which one
    object is a member twice, or is added again after [clear], is in
    [Shared] below, with the addresses and the connection lists. *)
Record PortGroupList := mkPortGroupList {
  _groups : list PortGroup;
  _signals_suspended : bool;
  _pending_change : bool;
  _pending_bundle_change : Change;
}.

Definition PGL := Eff PortGroupList Signal.

Module PortGroupListM.
Section WithLib.
Context `{BundleLib}.

(** [PortGroupList::PortGroupList ()] *)
Definition new : PortGroupList := mkPortGroupList [] false false 0%Z.

(** The list with other members. *)
Definition with_groups (gs : list PortGroup) (l : PortGroupList) : PortGroupList :=
  mkPortGroupList gs (_signals_suspended l) (_pending_change l)
                  (_pending_bundle_change l).

Definition set_groups (gs : list PortGroup) : PGL unit :=
  λ l, (tt, with_groups gs l, []).
Definition set_signals_suspended (v : bool) : PGL unit :=
  λ l, (tt, mkPortGroupList (_groups l) v (_pending_change l)
                            (_pending_bundle_change l), []).
Definition set_pending_change (v : bool) : PGL unit :=
  λ l, (tt, mkPortGroupList (_groups l) (_signals_suspended l) v
                            (_pending_bundle_change l), []).
Definition set_pending_bundle_change (c : Change) : PGL unit :=
  λ l, (tt, mkPortGroupList (_groups l) (_signals_suspended l)
                            (_pending_change l) c, []).

(** [PortGroupList::emit_changed] *)
Definition emit_changed : PGL unit :=
  let! l := get in
  if _signals_suspended l then set_pending_change true
  else fire Changed.

(** [PortGroupList::emit_bundle_changed] *)
Definition emit_bundle_changed (c : Change) : PGL unit :=
  let! l := get in
  if _signals_suspended l then set_pending_bundle_change c
  else fire (BundleChanged c).

(** [PortGroupList::suspend_signals] *)
Definition suspend_signals : PGL unit := set_signals_suspended true.

(** [PortGroupList::resume_signals] *)
Definition resume_signals : PGL unit :=
  (let! l := get in
   if _pending_change l then
     fire Changed ;;; set_pending_change false
   else ret tt) ;;;
  (let! l := get in
   if bool_decide (_pending_bundle_change l ≠ 0%Z) then
     fire (BundleChanged (_pending_bundle_change l)) ;;;
     set_pending_bundle_change 0%Z
   else ret tt) ;;;
  set_signals_suspended false.

(** [PortGroupList::clear]; dropping [_bundle_changed_connections] has no
    effect on the fields modelled here. *)
Definition clear : PGL unit :=
  set_groups [] ;;;
  emit_changed.

(** [PortGroupList::add_group] *)
Definition add_group (g : PortGroup) : PGL unit :=
  let! l := get in
  set_groups (_groups l ++ [g]) ;;;
  emit_changed.

(** [PortGroupList::add_group_if_not_empty] *)
Definition add_group_if_not_empty (g : PortGroup) : PGL unit :=
  match _bundles g with
  | [] => ret tt
  | _ :: _ => add_group g
  end.

(** The slots that [add_group] connects to the signals of a group:
    [Changed] runs [emit_changed], [BundleChanged] runs
    [emit_bundle_changed]. *)
Definition slot (e : GroupEvent) : PGL unit :=
  match e with
  | GChanged => emit_changed
  | GBundleChanged c => emit_bundle_changed c
  | GConnect _ | GDisconnect _ => ret tt
  end.

(** A method [op] called on the member group at position [i], of a list
    of distinct groups, each connected once: the method changes that
    member only, and each signal of the group reaches the list once.
    [Shared.call_group] is the call through a pointer, where the object
    can be a member at other positions and is heard once for each
    connection; [shared_remove_bundle_by_value] relates the two. *)
Definition on_group (i : nat) (op : PG unit) : PGL unit :=
  let! l := get in
  match _groups l !! i with
  | None => ret tt
  | Some g =>
      let r := op g in
      set_groups (<[i := state_of r]> (_groups l)) ;;;
      for_each (trace_of r) slot
  end.

(** [PortGroupList::remove_bundle] *)
Definition remove_bundle (b : Bundle) : PGL unit :=
  let! l := get in
  for_each (seq 0 (length (_groups l)))
           (λ i, on_group i (PortGroupM.remove_bundle b)) ;;;
  emit_changed.

(** [PortGroupList::bundles]: the cache is rebuilt on every call. *)
Definition bundles (l : PortGroupList) : list BundleRecord :=
  concat (map _bundles (_groups l)).

(** [PortGroupList::total_channels] *)
Definition total_channels (l : PortGroupList) : ChanCount :=
  fold_left (λ n g, ChanCountOps.add n (PortGroupM.total_channels g))
            (_groups l) ChanCountOps.zero.

(** [PortGroupList::empty] *)
Definition empty (l : PortGroupList) : bool :=
  match _groups l with
  | [] => true
  | _ => false
  end.

(** *** Bundle synthesis and gather *)

Context `{Host}.

(** The eight groups that [gather] builds before it publishes them. *)
Inductive Category :=
| Bus | Track | Sidechain | IopPre | IopPost | System | Program | Other.

Global Instance Category_eq_dec : EqDecision Category.
Proof. solve_decision. Defined.

(** The local objects of a [gather] call: the group behind each of the
    eight pointers, and the heap's next free address.  Nothing listens
    to these groups yet, so their events are only logged. *)
Record Locals := mkLocals {
  group : Category → PortGroup;
  heap_top : nat;
}.

Definition Gather := Eff Locals (Category * GroupEvent).

(** [g->op (..)] for one of the eight local groups *)
Definition on (g : Category) (op : PG unit) : Gather unit :=
  λ L, let r := op (group L g) in
       (tt, mkLocals (<[g := state_of r]> (group L)) (heap_top L),
        map (pair g) (trace_of r)).

(** [new Bundle (name, inputs)] *)
Definition new_Bundle (name : string) (inputs : bool) : Gather Bundle :=
  λ L, (BundleOps.new (heap_top L) name inputs,
        mkLocals (group L) (S (heap_top L)), []).

(** [PortGroupList::port_has_prefix] *)
Definition port_has_prefix (n p : string) : bool :=
  String.eqb (Str.substr n 0 (String.length p)) p.

(** The loop of [common_prefix_before] over [j]: stops at the first
    string that does not start with [fp]; the result is the final [j]. *)
Fixpoint prefix_scan (fp : string) (rest : list string) (j : nat) : nat :=
  match rest with
  | [] => j
  | pj :: rest' =>
      if negb (String.eqb (Str.substr pj 0 (String.length fp)) fp) then j
      else prefix_scan fp rest' (S j)
  end.

(** [PortGroupList::common_prefix_before] *)
Definition common_prefix_before (p : list string) (s : string) : string :=
  match p with
  | [] => EmptyString
  | p0 :: rest =>
      if negb (Str.found (Str.find_first_of p0 s)) then EmptyString
      else
        let fp := Str.substr p0 0 (Str.plus1 (Str.find_first_of p0 s)) in
        let j := prefix_scan fp rest 1 in
        if negb (Nat.eqb j (length p)) then EmptyString else fp
  end.

(** [PortGroupList::common_prefix] *)
Definition common_prefix (p : list string) : string :=
  let cp := common_prefix_before p "/" in
  if negb (Str.empty cp) then cp
  else
    let cp := common_prefix_before p ":" in
    if negb (Str.empty cp) then cp
    else EmptyString.

(** The loop of [make_bundle_from_ports] over [j]. *)
Fixpoint add_port_channels (pre : string) (type : DataType)
    (p : list string) (j : nat) (b : Bundle) : Bundle :=
  match p with
  | [] => b
  | pj :: p' =>
      let n := Str.substr_from pj (String.length pre) in
      let pn := get_pretty_name_by_name pj in
      let n := if negb (Str.empty pn) then pn else n in
      let b := BundleOps.add_channel b n type in
      let b := BundleOps.set_port b j pj in
      add_port_channels pre type p' (S j) b
  end.

(** [PortGroupList::make_bundle_from_ports]; [bundle_name] defaults to
    the empty string. *)
Definition make_bundle_from_ports (p : list string) (type : DataType)
    (inputs : bool) (bundle_name : string) : Gather Bundle :=
  let! b := new_Bundle EmptyString inputs in
  let pre := common_prefix p in
  let b :=
    if negb (Str.empty bundle_name) then BundleOps.set_name b bundle_name
    else if negb (Str.empty pre)
         then BundleOps.set_name b (Str.substr pre 0 (String.length pre - 1))
         else b in
  ret (add_port_channels pre type p 0 b).

(** [s.substr (0, s.find_first_of (sep) + 1)] *)
Definition prefix_to_sep (sep s : string) : string :=
  Str.substr s 0 (Str.plus1 (Str.find_first_of s sep)).

(** [make_bundle_from_ports (nb, type, inputs)], then
    [group->add_bundle (b, allow_dups)] *)
Definition add_bundle_from_ports (nb : list string) (type : DataType)
    (inputs allow_dups : bool) (g : Category) : Gather unit :=
  let! b := make_bundle_from_ports nb type inputs EmptyString in
  on g (PortGroupM.add_bundle b allow_dups).

(** The second loop of [add_bundles_for_ports]: [nb] is the run
    collected so far, [cp] the prefix of the previous name. *)
Fixpoint add_bundles_runs (sep : string) (p : list string)
    (nb : list string) (cp : string)
    (type : DataType) (inputs allow_dups : bool) (g : Category) : Gather unit :=
  match p with
  | [] =>
      if negb (bool_decide (nb = []))
      then add_bundle_from_ports nb type inputs allow_dups g
      else ret tt
  | s :: p' =>
      let pf := prefix_to_sep sep s in
      if negb (String.eqb pf cp) && negb (bool_decide (nb = [])) then
        add_bundle_from_ports nb type inputs allow_dups g ;;;
        add_bundles_runs sep p' [s] pf type inputs allow_dups g
      else
        add_bundles_runs sep p' (nb ++ [s]) pf type inputs allow_dups g
  end.

(** The separator chosen by [add_bundles_for_ports]. *)
Definition separator (p : list string) : string :=
  let has_slash := forallb (λ s, Str.found (Str.find_char s "/"%char)) p in
  let has_colon := forallb (λ s, Str.found (Str.find_char s ":"%char)) p in
  if has_slash then "/" else if has_colon then ":" else EmptyString.

(** [PortGroupList::add_bundles_for_ports] *)
Definition add_bundles_for_ports (p : list string) (type : DataType)
    (inputs allow_dups : bool) (g : Category) : Gather unit :=
  let sep := separator p in
  if Str.empty sep then
    add_bundle_from_ports p type inputs allow_dups g
  else
    add_bundles_runs sep p [] EmptyString type inputs allow_dups g.

(** [struct RouteIOs] *)
Record RouteIOs := mkRouteIOs {
  route : Route;
  ios : list IO;
}.

(** [PortGroupList::maybe_add_processor_to_list], on the list of IOs of
    the route and the set of the addresses of the IOs already taken. *)
Definition maybe_add_processor_to_list (wp : option Processor) (inputs : bool)
    (st : list IO * gset nat) : list IO * gset nat :=
  match wp with
  | None => st
  | Some PlainProcessor => st
  | Some (IOProcessor i o) =>
      match (if inputs then i else o) with
      | Some io =>
          if bool_decide (io_addr io ∉ st.2)
          then (st.1 ++ [io], st.2 ∪ {[io_addr io]})
          else st
      | None => st
      end
  end.

(** The first loop of [gather]: the IOs of every route and of its
    processors. *)
Fixpoint scan_routes (inputs : bool) (routes : list Route)
    (route_ios : list RouteIOs) : list RouteIOs :=
  match routes with
  | [] => route_ios
  | i :: routes' =>
      if inputs && is_monitor i then scan_routes inputs routes' route_ios
      else
        let io := if inputs then input i else output i in
        let used_io : gset nat := {[io_addr io]} in
        let st := fold_left (λ st wp, maybe_add_processor_to_list wp inputs st)
                            (processors i) ([io], used_io) in
        scan_routes inputs routes' (route_ios ++ [mkRouteIOs i st.1])
  end.

(** [route_ios.sort (RouteIOsComparator ())]: a stable sort by the order
    key of the route. *)
Fixpoint insert_by_order (x : RouteIOs) (l : list RouteIOs) : list RouteIOs :=
  match l with
  | [] => [x]
  | y :: l' =>
      if order (route x) <? order (route y) then x :: l
      else y :: insert_by_order x l'
  end.

Definition sort_by_order (l : list RouteIOs) : list RouteIOs :=
  fold_left (λ sorted x, insert_by_order x sorted) l [].

(** The second loop of [gather], for one sorted [RouteIOs]. *)
Definition add_route_bundles (type : DataType) (inputs : bool) (i : RouteIOs)
  : Gather unit :=
  let tv := time_axis_view_colour (route i) in
  let g := if is_track (route i) then Track else Bus in
  for_each (ios i) (λ j,
    if bool_decide (type = NIL)
       || (0 <? ChanCountOps.n (BundleOps.nchannels (io_bundle j)) type)
    then
      match tv with
      | Some c => on g (PortGroupM.add_bundle_io_colour (io_bundle j) j c)
      | None => on g (PortGroupM.add_bundle_io (io_bundle j) j)
      end
    else ret tt) ;;;
  if inputs then
    for_each (plugins (route i)) (λ p,
      match sidechain p with
      | Some io =>
          match tv with
          | Some c => on Sidechain (PortGroupM.add_bundle_io_colour (io_bundle io) io c)
          | None => on Sidechain (PortGroupM.add_bundle_io (io_bundle io) io)
          end
      | None => ret tt
      end)
  else ret tt.

(** The bundles owned by the session: user bundles first. *)
Definition add_session_bundles (session : Session)
    (inputs allow_dups use_session_bundles : bool) : Gather unit :=
  for_each (session_bundles session) (λ i,
    if i.1 && Bool.eqb (ports_are_inputs i.2) inputs
    then on System (PortGroupM.add_bundle i.2 allow_dups)
    else ret tt) ;;;
  if use_session_bundles then
    for_each (session_bundles session) (λ i,
      if negb i.1 && Bool.eqb (ports_are_inputs i.2) inputs
      then on System (PortGroupM.add_bundle i.2 allow_dups)
      else ret tt)
  else ret tt.

(** The channels of a "Sync" bundle: one per transport master whose
    port exists and has type [t]. *)
Fixpoint add_sync_channels (t : DataType) (tm : list TransportMaster)
    (sync : Bundle) : Bundle :=
  match tm with
  | [] => sync
  | i :: tm' =>
      match tm_port i with
      | None => add_sync_channels t tm' sync
      | Some port =>
          if negb (bool_decide (port_type port = t))
          then add_sync_channels t tm' sync
          else add_sync_channels t tm'
                 (BundleOps.add_channel_port sync (tm_name i) t
                    (make_port_name_non_relative (port_name port)))
      end
  end.

(** "miscellany", the control surfaces, the virtual keyboard and the
    sync ports.  [program->add_bundle (b)] leaves [allow_dups] at its
    default, false. *)
Definition add_program_bundles (session : Session) (type : DataType)
    (inputs : bool) : Gather unit :=
  (if bool_decide (type = AUDIO) || bool_decide (type = NIL) then
     if negb inputs then
       (match the_auditioner session with
        | Some out => on Program (PortGroupM.add_bundle (io_bundle out) false)
        | None => ret tt
        end) ;;;
       (match click_io session with
        | Some io => on Program (PortGroupM.add_bundle (io_bundle io) false)
        | None => ret tt
        end) ;;;
       let! ltc := new_Bundle "LTC Out" inputs in
       let ltc := BundleOps.add_channel_port ltc "LTC Out" AUDIO
                    (make_port_name_non_relative (port_name (ltc_output_port session))) in
       on Program (PortGroupM.add_bundle ltc false)
     else
       let! sync := new_Bundle "Sync" inputs in
       let sync := add_sync_channels AUDIO transport_masters sync in
       on Program (PortGroupM.add_bundle sync false)
   else ret tt) ;;;
  (if bool_decide (type = MIDI) || bool_decide (type = NIL) then
     for_each control_protocol_info (λ i,
       match protocol i with
       | Some b =>
           for_each b (λ j,
             if Bool.eqb (ports_are_inputs j) inputs
             then on Program (PortGroupM.add_bundle j false)
             else ret tt)
       | None => ret tt
       end)
   else ret tt) ;;;
  (if negb inputs && (bool_decide (type = MIDI) || bool_decide (type = NIL)) then
     let ap := vkbd_output_port session in
     let! vm := new_Bundle (pretty_name ap) inputs in
     let vm := BundleOps.add_channel_port vm (pretty_name ap) MIDI
                 (make_port_name_non_relative (port_name ap)) in
     on Program (PortGroupM.add_bundle vm false)
   else ret tt) ;;;
  (if bool_decide (type = MIDI) || bool_decide (type = NIL) then
     let! sync := new_Bundle "Sync" inputs in
     let sync :=
       if inputs then
         let sync := add_sync_channels MIDI transport_masters sync in
         BundleOps.add_channel_port sync "MMC in" MIDI
           (make_port_name_non_relative (port_name (mmc_input_port session)))
       else
         let sync := BundleOps.add_channel_port sync "MTC out" MIDI
           (make_port_name_non_relative (port_name (mtc_output_port session))) in
         let sync := BundleOps.add_channel_port sync "MIDI clock out" MIDI
           (make_port_name_non_relative (port_name (midi_clock_output_port session))) in
         BundleOps.add_channel_port sync "MMC out" MIDI
           (make_port_name_non_relative (port_name (mmc_output_port session))) in
     on Program (PortGroupM.add_bundle sync false)
   else ret tt).

(** The loop over the IO plugins of the session. *)
Definition add_io_plugs (session : Session) (type : DataType) (inputs : bool)
  : Gather unit :=
  for_each (io_plugs session) (λ iop,
    let io := if inputs then plug_input iop else plug_output iop in
    if Nat.eqb (ChanCountOps.n_total (io_n_ports io)) 0 then ret tt
    else if bool_decide (type = NIL) || (0 <? ChanCountOps.n (io_n_ports io) type) then
      if is_pre iop then on IopPre (PortGroupM.add_bundle_io (io_bundle io) io)
      else on IopPost (PortGroupM.add_bundle_io (io_bundle io) io)
    else ret tt).

(** The three arrays [extra_system], [extra_program] and [extra_other],
    indexed by data type. *)
Record Extra := mkExtra {
  extra_system : DataType → list string;
  extra_program : DataType → list string;
  extra_other : DataType → list string;
}.

Definition lpn : string := Str.to_lower PROGRAM_NAME.
Definition lpnc : string := String.append lpn ":".

(** Body of the loop over the sorted port names. *)
Definition sort_port (L : Locals) (allow_dups : bool) (p : string) (x : Extra) : Extra :=
  if allow_dups
     || (negb (PortGroupM.has_port (group L System) p)
         && negb (PortGroupM.has_port (group L Bus) p)
         && negb (PortGroupM.has_port (group L Track) p)
         && negb (PortGroupM.has_port (group L IopPre) p)
         && negb (PortGroupM.has_port (group L IopPost) p)
         && negb (PortGroupM.has_port (group L Sidechain) p)
         && negb (PortGroupM.has_port (group L Program) p)
         && negb (PortGroupM.has_port (group L Other) p))
  then
    if Str.found (Str.find p "Midi-Through") || Str.found (Str.find p "Midi Through")
    then x
    else
      let lp := Str.to_lower p in
      let monitor := Str.to_lower "Monitor" in
      if Str.found (Str.find lp monitor) && Str.found (Str.find lp lpn) then x
      else
        match get_port_by_name p with
        | None => x
        | Some ph =>
            let t := port_data_type ph in
            if bool_decide (t ≠ NIL) then
              if flag_hidden ph then x
              else if port_has_prefix p lpnc then
                mkExtra (extra_system x)
                        (<[t := extra_program x t ++ [p]]> (extra_program x))
                        (extra_other x)
              else if flag_physical ph then
                mkExtra (<[t := extra_system x t ++ [p]]> (extra_system x))
                        (extra_program x) (extra_other x)
              else
                mkExtra (extra_system x) (extra_program x)
                        (<[t := extra_other x t ++ [p]]> (extra_other x))
            else x
        end
  else x.

(** "Now find all other ports that we haven't thought of yet". *)
Definition find_extra_ports (L : Locals) (type : DataType)
    (inputs allow_dups : bool) : Extra :=
  let ports :=
    if bool_decide (type = NIL)
    then get_ports AUDIO inputs ++ get_ports MIDI inputs
    else get_ports type inputs in
  let none := mkExtra (λ _, []) (λ _, []) (λ _, []) in
  if 0 <? length ports then
    fold_left (λ x p, sort_port L allow_dups p x) (sort_naturally ports) none
  else none.

Definition add_extra_ports (type : DataType) (inputs allow_dups : bool)
  : Gather unit :=
  let! L := get in
  let x := find_extra_ports L type inputs allow_dups in
  for_each DataType_all (λ i,
    if negb (bool_decide (extra_system x i = []))
    then add_bundles_for_ports (extra_system x i) i inputs allow_dups System
    else ret tt) ;;;
  for_each DataType_all (λ i,
    if negb (bool_decide (extra_program x i = [])) then
      let! b := make_bundle_from_ports (extra_program x i) i inputs lpn in
      on Program (PortGroupM.add_bundle b false)
    else ret tt) ;;;
  for_each DataType_all (λ i,
    if bool_decide (extra_other x i = []) then ret tt
    else add_bundles_for_ports (extra_other x i) i inputs allow_dups Other).

(** The eight groups as [gather] creates them. *)
Definition new_groups (g : Category) : PortGroup :=
  PortGroupM.new
    match g with
    | Bus => "Busses"
    | Track => "Tracks"
    | Sidechain => "Sidechains"
    | IopPre => "I/O Pre"
    | IopPost => "I/O Post"
    | System => "Hardware"
    | Program => String.append PROGRAM_NAME " Misc"
    | Other => "External"
    end.

(** [gather], from the creation of the groups up to [remove_duplicates]. *)
Definition fill_groups (session : Session) (type : DataType)
    (inputs allow_dups use_session_bundles : bool) : Gather unit :=
  let route_ios := scan_routes inputs (get_routes session) [] in
  let route_ios := sort_by_order route_ios in
  for_each route_ios (add_route_bundles type inputs) ;;;
  add_session_bundles session inputs allow_dups use_session_bundles ;;;
  add_program_bundles session type inputs ;;;
  add_io_plugs session type inputs ;;;
  add_extra_ports type inputs allow_dups ;;;
  if negb allow_dups then on System PortGroupM.remove_duplicates
  else ret tt.

(** [PortGroupList::gather]; a null [session] is [None]. *)
Definition gather (session : option Session) (type : DataType)
    (inputs allow_dups use_session_bundles : bool) : PGL unit :=
  clear ;;;
  match session with
  | None => ret tt
  | Some session =>
      let L := state_of (fill_groups session type inputs allow_dups
                           use_session_bundles (mkLocals new_groups heap_start)) in
      add_group_if_not_empty (group L Bus) ;;;
      add_group_if_not_empty (group L Track) ;;;
      add_group_if_not_empty (group L Sidechain) ;;;
      add_group_if_not_empty (group L IopPre) ;;;
      add_group_if_not_empty (group L IopPost) ;;;
      add_group_if_not_empty (group L Program) ;;;
      add_group_if_not_empty (group L Other) ;;;
      add_group_if_not_empty (group L System) ;;;
      emit_changed
  end.

(** *** What can happen to a list between two reads *)

(** The mutating methods of the list itself. *)
Inductive Mutation :=
| MClear
| MAddGroup (g : PortGroup)
| MRemoveBundle (b : Bundle)
| MGather (session : option Session) (type : DataType)
          (inputs allow_dups use_session_bundles : bool).

Definition mutate (m : Mutation) : PGL unit :=
  match m with
  | MClear => clear
  | MAddGroup g => add_group g
  | MRemoveBundle b => remove_bundle b
  | MGather session type inputs allow_dups use_session_bundles =>
      gather session type inputs allow_dups use_session_bundles
  end.

(** A notification asked of the list: every mutation reaches the
    signals through [emit_changed] or [emit_bundle_changed]. *)
Definition notify (s : Signal) : PGL unit :=
  match s with
  | Changed => emit_changed
  | BundleChanged c => emit_bundle_changed c
  end.

(** Whether a sequence of notifications asks for [Changed], and the
    payload of its last [BundleChanged], [d] when there is none. *)
Definition asks_changed (ns : list Signal) : bool :=
  existsb (λ s, match s with Changed => true | BundleChanged _ => false end) ns.

Definition last_payload (ns : list Signal) (d : Change) : Change :=
  fold_left (λ d s, match s with Changed => d | BundleChanged c => c end) ns d.

(** The notifications that the slots of [add_group] ask for, given the
    events of a member group. *)
Definition forwarded (evs : list GroupEvent) : list Signal :=
  omap (λ e, match e with
             | GChanged => Some Changed
             | GBundleChanged c => Some (BundleChanged c)
             | GConnect _ | GDisconnect _ => None
             end) evs.

(** The outcome of a sequence of notifications: fired one by one on a
    list that is not suspended, folded into the two pending fields on a
    suspended one. *)
Definition notified (ns : list Signal) (l : PortGroupList)
  : unit * PortGroupList * list Signal :=
  if _signals_suspended l
  then (tt, mkPortGroupList (_groups l) true
              (_pending_change l || asks_changed ns)
              (last_payload ns (_pending_bundle_change l)), [])
  else (tt, l, ns).

(** Whether a group holds a record of the object [b]. *)
Definition holds (b : Bundle) (g : PortGroup) : bool :=
  existsb (λ x, BundleOps.same_object (bundle x) b) (_bundles g).

(** What [add_group_if_not_empty] appends. *)
Definition if_not_empty (g : PortGroup) : list PortGroup :=
  List.filter (λ g, negb (bool_decide (_bundles g = []))) [g].

(** The groups that the end of [gather] publishes, in order. *)
Definition published (L : Locals) : list PortGroup :=
  List.filter (λ g, negb (bool_decide (_bundles g = [])))
    [group L Bus; group L Track; group L Sidechain; group L IopPre;
     group L IopPost; group L Program; group L Other; group L System].

(** The "Misc" group of the program holds at least [n] records. *)
Definition program_has (n : nat) (L : Locals) : Prop :=
  n ≤ length (_bundles (group L Program)).

(** An action that never takes a record out of the program's group. *)
Definition grows {A} (m : Gather A) : Prop := ∀ n, keeps (program_has n) m.

(** An action after which the program's group is not empty. *)
Definition fills {A} (m : Gather A) : Prop := ∀ L, program_has 1 (state_of (m L)).

(** An action that leaves the group [g] as it is. *)
Definition leaves {A} (g : Category) (m : Gather A) : Prop :=
  ∀ G, keeps (λ L, group L g = G) m.

(** Every record of "Busses" and "Tracks" is taken from a route. *)
Definition route_groups (P : Category → BundleRecord → Prop) (L : Locals) : Prop :=
  ∀ c, c = Bus ∨ c = Track → ∀ r, r ∈ _bundles (group L c) → P c r.

(** The group [g] of [L'] is that of [L] with the records [new] appended,
    and the other groups are the same. *)
Definition appended_to (g : Category) (L L' : Locals) (new : list BundleRecord) : Prop :=
  _bundles (group L' g) = _bundles (group L g) ++ new
  ∧ (∀ c, c ≠ g → group L' c = group L c)
  ∧ heap_top L ≤ heap_top L'.

(** The loop of [PortGroupList::io_from_bundle]. *)
Fixpoint io_from_bundle_in (alive : IO → bool) (gs : list PortGroup) (b : Bundle)
  : option IO :=
  match gs with
  | [] => None
  | g :: gs' =>
      match PortGroupM.io_from_bundle alive g b with
      | Some io => Some io
      | None => io_from_bundle_in alive gs' b
      end
  end.

(** [PortGroupList::io_from_bundle] *)
Definition io_from_bundle (alive : IO → bool) (l : PortGroupList) (b : Bundle) : option IO :=
  io_from_bundle_in alive (_groups l) b.

(** Nothing is pending on a list whose signals are not suspended. *)
Definition settled (l : PortGroupList) : Prop :=
  _signals_suspended l = false →
  _pending_change l = false ∧ _pending_bundle_change l = 0%Z.

(** What the owner of a list and its member groups can do to it: a
    mutating method, a signal of a member group that reaches one of the
    two slots, [suspend_signals] and [resume_signals]. *)
Inductive Call :=
| CMutate (m : Mutation)
| CNotify (s : Signal)
| CSuspend
| CResume.

Definition call (c : Call) : PGL unit :=
  match c with
  | CMutate m => mutate m
  | CNotify s => notify s
  | CSuspend => suspend_signals
  | CResume => resume_signals
  end.

(** The three arrays of [Extra] by name. *)
Inductive Bucket := InSystem | InProgram | InOther.

Global Instance Bucket_eq_dec : EqDecision Bucket.
Proof. solve_decision. Defined.

Definition bucket (x : Extra) (k : Bucket) : DataType → list string :=
  match k with
  | InSystem => extra_system x
  | InProgram => extra_program x
  | InOther => extra_other x
  end.

(** [extra_..[t].push_back (p)] *)
Definition push (k : Bucket) (t : DataType) (p : string) (x : Extra) : Extra :=
  match k with
  | InSystem => mkExtra (<[t := extra_system x t ++ [p]]> (extra_system x))
                        (extra_program x) (extra_other x)
  | InProgram => mkExtra (extra_system x)
                         (<[t := extra_program x t ++ [p]]> (extra_program x))
                         (extra_other x)
  | InOther => mkExtra (extra_system x) (extra_program x)
                       (<[t := extra_other x t ++ [p]]> (extra_other x))
  end.

(** No group of the call offers the port [p] alone. *)
Definition unseen (L : Locals) (p : string) : Prop :=
  ∀ c, PortGroupM.has_port (group L c) p = false.

(** The port [p] is one that the loop over the ports of the engine puts
    into the array [k], at the type [t]: it is no "Midi-Through" port
    and no monitor port of the program, the engine knows it, with the
    type [t], it is not hidden, and [k] goes by its name and by whether
    it is physical. *)
Definition extra_port (k : Bucket) (t : DataType) (p : string) : Prop :=
  Str.found (Str.find p "Midi-Through") = false
  ∧ Str.found (Str.find p "Midi Through") = false
  ∧ Str.found (Str.find (Str.to_lower p) (Str.to_lower "Monitor"))
    && Str.found (Str.find (Str.to_lower p) lpn) = false
  ∧ ∃ ph, get_port_by_name p = Some ph
          ∧ port_data_type ph = t
          ∧ t ≠ NIL
          ∧ flag_hidden ph = false
          ∧ match k with
            | InProgram => port_has_prefix p lpnc = true
            | InSystem => port_has_prefix p lpnc = false ∧ flag_physical ph = true
            | InOther => port_has_prefix p lpnc = false ∧ flag_physical ph = false
            end.

(** The names that [gather] asks the engine for. *)
Definition engine_ports (type : DataType) (inputs : bool) : list string :=
  if bool_decide (type = NIL)
  then get_ports AUDIO inputs ++ get_ports MIDI inputs
  else get_ports type inputs.

(** The record that [add_bundle (b, io)] and [add_bundle (b, io, c)]
    make for the bundle of an IO, and the one that [add_bundle (b)]
    makes. *)
Definition owned (j : IO) (tv : option Color) : BundleRecord :=
  match tv with
  | Some c => mkBundleRecord (io_bundle j) (Some j) c true
  | None => mkBundleRecord (io_bundle j) (Some j) Color_default false
  end.

Definition unowned (b : Bundle) : BundleRecord :=
  mkBundleRecord b None Color_default false.

(** The local groups of a [gather] call change in three ways only: a
    bundle is allocated, a record is offered to a group through
    [add_bundle_internal], or [remove_duplicates] runs on "Hardware".
    [Steps Allowed L L'] holds when [L'] is reached from [L] by such
    steps, each offered record [r], offered to the group [g] with the
    flag [allow_dups], being one that [Allowed] admits. *)
Inductive Steps (Allowed : Category → BundleRecord → bool → Prop)
  : Locals → Locals → Prop :=
| steps_done L : Steps Allowed L L
| steps_new L L' :
    Steps Allowed (mkLocals (group L) (S (heap_top L))) L' →
    Steps Allowed L L'
| steps_add L L' g r allow_dups :
    Allowed g r allow_dups →
    Steps Allowed
      (state_of (on g (PortGroupM.add_bundle_internal
                         (bundle r) (io r) (has_colour r) (colour r) allow_dups) L)) L' →
    Steps Allowed L L'
| steps_dedup L L' :
    Steps Allowed (state_of (on System PortGroupM.remove_duplicates L)) L' →
    Steps Allowed L L'.

(** An action that changes the local groups by such steps only. *)
Definition runs_in {A} (Allowed : Category → BundleRecord → bool → Prop)
    (m : Gather A) : Prop :=
  ∀ L, Steps Allowed L (state_of (m L)).

End WithLib.
End PortGroupListM.

(* ===================================================================== *)
(** ** PortGroupList with its groups as shared objects *)
(* ===================================================================== *)

(** [_groups] is a list of [shared_ptr<PortGroup>]: a group object lives
    on a heap, its callers keep pointers to it, and one object can be a
    member of a list more than once.  [add_group] connects the two
    signals of the group to the list on every call, and [clear] drops
    the connections to [BundleChanged] only.  This module has the list
    with the addresses of its members and with its two connection
    lists, for the methods whose outcome depends on them; the module
    above is the list of distinct groups, each connected once, as
    [gather] builds it. *)
Module Shared.

Record World := mkWorld {
  heap : nat → PortGroup;                   (* the [PortGroup] objects, by address *)
  _groups : list nat;                       (* the pointers, in order *)
  _changed_connections : list nat;          (* one entry for each connection to the
                                               [Changed] signal of a group: its address *)
  _bundle_changed_connections : list nat;   (* the same for [BundleChanged] *)
  _signals_suspended : bool;
  _pending_change : bool;
  _pending_bundle_change : Change;
}.

Definition SL := Eff World Signal.

Definition with_heap (h : nat → PortGroup) (w : World) : World :=
  mkWorld h (_groups w) (_changed_connections w) (_bundle_changed_connections w)
          (_signals_suspended w) (_pending_change w) (_pending_bundle_change w).

Definition set_heap (h : nat → PortGroup) : SL unit :=
  λ w, (tt, with_heap h w, []).

Definition set_pending_change (v : bool) : SL unit :=
  λ w, (tt, mkWorld (heap w) (_groups w) (_changed_connections w)
                    (_bundle_changed_connections w) (_signals_suspended w) v
                    (_pending_bundle_change w), []).

Definition set_pending_bundle_change (c : Change) : SL unit :=
  λ w, (tt, mkWorld (heap w) (_groups w) (_changed_connections w)
                    (_bundle_changed_connections w) (_signals_suspended w)
                    (_pending_change w) c, []).

(** [PortGroupList::emit_changed] *)
Definition emit_changed : SL unit :=
  let! w := get in
  if _signals_suspended w then set_pending_change true
  else fire Changed.

(** [PortGroupList::emit_bundle_changed] *)
Definition emit_bundle_changed (c : Change) : SL unit :=
  let! w := get in
  if _signals_suspended w then set_pending_bundle_change c
  else fire (BundleChanged c).

(** The connections of a connection list to the signal of the group at
    [a]. *)
Definition connections (a : nat) (conns : list nat) : list nat :=
  List.filter (Nat.eqb a) conns.

(** How often the object at [a] is a member. *)
Definition occurrences (a : nat) (members : list nat) : nat :=
  length (List.filter (Nat.eqb a) members).

(** A signal of the group at [a]: every connection of the list to it
    runs its slot, [emit_changed] for [Changed] and [emit_bundle_changed]
    for [BundleChanged]. *)
Definition deliver (a : nat) (e : GroupEvent) : SL unit :=
  let! w := get in
  match e with
  | GChanged =>
      for_each (connections a (_changed_connections w)) (λ _, emit_changed)
  | GBundleChanged c =>
      for_each (connections a (_bundle_changed_connections w))
               (λ _, emit_bundle_changed c)
  | GConnect _ | GDisconnect _ => ret tt
  end.

(** A method [op] called through a pointer to the group at [a]. *)
Definition call_group (a : nat) (op : PG unit) : SL unit :=
  let! w := get in
  let r := op (heap w a) in
  set_heap (<[a := state_of r]> (heap w)) ;;;
  for_each (trace_of r) (deliver a).

(** [PortGroupList::add_group] *)
Definition add_group (g : nat) : SL unit :=
  (λ w, (tt, mkWorld (heap w) (_groups w ++ [g])
                     (_changed_connections w ++ [g])
                     (_bundle_changed_connections w ++ [g])
                     (_signals_suspended w) (_pending_change w)
                     (_pending_bundle_change w), [])) ;;;
  emit_changed.

(** [PortGroupList::clear]: [_changed_connections] is left as it is. *)
Definition clear : SL unit :=
  (λ w, (tt, mkWorld (heap w) [] (_changed_connections w) []
                     (_signals_suspended w) (_pending_change w)
                     (_pending_bundle_change w), [])) ;;;
  emit_changed.

(** [PortGroupList::remove_bundle] *)
Definition remove_bundle (b : Bundle) : SL unit :=
  let! w := get in
  for_each (_groups w) (λ a, call_group a (PortGroupM.remove_bundle b)) ;;;
  emit_changed.

(** [PortGroupList::io_from_bundle] *)
Definition io_from_bundle (alive : IO → bool) (w : World) (b : Bundle) : option IO :=
  PortGroupListM.io_from_bundle_in alive (map (heap w) (_groups w)) b.

(** The heap after [PortGroup::remove_bundle (b)] has been called
    through each of the pointers [members], in order. *)
Fixpoint removed_from (b : Bundle) (members : list nat) (h : nat → PortGroup)
  : nat → PortGroup :=
  match members with
  | [] => h
  | a :: rest =>
      removed_from b rest (<[a := state_of (PortGroupM.remove_bundle b (h a))]> h)
  end.

(** The calls of [emit_changed] that these calls cause: each group that
    loses a record fires [Changed], which runs the slot of each of its
    connections. *)
Fixpoint forwarded_changed (b : Bundle) (conns members : list nat)
    (h : nat → PortGroup) : nat :=
  match members with
  | [] => 0
  | a :: rest =>
      (if PortGroupListM.holds b (h a) then length (connections a conns) else 0)
      + forwarded_changed b conns rest
          (<[a := state_of (PortGroupM.remove_bundle b (h a))]> h)
  end.

(** [n] calls of [emit_changed], in one step. *)
Definition emitted (n : nat) (w : World) : unit * World * list Signal :=
  if _signals_suspended w
  then (tt, mkWorld (heap w) (_groups w) (_changed_connections w)
                    (_bundle_changed_connections w) true
                    (_pending_change w || (0 <? n)) (_pending_bundle_change w), [])
  else (tt, w, replicate n Changed).

(** The list of the module above that a world with distinct members,
    each connected once, stands for. *)
Definition by_value (w : World) : PortGroupList :=
  mkPortGroupList (map (heap w) (_groups w)) (_signals_suspended w)
    (_pending_change w) (_pending_bundle_change w).

End Shared.

(* ===================================================================== *)
(** ** Two instances used at concrete inputs *)
(* ===================================================================== *)

Module Concrete.

(** Modelled from the spec: [ChanCount::operator>] (libs/ardour) is not
    part of the sources.  "strictly more channels", with the counts held
    per type: no type has fewer channels, and the counts differ. *)
Definition chancount_gt_per_type (a b : ChanCount) : bool :=
  (n_audio b <=? n_audio a) && (n_midi b <=? n_midi a) && negb (bool_decide (a = b)).

Definition all_ports (b : Bundle) : list string :=
  concat (map ch_ports (b_channel b)).

(** Modelled from the spec: [Bundle::has_same_ports] (libs/ardour) is not
    part of the sources.  "two bundles are same if their underlying
    port-name sets match regardless of order". *)
Definition same_port_set (a b : Bundle) : bool :=
  forallb (λ p, bool_decide (p ∈ all_ports b)) (all_ports a)
  && forallb (λ p, bool_decide (p ∈ all_ports a)) (all_ports b).

Definition lib : BundleLib :=
  {| has_same_ports := same_port_set; chancount_gt := chancount_gt_per_type |}.

(** A bundle of audio channels with one port each. *)
Definition audio_bundle (a : nat) (n : string) (ports : list string) : Bundle :=
  mkBundle a n true (map (λ p, mkChannel p AUDIO [p]) ports).

Definition record_of (b : Bundle) : BundleRecord :=
  mkBundleRecord b None Color_default false.

Definition mono : Bundle := audio_bundle 1 "mono" ["system:capture_1"%string].
Definition stereo : Bundle :=
  audio_bundle 2 "stereo" ["system:capture_1"; "system:capture_2"]%string.
Definition other_mono : Bundle := audio_bundle 3 "other" ["system:capture_3"%string].

(** A port of the session, by name. *)
Definition midi_port (n : string) : Port := mkPort n n MIDI.

(** A host without hardware ports, transport masters or control
    surfaces. *)
Definition bare_host : Host := {|
  PROGRAM_NAME := "Ardour";
  make_port_name_non_relative := λ s, String.append "ardour:" s;
  get_ports := λ _ _, [];
  sort_naturally := λ l, l;
  get_port_by_name := λ _, None;
  get_pretty_name_by_name := λ _, EmptyString;
  transport_masters := [];
  control_protocol_info := [];
  time_axis_view_colour := λ _, None;
  heap_start := 100;
|}.

(** A session without routes, bundles, auditioner, click or IO plugins. *)
Definition bare_session : Session :=
  mkSession [] [] None None
    (midi_port "LTC-Out") (midi_port "x-virtual-keyboard")
    (midi_port "MMC in") (midi_port "MTC out")
    (midi_port "MIDI Clock out") (midi_port "MMC out") [].

(** A bus and the monitor bus, each with a mono input. *)
Definition bus_input : IO :=
  mkIO 10 (audio_bundle 11 "Bus 1 in" ["ardour:Bus 1/audio_in 1"%string])
       (mkChanCount 1 0).
Definition monitor_input : IO :=
  mkIO 20 (audio_bundle 21 "Monitor in" ["ardour:Monitor/audio_in 1"%string])
       (mkChanCount 1 0).
Definition no_output : IO := mkIO 30 (audio_bundle 31 "out" []) (mkChanCount 0 0).

Definition bus_route : Route :=
  mkRoute 1 false false bus_input no_output [] [].
Definition monitor_route : Route :=
  mkRoute 0 true false monitor_input no_output [] [].

(** The bare session with these two routes. *)
Definition monitored_session : Session :=
  mkSession [monitor_route; bus_route] [] None None
    (midi_port "LTC-Out") (midi_port "x-virtual-keyboard")
    (midi_port "MMC in") (midi_port "MTC out")
    (midi_port "MIDI Clock out") (midi_port "MMC out") [].

(** A small studio: an engine with hardware ports, a port of the
    program and a port of another client; a session with a track that
    has a send and a plugin with a side chain, and one IO plugin. *)
Definition studio_ports : list (string * PortHandle) :=
  [("system:playback_1", mkPortHandle AUDIO false true);
   ("system:playback_2", mkPortHandle AUDIO false true);
   ("system:playback_3", mkPortHandle AUDIO false true);
   ("ardour:LTC-in", mkPortHandle AUDIO false false);
   ("zita:in_1", mkPortHandle AUDIO false false);
   ("Midi-Through:port-0", mkPortHandle MIDI false true);
   ("system:secret", mkPortHandle AUDIO true true)]%string.

Definition studio_host : Host := {|
  PROGRAM_NAME := "Ardour";
  make_port_name_non_relative := λ s, String.append "ardour:" s;
  get_ports := λ t inputs,
    if inputs
    then map fst (List.filter (λ x, bool_decide (port_data_type x.2 = t)) studio_ports)
    else [];
  sort_naturally := λ l, l;
  get_port_by_name := λ n,
    match List.find (λ x, String.eqb n x.1) studio_ports with
    | Some x => Some x.2
    | None => None
    end;
  get_pretty_name_by_name := λ _, EmptyString;
  transport_masters := [];
  control_protocol_info := [];
  time_axis_view_colour := λ rt, if is_track rt then Some (mkColor 1 2 3) else None;
  heap_start := 100;
|}.

Definition track_input : IO :=
  mkIO 40 (audio_bundle 41 "Audio 1 in" ["ardour:Audio 1/audio_in 1"%string])
       (mkChanCount 1 0).
Definition send_input : IO :=
  mkIO 42 (audio_bundle 43 "Send in" ["ardour:Audio 1/send_in 1"%string])
       (mkChanCount 1 0).
Definition sidechain_input : IO :=
  mkIO 44 (audio_bundle 45 "Comp SC" ["ardour:Audio 1/sc_in 1"%string])
       (mkChanCount 1 0).
Definition plug_in : IO :=
  mkIO 46 (audio_bundle 47 "Reverb in" ["ardour:Reverb/audio_in 1"%string])
       (mkChanCount 1 0).

Definition track_route : Route :=
  mkRoute 2 false true track_input no_output
    [Some (IOProcessor (Some send_input) None); None; Some PlainProcessor;
     Some (IOProcessor (Some track_input) None)]
    [mkPluginInsert (Some sidechain_input); mkPluginInsert None].

Definition playback_pair : Bundle :=
  audio_bundle 50 "playback" ["system:playback_1"; "system:playback_2"]%string.

Definition studio_session : Session :=
  mkSession [monitor_route; track_route; bus_route]
    [(false, playback_pair)] None None
    (midi_port "LTC-Out") (midi_port "x-virtual-keyboard")
    (midi_port "MMC in") (midi_port "MTC out")
    (midi_port "MIDI Clock out") (midi_port "MMC out")
    [mkIOPlug plug_in no_output true].

(** The local groups at the end of [gather] on the inputs of the
    studio, all types, without duplicates, with the session bundles. *)
Definition studio_groups : PortGroupListM.Locals :=
  state_of (@PortGroupListM.fill_groups lib studio_host studio_session NIL true false true
              (PortGroupListM.mkLocals (@PortGroupListM.new_groups studio_host)
                 (@heap_start studio_host))).

End Concrete.

(* ===================================================================== *)
(** ** Notions of the design document *)
(* ===================================================================== *)

Module Spec.

(** "every channel of A has an identical port list to some channel of
    B", the channels being numbered from 0 to the total count. *)
Definition channels_within (A B : Bundle) : Prop :=
  ∀ k, k < ChanCountOps.n_total (BundleOps.nchannels A) →
    ∃ l, l < ChanCountOps.n_total (BundleOps.nchannels B) ∧
         BundleOps.channel_ports A k = BundleOps.channel_ports B l.

(** "B has strictly more channels than A and every channel of A has an
    identical port list to some channel of B" *)
Definition covers (B A : Bundle) : Prop :=
  ChanCountOps.n_total (BundleOps.nchannels A)
    < ChanCountOps.n_total (BundleOps.nchannels B)
  ∧ channels_within A B.

(** A name "contains" the character [c]. *)
Definition contains (c : ascii) (s : string) : Prop :=
  ∃ i, String.get i s = Some c.

(** "contiguous runs sharing the prefix": the maximal runs of
    neighbours with the same [key], in order. *)
Fixpoint group_runs (key : string → string) (p : list string) : list (list string) :=
  match p with
  | [] => []
  | s :: p' =>
      match group_runs key p' with
      | (t :: run) :: runs =>
          if String.eqb (key s) (key t) then (s :: t :: run) :: runs
          else [s] :: (t :: run) :: runs
      | _ => [[s]]
      end
  end.

(** The session without the routes flagged as monitor. *)
Definition without_monitor (s : Session) : Session :=
  mkSession (List.filter (λ r, negb (is_monitor r)) (get_routes s))
            (session_bundles s) (the_auditioner s) (click_io s)
            (ltc_output_port s) (vkbd_output_port s) (mmc_input_port s)
            (mtc_output_port s) (midi_clock_output_port s) (mmc_output_port s)
            (io_plugs s).

(** The IO [j] is the primary IO of the route [rt] on the side asked
    for, or the IO on that side of one of its processors. *)
Definition io_of_route (inputs : bool) (rt : Route) (j : IO) : Prop :=
  j = (if inputs then input rt else output rt)
  ∨ ∃ i o, Some (IOProcessor i o) ∈ processors rt
           ∧ (if inputs then i else o) = Some j.

(** The record [r] of the group [c] holds the bundle of an IO of one of
    the [routes], which is not a monitor route when the input side was
    asked for, and [c] is the group for the kind of that route. *)
Definition taken_from (inputs : bool) (routes : list Route)
    (c : PortGroupListM.Category) (r : BundleRecord) : Prop :=
  ∃ rt j, rt ∈ routes
          ∧ (inputs = true → is_monitor rt = false)
          ∧ io_of_route inputs rt j
          ∧ io r = Some j
          ∧ bundle r = io_bundle j
          ∧ c = (if is_track rt then PortGroupListM.Track else PortGroupListM.Bus).

(** "some other bundle B in the same group" covers the bundle of [A] *)
Definition covered_in (bs : list BundleRecord) (A : BundleRecord) : Prop :=
  ∃ B, B ∈ bs ∧ B ≠ A ∧ covers (bundle B) (bundle A).

(** The port names of a bundle, channel after channel. *)
Definition bundle_ports (b : Bundle) : list string :=
  concat (map ch_ports (b_channel b)).

(** "no two BundleRecords in the list reference bundles with identical
    port-name sets", as [add_bundle_internal] checks it: no record has
    the same ports as a record before it. *)
Definition no_same_ports `{BundleLib} (bs : list BundleRecord) : Prop :=
  ∀ pre r post, bs = pre ++ r :: post →
    ∀ x, x ∈ pre → has_same_ports (bundle r) (bundle x) = false.

(** Where the records of a [gather] call come from. *)

(** "Busses" and "Tracks": the bundle of an IO of a route that the scan
    did not skip, with a channel of the type asked for, with the IO as
    the owner and the colour of the route's time axis view, in the group
    for the kind of the route. *)
Definition from_route `{Host} (session : Session) (type : DataType) (inputs : bool)
    (c : PortGroupListM.Category) (r : BundleRecord) : Prop :=
  ∃ rt j, rt ∈ get_routes session
          ∧ (inputs = true → is_monitor rt = false)
          ∧ io_of_route inputs rt j
          ∧ (type = NIL ∨ 0 < ChanCountOps.n (BundleOps.nchannels (io_bundle j)) type)
          ∧ c = (if is_track rt then PortGroupListM.Track else PortGroupListM.Bus)
          ∧ r = PortGroupListM.owned j (time_axis_view_colour rt).

(** "Sidechains": the input of the side chain of a plugin of a route
    that is not the monitor, whatever its type. *)
Definition from_sidechain `{Host} (session : Session) (r : BundleRecord) : Prop :=
  ∃ rt p j, rt ∈ get_routes session
            ∧ is_monitor rt = false
            ∧ p ∈ plugins rt
            ∧ sidechain p = Some j
            ∧ r = PortGroupListM.owned j (time_axis_view_colour rt).

(** "I/O Pre" and "I/O Post": the IO, on the side asked for, of an IO
    plugin of the session, which has ports, one of them of the type
    asked for. *)
Definition from_io_plug (session : Session) (type : DataType) (inputs : bool)
    (c : PortGroupListM.Category) (r : BundleRecord) : Prop :=
  ∃ iop j, iop ∈ io_plugs session
           ∧ j = (if inputs then plug_input iop else plug_output iop)
           ∧ ChanCountOps.n_total (io_n_ports j) ≠ 0
           ∧ (type = NIL ∨ 0 < ChanCountOps.n (io_n_ports j) type)
           ∧ c = (if is_pre iop then PortGroupListM.IopPre else PortGroupListM.IopPost)
           ∧ r = PortGroupListM.owned j None.

(** A bundle of the session, of the direction asked for; one that is
    not a user bundle only when session bundles are to be used. *)
Definition from_session (session : Session) (inputs use_session_bundles : bool)
    (b : Bundle) : Prop :=
  ∃ user, (user, b) ∈ session_bundles session
          ∧ ports_are_inputs b = inputs
          ∧ (user = true ∨ use_session_bundles = true).

(** A bundle made from names of the array [k]: it has the direction
    asked for, and each channel has one port, a port of the engine that
    belongs to the array, at the type of the channel. *)
Definition made_of `{Host} (k : PortGroupListM.Bucket) (type : DataType) (inputs : bool)
    (b : Bundle) : Prop :=
  ports_are_inputs b = inputs
  ∧ ∀ ch, ch ∈ b_channel b →
      ∃ s, ch_ports ch = [s]
           ∧ s ∈ sort_naturally (PortGroupListM.engine_ports type inputs)
           ∧ PortGroupListM.extra_port k (ch_type ch) s.

(** The bundles of the program's own group: of the direction asked
    for, but for the bundles of the auditioner and of the click, which
    are taken as they are when audio outputs are asked for. *)
Definition misc `{Host} (session : Session) (type : DataType) (inputs : bool)
    (b : Bundle) : Prop :=
  ports_are_inputs b = inputs
  ∨ (inputs = false
     ∧ (type = AUDIO ∨ type = NIL)
     ∧ ∃ j, (the_auditioner session = Some j ∨ click_io session = Some j)
            ∧ b = io_bundle j).

Definition origin `{Host} (session : Session) (type : DataType)
    (inputs use_session_bundles : bool)
    (c : PortGroupListM.Category) (r : BundleRecord) : Prop :=
  match c with
  | PortGroupListM.Bus | PortGroupListM.Track => from_route session type inputs c r
  | PortGroupListM.Sidechain => inputs = true ∧ from_sidechain session r
  | PortGroupListM.IopPre | PortGroupListM.IopPost => from_io_plug session type inputs c r
  | PortGroupListM.System =>
      ∃ b, r = PortGroupListM.unowned b
           ∧ (from_session session inputs use_session_bundles b
              ∨ made_of PortGroupListM.InSystem type inputs b)
  | PortGroupListM.Program =>
      ∃ b, r = PortGroupListM.unowned b ∧ misc session type inputs b
  | PortGroupListM.Other =>
      ∃ b, r = PortGroupListM.unowned b ∧ made_of PortGroupListM.InOther type inputs b
  end.

(** What a call of [gather] offers to its groups: records of these
    origins, and with [allow_dups] only to "Hardware" and "External". *)
Definition offered `{Host} (session : Session) (type : DataType)
    (inputs allow_dups use_session_bundles : bool)
    (g : PortGroupListM.Category) (r : BundleRecord) (dups : bool) : Prop :=
  origin session type inputs use_session_bundles g r
  ∧ (dups = true →
     allow_dups = true ∧ (g = PortGroupListM.System ∨ g = PortGroupListM.Other)).

(** The subscriptions to [Changed] of the bundle at address [a] that a
    trace opens and closes, and the records of a group that hold the
    bundle at that address. *)
Definition opened (a : nat) (t : list GroupEvent) : nat :=
  length (List.filter (λ e, match e with GConnect b => Nat.eqb a b | _ => false end) t).

Definition closed (a : nat) (t : list GroupEvent) : nat :=
  length (List.filter (λ e, match e with GDisconnect b => Nat.eqb a b | _ => false end) t).

Definition held (a : nat) (bs : list BundleRecord) : nat :=
  length (List.filter (λ r, Nat.eqb a (b_addr (bundle r))) bs).

(** The bundles of the session that [gather] offers to "Hardware", in
    the order in which it offers them: the user bundles of the direction
    asked for, and then, with [use_session_bundles], the others. *)
Definition session_candidates (session : Session) (inputs use_session_bundles : bool)
  : list Bundle :=
  map snd (List.filter (λ i : bool * Bundle,
                          i.1 && Bool.eqb (ports_are_inputs i.2) inputs)
                       (session_bundles session))
  ++ (if use_session_bundles
      then map snd (List.filter (λ i : bool * Bundle,
                                   negb i.1 && Bool.eqb (ports_are_inputs i.2) inputs)
                                (session_bundles session))
      else []).

End Spec.

(* ===================================================================== *)
(** * Properties *)
(* ===================================================================== *)

(** ** Running actions *)

Lemma run_bind {S E A B} (m : Eff S E A) (k : A → Eff S E B) (s : S) :
  bind m k s =
  (value_of (k (value_of (m s)) (state_of (m s))),
   state_of (k (value_of (m s)) (state_of (m s))),
   trace_of (m s) ++ trace_of (k (value_of (m s)) (state_of (m s)))).
Proof.
  unfold bind, value_of, state_of, trace_of.
  destruct (m s) as [[a s1] e1]; simpl.
  destruct (k a s1) as [[b s2] e2]; reflexivity.
Qed.

Lemma state_bind {S E A B} (m : Eff S E A) (k : A → Eff S E B) (s : S) :
  state_of (bind m k s) = state_of (k (value_of (m s)) (state_of (m s))).
Proof. rewrite run_bind. reflexivity. Qed.

Lemma trace_bind {S E A B} (m : Eff S E A) (k : A → Eff S E B) (s : S) :
  trace_of (bind m k s) =
  trace_of (m s) ++ trace_of (k (value_of (m s)) (state_of (m s))).
Proof. rewrite run_bind. reflexivity. Qed.

Lemma run_eta {S E} (r : unit * S * list E) : r = (tt, state_of r, trace_of r).
Proof. destruct r as [[[] s] e]. reflexivity. Qed.

Lemma run_eta_v {S E A} (r : A * S * list E) : (value_of r, state_of r, trace_of r) = r.
Proof. destruct r as [[a s] e]. reflexivity. Qed.

(** The value of an action of type [unit] carries no information. *)
Ltac unit_value :=
  repeat match goal with
         | |- context [value_of ?r] => destruct (value_of r)
         end;
  reflexivity.

Lemma for_each_app {S E A} (xs ys : list A) (body : A → Eff S E unit) (s : S) :
  for_each (xs ++ ys) body s = (for_each xs body ;;; for_each ys body) s.
Proof.
  revert s. induction xs as [|x xs IH]; intros s; simpl.
  - rewrite run_bind. cbn.
    destruct (for_each ys body s) as [[[] s'] e]. reflexivity.
  - rewrite !run_bind. rewrite IH. rewrite !run_bind. cbn.
    rewrite app_assoc. reflexivity.
Qed.

(** ** PortGroup *)

Section PortGroupFacts.
Context `{BundleLib}.
Import PortGroupM.

Lemma find_same_ports_Some (b : Bundle) (bs : list BundleRecord) :
  is_Some (find_same_ports b bs) ↔
  ∃ r, r ∈ bs ∧ has_same_ports b (bundle r) = true.
Proof.
  induction bs as [|r bs IH]; simpl.
  - split; [intros [? ?]; discriminate | intros (r & Hr & _); inversion Hr].
  - destruct (has_same_ports b (bundle r)) eqn:E.
    + split; [|eauto]. intros _. exists r. split; [left|done].
    + rewrite IH. split.
      * intros (x & Hx & Hs). exists x. split; [by right|done].
      * intros (x & Hx & Hs). inversion Hx; subst; [congruence|eauto].
Qed.

(** [add_bundle_internal] either returns early and does nothing at all,
    or appends one record, subscribes once and fires [Changed] once. *)
Lemma add_bundle_internal_cases b io hc c allow_dups g :
  let br := mkBundleRecord b io c hc in
  (allow_dups = false ∧ is_Some (find_same_ports b (_bundles g)) ∧
   add_bundle_internal b io hc c allow_dups g = (tt, g, []))
  ∨
  ((allow_dups = true ∨ find_same_ports b (_bundles g) = None) ∧
   add_bundle_internal b io hc c allow_dups g =
     (tt, mkPortGroup (name g) (_bundles g ++ [br]),
      [GConnect (b_addr b); GChanged])).
Proof.
  intros br. unfold add_bundle_internal.
  rewrite run_bind. cbn.
  destruct allow_dups; cbn.
  - right. split; [by left|reflexivity].
  - case_bool_decide as Hs; cbn.
    + left. done.
    + right. split; [|reflexivity]. right.
      destruct (find_same_ports b (_bundles g)); [|done].
      exfalso. apply Hs. eauto.
Qed.

Lemma split_at_bundle_None b bs :
  split_at_bundle b bs = None ↔
  ∀ r, r ∈ bs → BundleOps.same_object (bundle r) b = false.
Proof.
  induction bs as [|r bs IH]; simpl.
  - split; [intros _ r Hr; inversion Hr|done].
  - destruct (BundleOps.same_object (bundle r) b) eqn:E.
    + split; [done|]. intros Hall. specialize (Hall r (list_elem_of_here _ _)). congruence.
    + destruct (split_at_bundle b bs) as [[[pre x] post]|] eqn:Es.
      * split; [done|]. intros Hall.
        assert (Some (pre, x, post) = None) by
          (apply IH; intros y Hy; apply Hall; by right).
        discriminate.
      * split; [|done]. intros _ y Hy. inversion Hy; subst; [done|].
        by apply IH.
Qed.

Lemma split_at_bundle_Some b bs pre x post :
  split_at_bundle b bs = Some (pre, x, post) →
  bs = pre ++ x :: post ∧
  BundleOps.same_object (bundle x) b = true ∧
  ∀ r, r ∈ pre → BundleOps.same_object (bundle r) b = false.
Proof.
  revert pre. induction bs as [|r bs IH]; intros pre; simpl; [done|].
  destruct (BundleOps.same_object (bundle r) b) eqn:E.
  - intros [= <- <- <-]. repeat split; [done|]. intros y Hy. inversion Hy.
  - destruct (split_at_bundle b bs) as [[[pre' x'] post']|]; [|done].
    intros [= <- <- <-]. destruct (IH pre' eq_refl) as (-> & Hx & Hpre).
    repeat split; [done|]. intros y Hy. inversion Hy; subst; eauto.
Qed.

(** [remove_bundle] either finds no record and does nothing at all, or
    erases the first record that holds the object and fires [Changed]
    once. *)
Lemma remove_bundle_cases b g :
  ((∀ r, r ∈ _bundles g → BundleOps.same_object (bundle r) b = false) ∧
   remove_bundle b g = (tt, g, []))
  ∨
  (∃ pre x post,
     _bundles g = pre ++ x :: post ∧
     BundleOps.same_object (bundle x) b = true ∧
     (∀ r, r ∈ pre → BundleOps.same_object (bundle r) b = false) ∧
     remove_bundle b g =
       (tt, mkPortGroup (name g) (pre ++ post),
        [GDisconnect (b_addr (bundle x)); GChanged])).
Proof.
  unfold remove_bundle. rewrite run_bind. cbn.
  destruct (split_at_bundle b (_bundles g)) as [[[pre x] post]|] eqn:Es.
  - right. exists pre, x, post.
    destruct (split_at_bundle_Some _ _ _ _ _ Es) as (? & ? & ?).
    repeat split; done.
  - left. split; [by apply split_at_bundle_None|reflexivity].
Qed.

Lemma disconnects_not_changed (bs : list BundleRecord) (g : PortGroup) :
  state_of (for_each bs (λ r, fire (GDisconnect (b_addr (bundle r)))) g) = g ∧
  trace_of (for_each bs (λ r, fire (E:=GroupEvent) (GDisconnect (b_addr (bundle r)))) g)
    = map (λ r, GDisconnect (b_addr (bundle r))) bs.
Proof.
  induction bs as [|r bs [IH1 IH2]]; simpl; [done|].
  rewrite state_bind, trace_bind. cbn. split; [done|].
  f_equal. exact IH2.
Qed.

Lemma times_changed_disconnects (bs : list BundleRecord) :
  times_changed (map (λ r, GDisconnect (b_addr (bundle r))) bs) = 0.
Proof. induction bs; simpl; done. Qed.

Lemma times_changed_app t1 t2 :
  times_changed (t1 ++ t2) = times_changed t1 + times_changed t2.
Proof. unfold times_changed. rewrite List.filter_app, length_app. done. Qed.

(** [clear] empties the list, closes every subscription and fires
    [Changed] once. *)
Lemma clear_run g :
  clear g = (tt, mkPortGroup (name g) [],
             map (λ r, GDisconnect (b_addr (bundle r))) (_bundles g) ++ [GChanged]).
Proof.
  unfold clear. rewrite run_bind. cbn.
  rewrite run_bind.
  destruct (disconnects_not_changed (_bundles g) g) as [Hs Ht].
  rewrite Hs, Ht. cbn. reflexivity.
Qed.

(** [remove_duplicates] touches the list only and fires nothing. *)
Lemma remove_duplicates_run g :
  remove_duplicates g =
    (tt, mkPortGroup (name g) (remove_duplicates_from [] (_bundles g)), []).
Proof. reflexivity. Qed.

End PortGroupFacts.

(** *** only_bundle *)

(** C9.  [only_bundle] returns a bundle exactly when the group holds one
    single record, and then it is the bundle of that record; on a group
    with no record or with two or more it fails its assertion and returns
    nothing. *)
Theorem only_bundle_precondition (g : PortGroup) :
  (∀ b, PortGroupM.only_bundle g = Returns b ↔
        ∃ r, _bundles g = [r] ∧ bundle r = b)
  ∧ (PortGroupM.only_bundle g = AssertFail ↔ length (_bundles g) ≠ 1).
Proof.
  unfold PortGroupM.only_bundle.
  destruct (_bundles g) as [|r [|r' bs]]; simpl; split.
  - intros b. split; [done|]. intros (? & ? & _). done.
  - split; [lia|done].
  - intros b. split.
    + intros [= <-]. eauto.
    + intros (x & [= <-] & <-). done.
  - split; [done|lia].
  - intros b. split; [done|]. intros (? & ? & _). done.
  - split; [lia|done].
Qed.

(** *** add_bundle without duplicates *)

(** C2.  With [allow_dups] false, adding a bundle [b] to a group that holds
    a record whose bundle has the same ports as [b] returns at once: the
    group is the same, no subscription is opened and no signal is fired.
    Hence, as soon as [b] has the same ports as itself, adding [b] a second
    time does nothing. *)
Theorem add_bundle_no_dups_noop `{BundleLib}
    (g : PortGroup) (b : Bundle) (io : option IO) (hc : bool) (c : Color) :
  (∀ r, r ∈ _bundles g → has_same_ports b (bundle r) = true →
        PortGroupM.add_bundle_internal b io hc c false g = (tt, g, []))
  ∧ (has_same_ports b b = true →
     ∀ io' hc' c',
       let g1 := state_of (PortGroupM.add_bundle_internal b io hc c false g) in
       PortGroupM.add_bundle_internal b io' hc' c' false g1 = (tt, g1, [])).
Proof.
  assert (Hnoop : ∀ g io hc c r, r ∈ _bundles g → has_same_ports b (bundle r) = true →
            PortGroupM.add_bundle_internal b io hc c false g = (tt, g, [])).
  { clear. intros g io hc c r Hr Hs.
    destruct (add_bundle_internal_cases b io hc c false g) as [(_ & _ & ->)|([?|Hn] & _)];
      [done|done|].
    assert (is_Some (PortGroupM.find_same_ports b (_bundles g))) as [? Hx]
      by (apply find_same_ports_Some; eauto).
    congruence. }
  split; [by apply Hnoop|].
  intros Hrefl io' hc' c' g1. subst g1.
  destruct (add_bundle_internal_cases b io hc c false g) as [(_ & Hs & ->)|(_ & ->)];
    cbn [state_of fst snd].
  - apply find_same_ports_Some in Hs as (r & Hr & Hs). by eapply Hnoop.
  - eapply (Hnoop _ _ _ _ (mkBundleRecord b io c hc)); [|done].
    cbn [_bundles]. apply elem_of_app. right. left.
Qed.

(** A group that holds a stereo bundle; the same two ports in the other
    order are the same port set. *)
Lemma add_bundle_no_dups_noop_witness :
  let g := mkPortGroup "Hardware" [Concrete.record_of Concrete.stereo] in
  let b := Concrete.audio_bundle 7 "swapped" ["system:capture_2"; "system:capture_1"]%string in
  @PortGroupM.add_bundle_internal Concrete.lib b None false Color_default false g
  = (tt, g, []).
Proof.
  intros g b.
  apply (proj1 (@add_bundle_no_dups_noop Concrete.lib g b None false Color_default)
               (Concrete.record_of Concrete.stereo)).
  - left.
  - vm_compute. reflexivity.
Defined.

(** *** Notifications of the mutating operations *)

(** C5, as the code has it.  A call of [add_bundle] that appends a record,
    a call of [remove_bundle] that erases one, and every call of [clear]
    fire [Changed] exactly once; [remove_duplicates] fires no signal at
    all, whatever it erases. *)
Theorem group_mutations_changed `{BundleLib} (g : PortGroup) :
  (∀ b io hc c allow_dups,
     let r := PortGroupM.add_bundle_internal b io hc c allow_dups g in
     _bundles (state_of r) ≠ _bundles g →
     _bundles (state_of r) = _bundles g ++ [mkBundleRecord b io c hc]
     ∧ times_changed (trace_of r) = 1)
  ∧ (∀ b,
     let r := PortGroupM.remove_bundle b g in
     _bundles (state_of r) ≠ _bundles g →
     length (_bundles (state_of r)) + 1 = length (_bundles g)
     ∧ times_changed (trace_of r) = 1)
  ∧ (_bundles (state_of (PortGroupM.clear g)) = []
     ∧ times_changed (trace_of (PortGroupM.clear g)) = 1)
  ∧ trace_of (PortGroupM.remove_duplicates g) = [].
Proof.
  split; [|split; [|split; [split|]]].
  - intros b io' hc c allow_dups r. subst r.
    destruct (add_bundle_internal_cases b io' hc c allow_dups g)
      as [(_ & _ & E)|(_ & E)]; rewrite E; cbn; done.
  - intros b r. subst r.
    destruct (remove_bundle_cases b g)
      as [(_ & E)|(pre & x & post & Hg & _ & _ & E)]; rewrite E; cbn; [done|].
    intros _. rewrite Hg, !length_app. simpl. split; [lia|done].
  - rewrite clear_run. reflexivity.
  - rewrite clear_run. cbn [trace_of snd].
    rewrite times_changed_app, times_changed_disconnects. reflexivity.
  - reflexivity.
Qed.

(** A mono bundle whose only channel is the first channel of a stereo
    bundle of the same group: [remove_duplicates] erases the record of the
    mono bundle and the group fires nothing. *)
Lemma remove_duplicates_is_silent :
  let g := mkPortGroup "Hardware"
             [Concrete.record_of Concrete.mono; Concrete.record_of Concrete.stereo] in
  let r := @PortGroupM.remove_duplicates Concrete.lib g in
  _bundles (state_of r) = [Concrete.record_of Concrete.stereo]
  ∧ times_changed (trace_of r) ≠ 1.
Proof. vm_compute. split; [reflexivity|discriminate]. Qed.

(** The same group, seen from the theorem: the record is appended with one
    [Changed]. *)
Lemma group_mutations_changed_witness :
  let g := mkPortGroup "Hardware" [Concrete.record_of Concrete.mono] in
  let r := @PortGroupM.add_bundle_internal Concrete.lib Concrete.stereo None false
             Color_default false g in
  _bundles (state_of r) = _bundles g ++ [Concrete.record_of Concrete.stereo]
  ∧ times_changed (trace_of r) = 1.
Proof.
  intros g r.
  apply (proj1 (@group_mutations_changed Concrete.lib g)
               Concrete.stereo None false Color_default false).
  vm_compute. discriminate.
Defined.

(** *** remove_duplicates *)

Section RemoveDuplicates.
Context `{BundleLib}.
Import PortGroupM.

(** A comparison of channel counts that holds only when the left count
    is the larger in total. *)
Hypothesis chancount_gt_total :
  ∀ a b, chancount_gt a b = true → ChanCountOps.n_total b < ChanCountOps.n_total a.

Lemma scan_l_spec fuel l pk bj :
  l ≤ scan_l fuel l pk bj ≤ l + fuel
  ∧ (scan_l fuel l pk bj < l + fuel →
     pk = BundleOps.channel_ports bj (scan_l fuel l pk bj)).
Proof.
  revert l. induction fuel as [|fuel IH]; intros l; simpl.
  - split; lia.
  - case_bool_decide as Hne.
    + destruct (IH (S l)) as [Hr Hp]. split; [lia|].
      intros Hlt. apply Hp. lia.
    + split; [lia|]. intros _. by destruct (decide (pk = BundleOps.channel_ports bj l)).
Qed.

Lemma scan_k_spec fuel k bi bj :
  scan_k fuel k bi bj ≤ k + fuel
  ∧ (scan_k fuel k bi bj = k + fuel →
     ∀ k', k ≤ k' < k + fuel →
       ∃ l, l < ChanCountOps.n_total (BundleOps.nchannels bj) ∧
            BundleOps.channel_ports bi k' = BundleOps.channel_ports bj l).
Proof.
  revert k. induction fuel as [|fuel IH]; intros k; simpl.
  - split; [lia|]. intros _ k' ?. lia.
  - set (nj := ChanCountOps.n_total (BundleOps.nchannels bj)).
    set (l := scan_l nj 0 (BundleOps.channel_ports bi k) bj).
    destruct (scan_l_spec nj 0 (BundleOps.channel_ports bi k) bj) as [Hr Hp].
    fold l in Hr, Hp.
    destruct (Nat.eqb_spec l nj) as [El|Nl].
    + split; [lia|]. intros ?. lia.
    + destruct (IH (S k)) as [Hle Hall]. split; [lia|].
      intros Heq k' Hk'.
      destruct (decide (k' = k)) as [->|Hne].
      * exists l. split; [lia|]. apply Hp. lia.
      * apply Hall; lia.
Qed.

(** What the body of the loop over [j] finds is a covering bundle. *)
Lemma represented_by_covers bi bj :
  represented_by bi bj = true → Spec.covers bj bi.
Proof.
  unfold represented_by.
  destruct (chancount_gt (BundleOps.nchannels bj) (BundleOps.nchannels bi)) eqn:Hgt;
    [|done].
  intros Hk%Nat.eqb_eq. split; [by apply chancount_gt_total|].
  intros k Hk'.
  destruct (scan_k_spec (ChanCountOps.n_total (BundleOps.nchannels bi)) 0 bi bj)
    as [_ Hall].
  apply Hall; [done|lia].
Qed.

Lemma covers_irrefl b : ¬ Spec.covers b b.
Proof. intros [? _]. lia. Qed.

Lemma to_remove_covered i current all :
  (∀ x, x ∈ current → x ∈ all) →
  to_remove i current = true → Spec.covered_in all i.
Proof.
  intros Hsub Hrm. unfold to_remove in Hrm.
  apply existsb_exists in Hrm as (j & Hj%list_elem_of_In & Hrep).
  apply represented_by_covers in Hrep.
  exists j. split; [by apply Hsub|]. split; [|done].
  intros ->. by eapply covers_irrefl.
Qed.

(** The loop over [i]: the records kept so far stay and what follows is
    thinned out; a record that is dropped has a cover among [all], and
    a record that no member of [all] covers is kept. *)
Lemma remove_duplicates_from_spec all (P : BundleRecord → Prop)
    `{∀ x, Decision (P x)} rest :
  (∀ x, P x → ¬ Spec.covered_in all x) →
  ∀ done, (∀ x, x ∈ done ++ rest → x ∈ all) →
  ∃ kept, remove_duplicates_from done rest = done ++ kept
          ∧ sublist kept rest
          ∧ (∀ A, A ∈ rest → A ∉ kept → Spec.covered_in all A)
          ∧ sublist (filter P rest) kept.
Proof.
  intros HP. induction rest as [|i tmp IH]; intros done Hall; simpl.
  - exists []. rewrite app_nil_r. repeat split; try constructor.
    intros A HA. inversion HA.
  - destruct (to_remove i (done ++ i :: tmp)) eqn:Hrm.
    + destruct (IH done) as (kept & -> & Hk & Hc & Hf).
      { intros x Hx. apply Hall. rewrite elem_of_app in Hx |- *.
        destruct Hx; [by left|right; by right]. }
      assert (Spec.covered_in all i) by (by eapply to_remove_covered).
      exists kept. repeat split; [by apply sublist_cons| |].
      * intros A [->|HA]%elem_of_cons Hout; [done|by apply Hc].
      * rewrite filter_cons_False; [done|].
        intros HPi. by apply (HP _ HPi).
    + destruct (IH (done ++ [i])) as (kept & -> & Hk & Hc & Hf).
      { intros x Hx. apply Hall. by rewrite <- app_assoc in Hx. }
      exists (i :: kept). rewrite <- app_assoc.
      repeat split; [by apply sublist_skip| |].
      * intros A [->|HA]%elem_of_cons Hout.
        -- exfalso. apply Hout. left.
        -- apply Hc; [done|]. intros ?. apply Hout. by right.
      * rewrite filter_cons. case_decide; [by apply sublist_skip|by apply sublist_cons].
Qed.

End RemoveDuplicates.

(** C1.  [remove_duplicates] only takes records out of the list of the
    group, leaving the others in their order; a record that it takes out
    has another record in the same group whose bundle has strictly more
    channels and, for every channel of the removed bundle, a channel with
    the identical port list; and the records without such a covering
    larger bundle are all left in place. *)
Theorem remove_duplicates_only_covered `{BundleLib}
    (chancount_gt_total :
       ∀ a b, chancount_gt a b = true → ChanCountOps.n_total b < ChanCountOps.n_total a)
    (g : PortGroup) (P : BundleRecord → Prop) `{∀ x, Decision (P x)} :
  let g' := state_of (PortGroupM.remove_duplicates g) in
  sublist (_bundles g') (_bundles g)
  ∧ (∀ A, A ∈ _bundles g → A ∉ _bundles g' → Spec.covered_in (_bundles g) A)
  ∧ ((∀ A, P A → ¬ Spec.covered_in (_bundles g) A) →
     sublist (filter P (_bundles g)) (_bundles g')).
Proof.
  intros g'. subst g'. rewrite remove_duplicates_run.
  cbn [state_of fst snd _bundles].
  assert (Hgen : ∀ (Q : BundleRecord → Prop) (HQ : ∀ x, Decision (Q x)),
            (∀ A, Q A → ¬ Spec.covered_in (_bundles g) A) →
            sublist (PortGroupM.remove_duplicates_from [] (_bundles g)) (_bundles g)
            ∧ (∀ A, A ∈ _bundles g →
                    A ∉ PortGroupM.remove_duplicates_from [] (_bundles g) →
                    Spec.covered_in (_bundles g) A)
            ∧ sublist (filter Q (_bundles g))
                      (PortGroupM.remove_duplicates_from [] (_bundles g))).
  { intros Q HQ HQc.
    destruct (remove_duplicates_from_spec chancount_gt_total (_bundles g)
                Q (_bundles g) HQc []) as (kept & -> & Hk & Hc & Hf); done. }
  destruct (Hgen (λ _, False) _ (λ _ F, False_ind _ F)) as (Hsub & Hcov & _).
  split; [done|]. split; [done|].
  intros HP. by apply (Hgen P _ HP).
Qed.

(** For the per-type comparison of channel counts, on a group with a mono
    bundle that is the first channel of a stereo bundle and one unrelated
    mono bundle. *)
Lemma chancount_gt_per_type_total (a b : ChanCount) :
  Concrete.chancount_gt_per_type a b = true →
  ChanCountOps.n_total b < ChanCountOps.n_total a.
Proof.
  unfold Concrete.chancount_gt_per_type, ChanCountOps.n_total.
  destruct a as [aa am], b as [ba bm]; simpl.
  intros [[Ha%Nat.leb_le Hm%Nat.leb_le]%andb_prop Hne%negb_true_iff]%andb_prop.
  apply bool_decide_eq_false in Hne.
  destruct (decide (aa = ba)); destruct (decide (am = bm)); subst; try lia.
  done.
Qed.

Lemma remove_duplicates_only_covered_witness :
  let g := mkPortGroup "Hardware"
             [Concrete.record_of Concrete.mono; Concrete.record_of Concrete.stereo;
              Concrete.record_of Concrete.other_mono] in
  let g' := state_of (@PortGroupM.remove_duplicates Concrete.lib g) in
  (_bundles g' = [Concrete.record_of Concrete.stereo; Concrete.record_of Concrete.other_mono])
  ∧ sublist (_bundles g') (_bundles g)
  ∧ (∀ A, A ∈ _bundles g → A ∉ _bundles g' → Spec.covered_in (_bundles g) A).
Proof.
  intros g g'. split; [vm_compute; reflexivity|].
  destruct (@remove_duplicates_only_covered Concrete.lib chancount_gt_per_type_total
              g (λ _, False) _) as (Hsub & Hcov & _).
  split; [exact Hsub|exact Hcov].
Defined.

(** ** PortGroupList: signals *)

Section SignalFacts.
Context `{BundleLib}.
Import PortGroupListM.

Lemma emit_changed_run l :
  emit_changed l =
    if _signals_suspended l
    then (tt, mkPortGroupList (_groups l) (_signals_suspended l) true
                (_pending_bundle_change l), [])
    else (tt, l, [Changed]).
Proof. destruct l as [gs [] pc pb]; reflexivity. Qed.

Lemma emit_bundle_changed_run c l :
  emit_bundle_changed c l =
    if _signals_suspended l
    then (tt, mkPortGroupList (_groups l) (_signals_suspended l)
                (_pending_change l) c, [])
    else (tt, l, [BundleChanged c]).
Proof. destruct l as [gs [] pc pb]; reflexivity. Qed.

(** [resume_signals] in one step. *)
Lemma resume_signals_run l :
  resume_signals l =
    (tt, mkPortGroupList (_groups l) false false 0%Z,
     (if _pending_change l then [Changed] else [])
     ++ (if bool_decide (_pending_bundle_change l ≠ 0%Z)
         then [BundleChanged (_pending_bundle_change l)] else [])).
Proof.
  unfold resume_signals. destruct l as [gs su pc pb].
  rewrite !run_bind. cbn.
  destruct pc; cbn; case_bool_decide as Hpb; cbn; rewrite ?app_nil_r;
    try reflexivity.
  - by subst pb.
  - by subst pb.
Qed.

(** Notifications asked of a suspended list only change the two pending
    fields: the flag is set by the first [Changed] and stays, the
    payload is overwritten by each [BundleChanged]. *)
Lemma notify_suspended ns : ∀ l,
  _signals_suspended l = true →
  for_each ns notify l =
    (tt, mkPortGroupList (_groups l) true
           (_pending_change l || asks_changed ns)
           (last_payload ns (_pending_bundle_change l)), []).
Proof.
  induction ns as [|n ns IH]; intros [gs su pc pb] Hs; simpl in Hs; subst su.
  - cbn. by rewrite orb_false_r.
  - simpl for_each. rewrite run_bind.
    destruct n as [|c]; simpl notify.
    + rewrite emit_changed_run. cbn [_signals_suspended state_of trace_of value_of fst snd].
      rewrite IH by done. cbn. by rewrite orb_true_r.
    + rewrite emit_bundle_changed_run.
      cbn [_signals_suspended state_of trace_of value_of fst snd].
      rewrite IH by done. cbn. reflexivity.
Qed.

End SignalFacts.

Section ListFacts.
Context `{BundleLib}.
Import PortGroupListM.

Lemma notify_run ns l : for_each ns notify l = notified ns l.
Proof.
  unfold notified. destruct (_signals_suspended l) eqn:Hs.
  - by apply notify_suspended.
  - revert l Hs. induction ns as [|n ns IH]; intros l Hs; [done|].
    simpl for_each. rewrite run_bind.
    assert (notify n l = (tt, l, [n])) as ->.
    { destruct n; simpl; [rewrite emit_changed_run|rewrite emit_bundle_changed_run];
        by rewrite Hs. }
    cbn [state_of trace_of value_of fst snd]. rewrite IH by done. reflexivity.
Qed.

Lemma emit_changed_notified l : emit_changed l = notified [Changed] l.
Proof. destruct l as [gs [] pc pb]; cbn; [|done]. by rewrite orb_true_r. Qed.

Lemma notified_nil l : notified [] l = (tt, l, []).
Proof.
  unfold notified. destruct l as [gs [] pc pb]; cbn; [|done].
  by rewrite orb_false_r.
Qed.

Lemma asks_changed_app a b : asks_changed (a ++ b) = asks_changed a || asks_changed b.
Proof. unfold asks_changed. apply existsb_app. Qed.

Lemma last_payload_app a b d : last_payload (a ++ b) d = last_payload b (last_payload a d).
Proof. unfold last_payload. apply fold_left_app. Qed.

(** Notifications do not look at the members, and compose. *)
Lemma notified_then a b gs1 gs2 l :
  state_of (notified b (with_groups gs2 (state_of (notified a (with_groups gs1 l)))))
    = state_of (notified (a ++ b) (with_groups gs2 l))
  ∧ trace_of (notified a (with_groups gs1 l))
    ++ trace_of (notified b (with_groups gs2 (state_of (notified a (with_groups gs1 l)))))
    = trace_of (notified (a ++ b) (with_groups gs2 l)).
Proof.
  unfold notified, with_groups. destruct l as [gs [] pc pb]; cbn.
  - rewrite asks_changed_app, last_payload_app, orb_assoc. done.
  - done.
Qed.

Lemma slots_run evs l : for_each evs slot l = notified (forwarded evs) l.
Proof.
  rewrite <- notify_run. revert l.
  induction evs as [|e evs IH]; intros l; [done|].
  simpl for_each. rewrite run_bind, IH.
  destruct e; cbn [forwarded omap slot notify]; simpl for_each.
  - rewrite (run_bind emit_changed). reflexivity.
  - rewrite (run_bind (emit_bundle_changed c)). reflexivity.
  - cbn. destruct (for_each (forwarded evs) notify l) as [[[] ?] ?]. reflexivity.
  - cbn. destruct (for_each (forwarded evs) notify l) as [[[] ?] ?]. reflexivity.
Qed.

Lemma with_groups_same l : with_groups (_groups l) l = l.
Proof. by destruct l. Qed.

Lemma groups_notified ns l : _groups (state_of (notified ns l)) = _groups l.
Proof. unfold notified. by destruct (_signals_suspended l). Qed.

Lemma on_group_run i op l g :
  _groups l !! i = Some g →
  on_group i op l =
    notified (forwarded (trace_of (op g)))
             (with_groups (<[i := state_of (op g)]> (_groups l)) l).
Proof.
  intros Hg. unfold on_group. rewrite run_bind. cbn [get value_of state_of fst snd].
  rewrite Hg. rewrite run_bind. cbn [set_groups get value_of state_of trace_of fst snd app].
  rewrite slots_run. apply run_eta_v.
Qed.

Lemma clear_list_run l : clear l = notified [Changed] (with_groups [] l).
Proof.
  unfold clear. rewrite run_bind. cbn [set_groups value_of state_of trace_of fst snd app].
  rewrite emit_changed_notified. apply run_eta_v.
Qed.

Lemma add_group_run g l :
  add_group g l = notified [Changed] (with_groups (_groups l ++ [g]) l).
Proof.
  unfold add_group. rewrite run_bind. cbn [get value_of state_of trace_of fst snd app].
  rewrite run_bind. cbn [set_groups value_of state_of trace_of fst snd app].
  rewrite emit_changed_notified. apply run_eta_v.
Qed.

Lemma add_group_if_not_empty_run g l :
  add_group_if_not_empty g l =
    notified (map (λ _, Changed) (if_not_empty g))
             (with_groups (_groups l ++ if_not_empty g) l).
Proof.
  unfold add_group_if_not_empty, if_not_empty. simpl.
  destruct (_bundles g) eqn:E; cbn.
  - rewrite app_nil_r, with_groups_same, notified_nil. reflexivity.
  - apply add_group_run.
Qed.

End ListFacts.

Section ListLoops.
Context `{BundleLib}.
Import PortGroupListM.

Lemma notified_eq a b gs1 gs2 l :
  (value_of (notified b (with_groups gs2 (state_of (notified a (with_groups gs1 l))))),
   state_of (notified b (with_groups gs2 (state_of (notified a (with_groups gs1 l))))),
   trace_of (notified a (with_groups gs1 l))
   ++ trace_of (notified b (with_groups gs2 (state_of (notified a (with_groups gs1 l))))))
  = notified (a ++ b) (with_groups gs2 l).
Proof.
  destruct (notified_then a b gs1 gs2 l) as [-> ->].
  rewrite (run_eta (notified (a ++ b) (with_groups gs2 l))) at 3. unit_value.
Qed.

(** A method called on every member from position [k] on, as the loop
    of [remove_bundle] does. *)
Lemma on_groups_run (op : PG unit) n : ∀ k l,
  length (_groups l) = k + n →
  for_each (seq k n) (λ i, on_group i op) l =
    notified (concat (map (λ g, forwarded (trace_of (op g))) (drop k (_groups l))))
             (with_groups (take k (_groups l)
                           ++ map (λ g, state_of (op g)) (drop k (_groups l))) l).
Proof.
  induction n as [|n IH]; intros k l Hlen.
  - simpl. rewrite drop_ge, take_ge by lia. simpl.
    rewrite app_nil_r, with_groups_same, notified_nil. reflexivity.
  - simpl seq. simpl for_each. rewrite run_bind.
    destruct (lookup_lt_is_Some_2 (_groups l) k) as [g Hg]; [lia|].
    rewrite (on_group_run _ _ _ _ Hg).
    set (gs1 := <[k := state_of (op g)]> (_groups l)).
    set (l1 := state_of (notified (forwarded (trace_of (op g))) (with_groups gs1 l))).
    assert (Hg1 : _groups l1 = gs1) by (unfold l1; by rewrite groups_notified).
    rewrite IH by (rewrite Hg1; unfold gs1; rewrite length_insert; lia).
    rewrite Hg1.
    assert (take (S k) gs1 = take k (_groups l) ++ [state_of (op g)]) as ->.
    { unfold gs1. erewrite take_S_r; [|apply list_lookup_insert_eq; lia].
      by rewrite take_insert_ge by lia. }
    assert (drop (S k) gs1 = drop (S k) (_groups l)) as ->.
    { unfold gs1. by rewrite drop_insert_lt by lia. }
    rewrite (drop_S _ _ _ Hg). simpl map. simpl concat.
    rewrite <- app_assoc. simpl app.
    unfold l1. apply notified_eq.
Qed.

(** [PortGroupList::remove_bundle] in one step. *)
Lemma remove_bundle_list_run b l :
  remove_bundle b l =
    notified (concat (map (λ g, forwarded (trace_of (PortGroupM.remove_bundle b g)))
                          (_groups l)) ++ [Changed])
             (with_groups (map (λ g, state_of (PortGroupM.remove_bundle b g)) (_groups l)) l).
Proof.
  unfold remove_bundle. rewrite run_bind. cbn [get value_of state_of trace_of fst snd app].
  rewrite run_bind. rewrite on_groups_run by done.
  rewrite drop_0, take_0. simpl app.
  set (gs2 := map (λ g, state_of (PortGroupM.remove_bundle b g)) (_groups l)).
  set (ns := concat (map (λ g, forwarded (trace_of (PortGroupM.remove_bundle b g))) (_groups l))).
  rewrite <- (notified_eq ns [Changed] gs2 gs2 l).
  set (l1 := state_of (notified ns (with_groups gs2 l))).
  assert (with_groups gs2 l1 = l1) as ->.
  { rewrite <- (with_groups_same l1) at 2. f_equal. unfold l1.
    by rewrite groups_notified. }
  rewrite emit_changed_notified. reflexivity.
Qed.

End ListLoops.

Section GatherPublishes.
Context `{BundleLib} `{Host}.
Import PortGroupListM.

(** Two actions in a row, each a change of members followed by
    notifications. *)
Lemma seq_notified (m k : PGL unit) l a gs1 b gs2 :
  m l = notified a (with_groups gs1 l) →
  (∀ l', _groups l' = gs1 → k l' = notified b (with_groups gs2 l')) →
  (m ;;; k) l = notified (a ++ b) (with_groups gs2 l).
Proof.
  intros Hm Hk. rewrite run_bind, Hm.
  rewrite Hk by apply groups_notified.
  apply notified_eq.
Qed.

Lemma filter_one_more {A} (f : A → bool) (x : A) (xs : list A) :
  List.filter f (x :: xs) = List.filter f [x] ++ List.filter f xs.
Proof. simpl. by destruct (f x). Qed.

Lemma gather_None_run type inputs allow_dups use_session_bundles l :
  gather None type inputs allow_dups use_session_bundles l =
    notified [Changed] (with_groups [] l).
Proof.
  unfold gather. rewrite <- (app_nil_r [Changed]).
  eapply seq_notified; [apply clear_list_run|].
  intros l' Hl'. rewrite <- Hl', with_groups_same. by rewrite notified_nil.
Qed.

(** [gather] on a session: the members are the groups that the call has
    filled, and [emit_changed] runs for the initial [clear], for each
    group added, and at the end. *)
Lemma gather_Some_run session type inputs allow_dups use_session_bundles l :
  let L := state_of (fill_groups session type inputs allow_dups use_session_bundles
                       (mkLocals new_groups heap_start)) in
  gather (Some session) type inputs allow_dups use_session_bundles l =
    notified (Changed :: map (λ _, Changed) (published L) ++ [Changed])
             (with_groups (published L) l).
Proof.
  intros L. unfold gather. fold L.
  change (Changed :: map (λ _, Changed) (published L) ++ [Changed])
    with ([Changed] ++ (map (λ _, Changed) (published L) ++ [Changed])).
  eapply seq_notified; [apply clear_list_run|].
  intros l0 Hl0.
  unfold published.
  repeat (rewrite (filter_one_more _ (group L _) (_ :: _))).
  fold (if_not_empty (group L Bus)) (if_not_empty (group L Track))
       (if_not_empty (group L Sidechain)) (if_not_empty (group L IopPre))
       (if_not_empty (group L IopPost)) (if_not_empty (group L Program))
       (if_not_empty (group L Other)) (if_not_empty (group L System)).
  rewrite !map_app, <- !app_assoc.
  eapply seq_notified.
  { rewrite add_group_if_not_empty_run, Hl0. simpl app. reflexivity. }
  intros l1 Hl1. eapply seq_notified.
  { rewrite add_group_if_not_empty_run, Hl1. reflexivity. }
  intros l2 Hl2. eapply seq_notified.
  { rewrite add_group_if_not_empty_run, Hl2, <- app_assoc. reflexivity. }
  intros l3 Hl3. eapply seq_notified.
  { rewrite add_group_if_not_empty_run, Hl3, <- !app_assoc. reflexivity. }
  intros l4 Hl4. eapply seq_notified.
  { rewrite add_group_if_not_empty_run, Hl4, <- !app_assoc. reflexivity. }
  intros l5 Hl5. eapply seq_notified.
  { rewrite add_group_if_not_empty_run, Hl5, <- !app_assoc. reflexivity. }
  intros l6 Hl6. eapply seq_notified.
  { rewrite add_group_if_not_empty_run, Hl6, <- !app_assoc. reflexivity. }
  intros l7 Hl7. eapply seq_notified.
  { rewrite add_group_if_not_empty_run, Hl7, <- !app_assoc. reflexivity. }
  intros l8 Hl8. rewrite emit_changed_notified.
  by rewrite <- Hl8, with_groups_same.
Qed.

End GatherPublishes.

Section ListClaims.
Context `{BundleLib} `{Host}.
Import PortGroupListM.

Lemma map_const_replicate {A B} (x : B) (l : list A) :
  map (λ _, x) l = replicate (length l) x.
Proof. induction l; simpl; congruence. Qed.

Lemma replicate_snoc {A} (n : nat) (x : A) : replicate n x ++ [x] = replicate (S n) x.
Proof. induction n as [|n IH]; [done|]. simpl in *. by rewrite IH. Qed.

Lemma holds_false b g :
  holds b g = false ↔ ∀ x, x ∈ _bundles g → BundleOps.same_object (bundle x) b = false.
Proof.
  unfold holds. rewrite <- not_true_iff_false, existsb_exists. split.
  - intros Hn x Hx. apply not_true_iff_false. intros Hs. apply Hn.
    exists x. split; [by apply list_elem_of_In|done].
  - intros Hall (x & Hx%list_elem_of_In & Hs). rewrite Hall in Hs; done.
Qed.

(** A group from which [remove_bundle] takes nothing stays as it is and
    is silent; a group that holds the object loses one record and asks
    for one [Changed]. *)
Lemma remove_bundle_by_holds b g :
  (holds b g = false ∧ PortGroupM.remove_bundle b g = (tt, g, []))
  ∨ (holds b g = true
     ∧ length (_bundles (state_of (PortGroupM.remove_bundle b g))) + 1 = length (_bundles g)
     ∧ times_changed (trace_of (PortGroupM.remove_bundle b g)) = 1
     ∧ forwarded (trace_of (PortGroupM.remove_bundle b g)) = [Changed]).
Proof.
  destruct (remove_bundle_cases b g)
    as [(Hn & E)|(pre & x & post & Hg & Hx & _ & E)].
  - left. split; [by apply holds_false|done].
  - right. rewrite E. cbn. split; [|split; [|done]].
    + unfold holds. apply existsb_exists. exists x. split; [|done].
      apply list_elem_of_In. rewrite Hg. apply elem_of_app. right. left.
    + rewrite Hg, !length_app. simpl. lia.
Qed.

Lemma forwarded_remove_bundles b gs :
  concat (map (λ g, forwarded (trace_of (PortGroupM.remove_bundle b g))) gs)
    = replicate (length (List.filter (holds b) gs)) Changed.
Proof.
  induction gs as [|g gs IH]; [done|]. simpl. rewrite IH.
  destruct (remove_bundle_by_holds b g) as [(-> & ->)|(-> & _ & _ & ->)]; done.
Qed.

(** Every mutating method of the list is a change of members followed
    by one or more calls of [emit_changed]. *)
Lemma mutate_run m l :
  ∃ gs k, mutate m l = notified (replicate (S k) Changed) (with_groups gs l).
Proof.
  destruct m as [|g|b|[session|] type inputs allow_dups use_session_bundles]; simpl.
  - exists [], 0. apply clear_list_run.
  - exists (_groups l ++ [g]), 0. apply add_group_run.
  - eexists _, _. rewrite remove_bundle_list_run, forwarded_remove_bundles.
    rewrite replicate_snoc. reflexivity.
  - eexists _, _. rewrite gather_Some_run. cbv zeta.
    rewrite map_const_replicate, replicate_snoc. reflexivity.
  - exists [], 0. apply gather_None_run.
Qed.

Lemma asks_changed_replicate k : asks_changed (replicate (S k) Changed) = true.
Proof. reflexivity. Qed.

Lemma last_payload_replicate k d : last_payload (replicate k Changed) d = d.
Proof. induction k; simpl; done. Qed.

(** Mutations of a suspended list fire nothing; they leave it suspended
    with the flag set and the payload as it was. *)
Lemma mutate_suspended m l :
  _signals_suspended l = true →
  ∃ gs, mutate m l = (tt, mkPortGroupList gs true true (_pending_bundle_change l), []).
Proof.
  intros Hs. destruct (mutate_run m l) as (gs & k & E). exists gs.
  rewrite E. unfold notified. cbn [with_groups _signals_suspended]. rewrite Hs.
  cbn [_pending_bundle_change _groups _pending_change].
  by rewrite asks_changed_replicate, orb_true_r, last_payload_replicate.
Qed.

(** Mutations of a suspended list fire nothing; they leave it suspended
    with the flag set and the payload as it was. *)
Lemma mutations_suspended ms : ∀ m l,
  _signals_suspended l = true →
  ∃ gs, for_each (m :: ms) mutate l =
          (tt, mkPortGroupList gs true true (_pending_bundle_change l), []).
Proof.
  induction ms as [|m' ms IH]; intros m l Hs.
  - destruct (mutate_suspended m l Hs) as (gs & E). exists gs.
    simpl for_each. rewrite run_bind, E. reflexivity.
  - destruct (mutate_suspended m l Hs) as (gs & E).
    change (for_each (m :: m' :: ms) mutate) with (mutate m ;;; for_each (m' :: ms) mutate).
    rewrite run_bind, E. cbn [state_of trace_of value_of fst snd].
    edestruct (IH m') as (gs' & ->); [reflexivity|].
    exists gs'. reflexivity.
Qed.

End ListClaims.

(** *** Suspension *)

(** C3.  On a suspended list: notifications fire nothing, the pending
    flag is set by the first request for [Changed] and stays set, and each
    request for [BundleChanged] overwrites the pending payload, so that
    only the latest one is kept; the mutating methods of the list and the
    signals forwarded from a member group fire nothing either.
    [resume_signals] then fires [Changed] once if the flag is set, after
    that [BundleChanged] once, with the pending payload, if that is not 0,
    and leaves the list with both cleared and not suspended.  Hence
    [suspend_signals], three mutations and [resume_signals] fire [Changed]
    exactly once. *)
Theorem suspended_signals_coalesce `{BundleLib} `{Host} (l : PortGroupList) :
  (∀ ns, _signals_suspended l = true →
     for_each ns PortGroupListM.notify l =
       (tt, mkPortGroupList (_groups l) true
              (_pending_change l || PortGroupListM.asks_changed ns)
              (PortGroupListM.last_payload ns (_pending_bundle_change l)), []))
  ∧ (∀ m ms, _signals_suspended l = true →
     let r := for_each (m :: ms) PortGroupListM.mutate l in
     trace_of r = []
     ∧ _signals_suspended (state_of r) = true
     ∧ _pending_change (state_of r) = true
     ∧ _pending_bundle_change (state_of r) = _pending_bundle_change l)
  ∧ (∀ i op, _signals_suspended l = true →
     let r := PortGroupListM.on_group i op l in
     trace_of r = [] ∧ _signals_suspended (state_of r) = true)
  ∧ PortGroupListM.resume_signals l =
      (tt, mkPortGroupList (_groups l) false false 0%Z,
       (if _pending_change l then [Changed] else [])
       ++ (if bool_decide (_pending_bundle_change l ≠ 0%Z)
           then [BundleChanged (_pending_bundle_change l)] else []))
  ∧ (∀ m1 m2 m3,
     let r := (PortGroupListM.suspend_signals ;;;
               PortGroupListM.mutate m1 ;;;
               PortGroupListM.mutate m2 ;;;
               PortGroupListM.mutate m3 ;;;
               PortGroupListM.resume_signals) l in
     trace_of r =
       Changed :: (if bool_decide (_pending_bundle_change l ≠ 0%Z)
                   then [BundleChanged (_pending_bundle_change l)] else [])
     ∧ List.filter (λ s, bool_decide (s = Changed)) (trace_of r) = [Changed]).
Proof.
  split; [intros ns Hs; by apply notify_suspended|].
  split.
  { intros m ms Hs r. subst r.
    destruct (mutations_suspended ms m l Hs) as (gs & ->). done. }
  split.
  { intros i op Hs r. subst r. unfold PortGroupListM.on_group.
    rewrite run_bind. cbn [get value_of state_of trace_of fst snd app].
    destruct (_groups l !! i) as [g|] eqn:Hg; [|done].
    rewrite run_bind. cbn [PortGroupListM.set_groups value_of state_of trace_of fst snd app].
    rewrite slots_run. unfold PortGroupListM.notified.
    cbn [PortGroupListM.with_groups _signals_suspended]. rewrite Hs. done. }
  split; [apply resume_signals_run|].
  intros m1 m2 m3 r.
  assert (Hr : trace_of r =
            Changed :: (if bool_decide (_pending_bundle_change l ≠ 0%Z)
                        then [BundleChanged (_pending_bundle_change l)] else [])).
  { subst r. rewrite run_bind.
    cbn [PortGroupListM.suspend_signals PortGroupListM.set_signals_suspended
         value_of state_of trace_of fst snd app].
    set (l0 := mkPortGroupList (_groups l) true (_pending_change l) (_pending_bundle_change l)).
    destruct (mutate_suspended m1 l0 eq_refl) as (gs1 & E1).
    rewrite run_bind, E1. cbn [value_of state_of trace_of fst snd app].
    edestruct (mutate_suspended m2) as (gs2 & E2); [|rewrite run_bind, E2]; [done|].
    cbn [value_of state_of trace_of fst snd app].
    edestruct (mutate_suspended m3) as (gs3 & E3); [|rewrite run_bind, E3]; [done|].
    cbn [value_of state_of trace_of fst snd app].
    rewrite resume_signals_run. reflexivity. }
  split; [exact Hr|]. rewrite Hr. simpl.
  by case_bool_decide.
Qed.

(** On a new list, suspended: four notifications with the payloads 1 and
    then 4 leave the flag set and the payload 4. *)
Lemma suspended_signals_coalesce_witness :
  let l := state_of (PortGroupListM.suspend_signals PortGroupListM.new) in
  for_each [Changed; BundleChanged 1%Z; BundleChanged 4%Z; Changed] PortGroupListM.notify l
  = (tt, mkPortGroupList [] true true 4%Z, []).
Proof.
  intros l.
  apply (proj1 (@suspended_signals_coalesce Concrete.lib Concrete.bare_host l)
               [Changed; BundleChanged 1%Z; BundleChanged 4%Z; Changed]).
  reflexivity.
Defined.

(** *** gather on a null session *)

(** C6.  [gather] with a null session is the initial [clear] and nothing
    else: it returns, the list has no group and no bundle, [empty ()] is
    true, and the only notification is the [Changed] of [clear] (pending,
    when the list is suspended). *)
Theorem gather_null_session `{BundleLib} `{Host}
    (type : DataType) (inputs allow_dups use_session_bundles : bool) (l : PortGroupList) :
  let r := PortGroupListM.gather None type inputs allow_dups use_session_bundles l in
  r = PortGroupListM.clear l
  ∧ _groups (state_of r) = []
  ∧ PortGroupListM.empty (state_of r) = true
  ∧ PortGroupListM.bundles (state_of r) = []
  ∧ trace_of r = (if _signals_suspended l then [] else [Changed])
  ∧ _pending_change (state_of r) = (_pending_change l || _signals_suspended l)
  ∧ _pending_bundle_change (state_of r) = _pending_bundle_change l.
Proof.
  intros r. subst r. rewrite gather_None_run, clear_list_run.
  destruct l as [gs [] pc pb]; cbn; rewrite ?orb_true_r, ?orb_false_r; done.
Qed.

(** *** remove_bundle on the list *)

(** The fields of the list of groups held by value. *)
Ltac list_fields :=
  cbn [_groups _signals_suspended _pending_change _pending_bundle_change] in *.

Section SharedGroups.
Import Shared.

Lemma shared_emit_changed_run w : emit_changed w = emitted 1 w.
Proof. destruct w as [h gs cc bc [] pc pb]; cbn; [|done]. by rewrite orb_true_r. Qed.

Lemma emitted_0 w : emitted 0 w = (tt, w, []).
Proof. destruct w as [h gs cc bc [] pc pb]; cbn; [|done]. by rewrite orb_false_r. Qed.

Lemma positive_sum n m : (0 <? n + m) = (0 <? n) || (0 <? m).
Proof. by destruct n, m. Qed.

Lemma emit_changed_times (xs : list nat) w :
  for_each xs (λ _, emit_changed) w = emitted (length xs) w.
Proof.
  revert w. induction xs as [|x xs IH]; intros w; simpl for_each.
  - by rewrite emitted_0.
  - rewrite run_bind, IH, shared_emit_changed_run.
    destruct w as [h gs cc bc [] pc pb]; cbn; [|done].
    by rewrite orb_true_r.
Qed.

(** [remove_bundle] called through one pointer. *)
Lemma call_remove_run a b w :
  call_group a (PortGroupM.remove_bundle b) w
  = emitted (if PortGroupListM.holds b (heap w a)
             then length (connections a (_changed_connections w)) else 0)
            (with_heap (<[a := state_of (PortGroupM.remove_bundle b (heap w a))]> (heap w)) w).
Proof.
  unfold call_group. rewrite run_bind. cbn [get value_of state_of trace_of fst snd app].
  rewrite run_bind. cbn [set_heap value_of state_of trace_of fst snd app].
  destruct (remove_bundle_cases b (heap w a))
    as [(Hn & E)|(pre & x & post & Hg & Hx & _ & E)].
  - rewrite (proj2 (holds_false b (heap w a)) Hn), E.
    cbn [trace_of state_of fst snd for_each]. by rewrite emitted_0.
  - assert (Hh : PortGroupListM.holds b (heap w a) = true).
    { unfold PortGroupListM.holds. apply existsb_exists. exists x. split; [|done].
      apply list_elem_of_In. rewrite Hg. apply elem_of_app. right. left. }
    rewrite Hh, E. cbn [trace_of state_of fst snd]. simpl for_each.
    rewrite !run_bind.
    cbn [deliver get bind ret value_of state_of trace_of fst snd app].
    rewrite emit_changed_times. cbn [with_heap _changed_connections].
    rewrite app_nil_r.
    destruct w as [h gs cc bc [] pc pb]; reflexivity.
Qed.

(** The loop of [remove_bundle] over the members. *)
Lemma call_remove_all b gs cc bc su pb members : ∀ h pc,
  for_each members (λ a, call_group a (PortGroupM.remove_bundle b))
           (mkWorld h gs cc bc su pc pb)
  = emitted (forwarded_changed b cc members h)
            (mkWorld (removed_from b members h) gs cc bc su pc pb).
Proof.
  destruct su; induction members as [|a members IH]; intros h pc; simpl for_each;
    try (by rewrite emitted_0).
  - rewrite run_bind, call_remove_run. unfold emitted, with_heap.
    cbn [heap _changed_connections _groups _bundle_changed_connections
         _signals_suspended _pending_change _pending_bundle_change
         removed_from forwarded_changed value_of state_of trace_of fst snd app].
    rewrite IH. unfold emitted.
    cbn [heap _changed_connections _groups _bundle_changed_connections
         _signals_suspended _pending_change _pending_bundle_change
         value_of state_of trace_of fst snd app].
    by rewrite positive_sum, orb_assoc.
  - rewrite run_bind, call_remove_run. unfold emitted, with_heap.
    cbn [heap _changed_connections _groups _bundle_changed_connections
         _signals_suspended _pending_change _pending_bundle_change
         removed_from forwarded_changed value_of state_of trace_of fst snd app].
    rewrite IH. unfold emitted.
    cbn [heap _changed_connections _groups _bundle_changed_connections
         _signals_suspended _pending_change _pending_bundle_change
         value_of state_of trace_of fst snd app].
    by rewrite replicate_add.
Qed.

Lemma shared_remove_bundle_run b w :
  Shared.remove_bundle b w
  = emitted (S (forwarded_changed b (_changed_connections w) (_groups w) (heap w)))
            (with_heap (removed_from b (_groups w) (heap w)) w).
Proof.
  unfold Shared.remove_bundle. rewrite run_bind.
  cbn [get value_of state_of trace_of fst snd app]. rewrite run_bind.
  destruct w as [h gs cc bc su pc pb].
  cbn [_groups _changed_connections heap with_heap _bundle_changed_connections
       _signals_suspended _pending_change _pending_bundle_change].
  rewrite call_remove_all, shared_emit_changed_run. unfold emitted, with_heap.
  destruct su;
    cbn [_signals_suspended heap _groups _changed_connections
         _bundle_changed_connections _pending_change _pending_bundle_change
         value_of state_of trace_of fst snd app].
  - by rewrite !orb_true_r.
  - rewrite (replicate_S_end (forwarded_changed b cc gs h)). reflexivity.
Qed.

(** Where no member holds the bundle nothing is removed and no group
    fires. *)
Lemma removed_from_none b members : ∀ h,
  (∀ a, a ∈ members → PortGroupListM.holds b (h a) = false) →
  (∀ a, removed_from b members h a = h a)
  ∧ ∀ conns, forwarded_changed b conns members h = 0.
Proof.
  induction members as [|a0 members IH]; intros h Hn; [done|].
  assert (E0 : state_of (PortGroupM.remove_bundle b (h a0)) = h a0).
  { destruct (remove_bundle_by_holds b (h a0)) as [(_ & ->)|(Hh & _)]; [done|].
    rewrite Hn in Hh; [done|left]. }
  assert (Hsame : ∀ a, (<[a0 := state_of (PortGroupM.remove_bundle b (h a0))]> h) a = h a).
  { intros a. rewrite E0. destruct (decide (a0 = a)) as [->|Hne];
      [by rewrite fn_lookup_insert|by rewrite fn_lookup_insert_ne]. }
  destruct (IH (<[a0 := state_of (PortGroupM.remove_bundle b (h a0))]> h)) as [Hh Hf].
  { intros a Ha. rewrite Hsame. apply Hn. by right. }
  split.
  - intros a. simpl. by rewrite Hh, Hsame.
  - intros conns. simpl. rewrite Hf, Hn by left. done.
Qed.

(** The objects that are no members are left alone. *)
Lemma removed_from_other b members : ∀ h a,
  a ∉ members → removed_from b members h a = h a.
Proof.
  induction members as [|a0 members IH]; intros h a Ha; [done|].
  simpl. rewrite IH by (intros ?; apply Ha; by right).
  rewrite fn_lookup_insert_ne; [done|]. intros ->. apply Ha. left.
Qed.

(** Distinct members, each connected once. *)
Lemma removed_from_distinct b conns members : ∀ h,
  NoDup members →
  (∀ a, a ∈ members → length (connections a conns) = 1) →
  (∀ a, a ∈ members →
        removed_from b members h a = state_of (PortGroupM.remove_bundle b (h a)))
  ∧ forwarded_changed b conns members h
    = length (List.filter (λ a, PortGroupListM.holds b (h a)) members).
Proof.
  induction members as [|a0 members IH]; intros h Hnd Hone.
  - split; [intros a Ha; inversion Ha|done].
  - apply NoDup_cons in Hnd as [Hnotin Hnd].
    set (h1 := <[a0 := state_of (PortGroupM.remove_bundle b (h a0))]> h).
    destruct (IH h1 Hnd) as [Hh Hf]; [intros a Ha; apply Hone; by right|].
    assert (Hrest : ∀ a, a ∈ members → h1 a = h a).
    { intros a Ha. subst h1. rewrite fn_lookup_insert_ne; [done|]. by intros ->. }
    split.
    + intros a [->|Ha]%elem_of_cons; simpl; fold h1.
      * rewrite removed_from_other by done. subst h1. by rewrite fn_lookup_insert.
      * by rewrite Hh, Hrest.
    + simpl. fold h1. rewrite Hf, Hone by left.
      assert (List.filter (λ a, PortGroupListM.holds b (h1 a)) members
              = List.filter (λ a, PortGroupListM.holds b (h a)) members) as ->.
      { clear -Hrest. induction members as [|a members IH]; [done|]. simpl.
        rewrite Hrest by left. rewrite IH; [done|]. intros x Hx. apply Hrest. by right. }
      by destruct (PortGroupListM.holds b (h a0)).
Qed.

Lemma filter_through {A B} (f : A → B) (p : B → bool) (l : list A) :
  List.filter p (map f l) = map f (List.filter (λ x, p (f x)) l).
Proof.
  induction l as [|x l IH]; [done|]. simpl. destruct (p (f x)); simpl; by rewrite IH.
Qed.

(** For distinct members, each connected once, the list of the groups
    by value does what the list of pointers does. *)
Lemma shared_remove_bundle_by_value b w :
  NoDup (_groups w) →
  (∀ a, a ∈ _groups w → length (connections a (_changed_connections w)) = 1) →
  PortGroupListM.remove_bundle b (by_value w)
  = (tt, by_value (state_of (Shared.remove_bundle b w)),
     trace_of (Shared.remove_bundle b w)).
Proof.
  intros Hnd Hone.
  destruct (removed_from_distinct b (_changed_connections w) (_groups w) (heap w) Hnd Hone)
    as [Hh Hf].
  rewrite shared_remove_bundle_run, Hf, remove_bundle_list_run, forwarded_remove_bundles.
  assert (Hmap : map (removed_from b (_groups w) (heap w)) (_groups w)
                 = map (λ g, state_of (PortGroupM.remove_bundle b g))
                       (map (heap w) (_groups w))).
  { rewrite map_map. apply map_ext_in. intros a Ha%list_elem_of_In. by apply Hh. }
  unfold by_value, emitted, with_heap, PortGroupListM.notified, PortGroupListM.with_groups.
  destruct w as [h gs cc bc su pc pb].
  cbn [heap _groups _changed_connections _bundle_changed_connections
       _signals_suspended _pending_change _pending_bundle_change] in *.
  list_fields.
  rewrite filter_through, length_map.
  destruct su; cbn [state_of trace_of fst snd heap _groups _signals_suspended
                    _pending_change _pending_bundle_change].
  - rewrite Hmap, asks_changed_app, last_payload_app. cbn.
    rewrite last_payload_replicate, !orb_true_r. reflexivity.
  - rewrite Hmap, replicate_S_end. reflexivity.
Qed.

End SharedGroups.

(** C10.  [PortGroupList::remove_bundle] calls [remove_bundle] through
    each of its pointers, in order, and then [emit_changed], whether or
    not a group held the bundle: the list of pointers stays, and on a
    list that is not suspended [Changed] is fired once for each
    connection of a group at each call in which it lost a record, and
    once more at the end; on a suspended list the pending flag is set.
    So when no member holds the bundle no group changes and [Changed]
    is fired exactly once; and when the members are distinct objects,
    each connected once, each member is what [PortGroup::remove_bundle]
    makes of it and [Changed] is fired once for each member that held the
    bundle and once at the end.  [PortGroup::remove_bundle] fires
    [Changed] only when it erases a record. *)
Theorem remove_bundle_always_notifies (b : Bundle) (w : Shared.World) :
  let r := Shared.remove_bundle b w in
  let n := Shared.forwarded_changed b (Shared._changed_connections w)
             (Shared._groups w) (Shared.heap w) in
  Shared.heap (state_of r) = Shared.removed_from b (Shared._groups w) (Shared.heap w)
  ∧ Shared._groups (state_of r) = Shared._groups w
  ∧ (if Shared._signals_suspended w
     then trace_of r = [] ∧ Shared._pending_change (state_of r) = true
     else trace_of r = replicate n Changed ++ [Changed])
  ∧ ((∀ a, a ∈ Shared._groups w → PortGroupListM.holds b (Shared.heap w a) = false) →
     (∀ a, Shared.heap (state_of r) a = Shared.heap w a)
     ∧ (Shared._signals_suspended w = false → trace_of r = [Changed]))
  ∧ (NoDup (Shared._groups w) →
     (∀ a, a ∈ Shared._groups w →
           length (Shared.connections a (Shared._changed_connections w)) = 1) →
     (∀ a, a ∈ Shared._groups w →
           Shared.heap (state_of r) a
           = state_of (PortGroupM.remove_bundle b (Shared.heap w a)))
     ∧ n = length (List.filter (λ a, PortGroupListM.holds b (Shared.heap w a))
                               (Shared._groups w)))
  ∧ (∀ g, if PortGroupListM.holds b g
          then times_changed (trace_of (PortGroupM.remove_bundle b g)) = 1
               ∧ length (_bundles (state_of (PortGroupM.remove_bundle b g))) + 1
                 = length (_bundles g)
          else PortGroupM.remove_bundle b g = (tt, g, [])).
Proof.
  intros r n. subst r n. rewrite shared_remove_bundle_run.
  split; [by destruct w as [h gs cc bc [] pc pb]|].
  split; [by destruct w as [h gs cc bc [] pc pb]|].
  split; [|split; [|split]].
  - destruct w as [h gs cc bc [] pc pb]; unfold Shared.emitted, Shared.with_heap;
      cbn [Shared._signals_suspended Shared._pending_change Shared.heap Shared._groups
           Shared._changed_connections trace_of state_of fst snd].
    + split; [done|]. by rewrite orb_true_r.
    + by rewrite replicate_S_end.
  - intros Hnone.
    destruct (removed_from_none b (Shared._groups w) (Shared.heap w) Hnone) as [Hh Hf].
    rewrite Hf. split.
    + intros a. rewrite <- Hh. by destruct w as [h gs cc bc [] pc pb].
    + intros Hs. destruct w as [h gs cc bc su pc pb]. simpl in Hs. by subst su.
  - intros Hnd Hone.
    destruct (removed_from_distinct b (Shared._changed_connections w) (Shared._groups w)
                (Shared.heap w) Hnd Hone) as [Hh Hf].
    split; [|exact Hf].
    intros a Ha. rewrite <- Hh by done. by destruct w as [h gs cc bc [] pc pb].
  - intros g. destruct (remove_bundle_by_holds b g) as [(-> & ->)|(-> & ? & ? & _)]; done.
Qed.

(** One group that is a member twice and holds the bundle twice: both
    records go, and [Changed] is fired twice at each call and once at
    the end.  A group added again after [clear] is connected twice. *)
Lemma remove_bundle_always_notifies_witness :
  let g := mkPortGroup "Busses" [Concrete.record_of Concrete.stereo;
                                 Concrete.record_of Concrete.stereo] in
  let w := Shared.mkWorld (λ _, g) [7; 7] [7; 7] [7; 7] false false 0%Z in
  let r := Shared.remove_bundle Concrete.stereo w in
  let g1 := mkPortGroup "Busses" [Concrete.record_of Concrete.stereo] in
  let w1 := state_of ((Shared.add_group 7 ;;; Shared.clear ;;; Shared.add_group 7)
                        (Shared.mkWorld (λ _, g1) [] [] [] false false 0%Z)) in
  trace_of r = [Changed; Changed; Changed; Changed; Changed]
  ∧ _bundles (Shared.heap (state_of r) 7) = []
  ∧ trace_of (Shared.remove_bundle Concrete.stereo w1) = [Changed; Changed; Changed].
Proof.
  intros g w r g1 w1.
  destruct (remove_bundle_always_notifies Concrete.stereo w) as (Hh & _ & Ht & _).
  destruct (remove_bundle_always_notifies Concrete.stereo w1) as (_ & _ & Ht1 & _).
  split; [exact Ht|]. split; [|exact Ht1].
  fold r in Hh. rewrite Hh. reflexivity.
Defined.

(** ** Bundle synthesis *)

Lemma bind_ret_r {S E} (m : Eff S E unit) (s : S) : (m ;;; ret tt) s = m s.
Proof.
  rewrite run_bind. cbn [ret value_of state_of trace_of fst snd].
  rewrite app_nil_r. symmetry. apply run_eta.
Qed.

Lemma bind_ext {S E A B} (m : Eff S E A) (k k' : A → Eff S E B) (s : S) :
  (∀ a s', k a s' = k' a s') → bind m k s = bind m k' s.
Proof. intros Hk. rewrite !run_bind, Hk. reflexivity. Qed.

Section Synthesis.
Context `{BundleLib} `{Host}.
Import PortGroupListM.

Lemma find_char_contains s c :
  Str.found (Str.find_char s c) = true ↔ Spec.contains c s.
Proof.
  induction s as [|a s IH]; simpl.
  - split; [done|]. intros [i Hi]. by destruct i.
  - destruct (Ascii.eqb_spec a c) as [->|Hne]; simpl.
    + split; [|done]. intros _. by exists 0.
    + transitivity (Str.found (Str.find_char s c) = true).
      { by destruct (Str.find_char s c). }
      rewrite IH. split.
      * intros [i Hi]. by exists (S i).
      * intros [[|i] Hi]; simpl in Hi; [congruence|by exists i].
Qed.

Lemma find_first_of_single s c :
  Str.find_first_of s (String c EmptyString) = Str.find_char s c.
Proof.
  induction s as [|a s IH]; simpl; [done|].
  rewrite orb_false_r, IH, (Ascii.eqb_sym c a). reflexivity.
Qed.

(** [find] gives the first position of the character. *)
Lemma find_char_first s c i :
  Str.find_char s c = Some i →
  String.get i s = Some c ∧ ∀ j, j < i → String.get j s ≠ Some c.
Proof.
  revert i. induction s as [|a s IH]; intros i; simpl; [done|].
  destruct (Ascii.eqb_spec a c) as [->|Hne].
  - intros [= <-]. split; [done|]. intros j ?. lia.
  - destruct (Str.find_char s c) as [i'|]; [|done].
    intros [= <-]. destruct (IH i' eq_refl) as [Hg Hl]. split; [done|].
    intros [|j] Hj; simpl; [congruence|]. apply Hl. lia.
Qed.

(** The prefix that the loop compares: the name up to and including the
    first separator character. *)
Lemma prefix_to_sep_first c s i :
  Str.find_char s c = Some i →
  prefix_to_sep (String c EmptyString) s = String.substring 0 (S i) s
  ∧ String.get i s = Some c
  ∧ ∀ j, j < i → String.get j s ≠ Some c.
Proof.
  intros Hi. unfold prefix_to_sep. rewrite find_first_of_single, Hi.
  split; [reflexivity|]. by apply find_char_first.
Qed.

Lemma forallb_contains c p :
  forallb (λ s, Str.found (Str.find_char s c)) p = true
  ↔ ∀ s, s ∈ p → Spec.contains c s.
Proof.
  rewrite forallb_forall. split.
  - intros Hall s Hs. apply find_char_contains, Hall. by apply list_elem_of_In.
  - intros Hall s Hs. apply find_char_contains, Hall. by apply list_elem_of_In.
Qed.

(** The separator: '/' when every name contains it, else ':' when every
    name contains that, else none. *)
Lemma separator_cases p :
  ((∀ s, s ∈ p → Spec.contains "/" s) ∧ separator p = "/"%string)
  ∨ (¬ (∀ s, s ∈ p → Spec.contains "/" s)
     ∧ (∀ s, s ∈ p → Spec.contains ":" s) ∧ separator p = ":"%string)
  ∨ (¬ (∀ s, s ∈ p → Spec.contains "/" s)
     ∧ ¬ (∀ s, s ∈ p → Spec.contains ":" s) ∧ separator p = EmptyString).
Proof.
  unfold separator.
  destruct (forallb (λ s, Str.found (Str.find_char s "/")) p) eqn:Es.
  - left. split; [by apply forallb_contains|done].
  - right.
    assert (¬ (∀ s, s ∈ p → Spec.contains "/" s)).
    { intros Hall%forallb_contains. congruence. }
    destruct (forallb (λ s, Str.found (Str.find_char s ":")) p) eqn:Ec.
    + left. split; [done|]. split; [by apply forallb_contains|done].
    + right. split; [done|]. split; [|done].
      intros Hall%forallb_contains. congruence.
Qed.

(** *** The runs *)

Lemma group_runs_cons key s p :
  ∃ run runs, Spec.group_runs key (s :: p) = (s :: run) :: runs.
Proof.
  simpl. destruct (Spec.group_runs key p) as [|[|t run] runs]; [by eexists _, _..|].
  destruct (String.eqb (key s) (key t)); by eexists _, _.
Qed.

(** A run in progress followed by a name with another prefix. *)
Lemma group_runs_flush key cp nb s p :
  nb ≠ [] → Forall (λ x, key x = cp) nb → key s ≠ cp →
  Spec.group_runs key (nb ++ s :: p) = nb :: Spec.group_runs key (s :: p).
Proof.
  intros Hne Hall Hs. induction nb as [|x nb IH]; [done|].
  apply Forall_cons in Hall as [Hx Hall].
  destruct nb as [|y nb].
  - simpl app. destruct (group_runs_cons key s p) as (run & runs & E).
    change (Spec.group_runs key (x :: s :: p))
      with (match Spec.group_runs key (s :: p) with
            | (t :: run) :: runs =>
                if String.eqb (key x) (key t) then (x :: t :: run) :: runs
                else [x] :: (t :: run) :: runs
            | _ => [[x]]
            end).
    rewrite E. destruct (String.eqb_spec (key x) (key s)); [congruence|done].
  - change (Spec.group_runs key ((x :: y :: nb) ++ s :: p))
      with (match Spec.group_runs key ((y :: nb) ++ s :: p) with
            | (t :: run) :: runs =>
                if String.eqb (key x) (key t) then (x :: t :: run) :: runs
                else [x] :: (t :: run) :: runs
            | _ => [[x]]
            end).
    rewrite IH by done.
    apply Forall_cons in Hall as [Hy _].
    destruct (String.eqb_spec (key x) (key y)); [done|congruence].
Qed.

(** A run in progress at the end of the list. *)
Lemma group_runs_single key cp nb :
  nb ≠ [] → Forall (λ x, key x = cp) nb → Spec.group_runs key nb = [nb].
Proof.
  intros Hne Hall. induction nb as [|x nb IH]; [done|].
  apply Forall_cons in Hall as [Hx Hall].
  destruct nb as [|y nb]; [done|].
  change (Spec.group_runs key (x :: y :: nb))
    with (match Spec.group_runs key (y :: nb) with
          | (t :: run) :: runs =>
              if String.eqb (key x) (key t) then (x :: t :: run) :: runs
              else [x] :: (t :: run) :: runs
          | _ => [[x]]
          end).
  rewrite IH by done. apply Forall_cons in Hall as [Hy _].
  destruct (String.eqb_spec (key x) (key y)); [done|congruence].
Qed.

(** The loop flushes the run in progress and then one bundle for each
    run of what is left. *)
Lemma add_bundles_runs_spec sep type inputs allow_dups g p : ∀ nb cp L,
  (nb ≠ [] → Forall (λ x, prefix_to_sep sep x = cp) nb) →
  add_bundles_runs sep p nb cp type inputs allow_dups g L =
    for_each (Spec.group_runs (prefix_to_sep sep) (nb ++ p))
             (λ nb, add_bundle_from_ports nb type inputs allow_dups g) L.
Proof.
  induction p as [|s p IH]; intros nb cp L Hnb.
  - simpl add_bundles_runs. rewrite app_nil_r.
    case_bool_decide as Hn; simpl.
    + by subst nb.
    + erewrite group_runs_single by eauto. simpl for_each.
      by rewrite bind_ret_r.
  - simpl add_bundles_runs.
    destruct (String.eqb_spec (prefix_to_sep sep s) cp) as [Heq|Hne]; simpl.
    + rewrite IH; [by rewrite <- app_assoc|].
      intros _. apply Forall_app. split; [|by constructor].
      destruct nb; [constructor|]. rewrite Heq. by apply Hnb.
    + case_bool_decide as Hn; simpl.
      * subst nb. rewrite IH; [done|]. intros _. by constructor.
      * erewrite group_runs_flush by eauto.
        simpl for_each. apply bind_ext. intros _ L'.
        rewrite IH; [done|]. intros _. by constructor.
Qed.

End Synthesis.

Section SynthesisExamples.
Context `{BundleLib} `{Host}.
Import PortGroupListM.

Lemma make_bundle_from_ports_run p type inputs bundle_name L :
  make_bundle_from_ports p type inputs bundle_name L =
    (add_port_channels (common_prefix p) type p 0
       (let b := BundleOps.new (heap_top L) EmptyString inputs in
        if negb (Str.empty bundle_name) then BundleOps.set_name b bundle_name
        else if negb (Str.empty (common_prefix p))
             then BundleOps.set_name b
                    (Str.substr (common_prefix p) 0 (String.length (common_prefix p) - 1))
             else b),
     mkLocals (group L) (S (heap_top L)), []).
Proof. reflexivity. Qed.

Lemma add_bundle_from_ports_run nb type inputs allow_dups g L :
  add_bundle_from_ports nb type inputs allow_dups g L =
    on g (PortGroupM.add_bundle
            (value_of (make_bundle_from_ports nb type inputs EmptyString L)) allow_dups)
       (mkLocals (group L) (S (heap_top L))).
Proof.
  unfold add_bundle_from_ports. rewrite run_bind, make_bundle_from_ports_run.
  cbn [value_of state_of trace_of fst snd app]. apply run_eta_v.
Qed.

Lemma group_on_same g op L :
  group (state_of (on g op L)) g = state_of (op (group L g)).
Proof. unfold on. cbn. by rewrite fn_lookup_insert. Qed.

Lemma group_on_other g g' op L :
  g ≠ g' → group (state_of (on g op L)) g' = group L g'.
Proof. intros Hne. unfold on. cbn. by rewrite fn_lookup_insert_ne. Qed.

Hypothesis no_pretty_names : ∀ s, get_pretty_name_by_name s = EmptyString.

Lemma example_one_bundle type inputs allow_dups g L :
  _bundles (group L g) = [] →
  _bundles (group (state_of (add_bundles_for_ports ["a/1"; "a/2"; "a/3"]%string
                               type inputs allow_dups g L)) g)
  = [mkBundleRecord
       (mkBundle (heap_top L) "a" inputs
          [mkChannel "1" type ["a/1"%string];
           mkChannel "2" type ["a/2"%string];
           mkChannel "3" type ["a/3"%string]])
       None Color_default false].
Proof.
  intros Hempty.
  unfold add_bundles_for_ports.
  change (separator ["a/1"; "a/2"; "a/3"]%string) with "/"%string.
  cbn [Str.empty].
  rewrite add_bundles_runs_spec by done.
  replace (Spec.group_runs (prefix_to_sep "/") ([] ++ ["a/1"; "a/2"; "a/3"]%string))
    with [["a/1"; "a/2"; "a/3"]%string] by (vm_compute; reflexivity).
  simpl for_each. rewrite bind_ret_r, add_bundle_from_ports_run, group_on_same.
  rewrite make_bundle_from_ports_run. cbn [value_of fst].
  replace (common_prefix ["a/1"; "a/2"; "a/3"]%string) with "a/"%string
    by (vm_compute; reflexivity).
  cbn [add_port_channels]. rewrite !no_pretty_names.
  cbn [group]. unfold PortGroupM.add_bundle.
  match goal with
  | |- context [PortGroupM.add_bundle_internal ?b _ _ _ _ _] =>
      destruct (add_bundle_internal_cases b None false Color_default allow_dups (group L g))
        as [(_ & Hs & _)|(_ & ->)]
  end.
  - rewrite Hempty in Hs. by destruct Hs.
  - cbn [state_of fst snd _bundles]. rewrite Hempty. reflexivity.
Qed.

Lemma example_two_bundles type inputs allow_dups g L :
  let a := mkBundle (heap_top L) "a" inputs [mkChannel "1" type ["a/1"%string]] in
  let b := mkBundle (S (heap_top L)) "b" inputs [mkChannel "1" type ["b/1"%string]] in
  _bundles (group L g) = [] →
  allow_dups = true ∨ has_same_ports b a = false →
  _bundles (group (state_of (add_bundles_for_ports ["a/1"; "b/1"]%string
                               type inputs allow_dups g L)) g)
  = [mkBundleRecord a None Color_default false;
     mkBundleRecord b None Color_default false].
Proof.
  intros a b Hempty Hdup.
  unfold add_bundles_for_ports.
  change (separator ["a/1"; "b/1"]%string) with "/"%string.
  cbn [Str.empty].
  rewrite add_bundles_runs_spec by done.
  replace (Spec.group_runs (prefix_to_sep "/") ([] ++ ["a/1"; "b/1"]%string))
    with [["a/1"%string]; ["b/1"%string]] by (vm_compute; reflexivity).
  simpl for_each. rewrite state_bind, bind_ret_r.
  rewrite !add_bundle_from_ports_run, !group_on_same.
  rewrite !make_bundle_from_ports_run. cbn [value_of state_of fst snd].
  replace (common_prefix ["a/1"%string]) with "a/"%string by (vm_compute; reflexivity).
  replace (common_prefix ["b/1"%string]) with "b/"%string by (vm_compute; reflexivity).
  cbn [add_port_channels]. rewrite !no_pretty_names.
  cbn [group heap_top on state_of fst snd]. rewrite fn_lookup_insert.
  unfold PortGroupM.add_bundle.
  change (BundleOps.set_port _ 0 "a/1") with a.
  change (BundleOps.set_port _ 0 "b/1") with b.
  destruct (add_bundle_internal_cases a None false Color_default allow_dups (group L g))
    as [(_ & Hs & _)|(_ & ->)].
  { rewrite Hempty in Hs. by destruct Hs. }
  cbn [state_of fst snd]. rewrite Hempty. simpl app.
  match goal with
  | |- context [PortGroupM.add_bundle_internal b _ _ _ _ ?g1] =>
      destruct (add_bundle_internal_cases b None false Color_default allow_dups g1)
        as [(Had & Hs & _)|(_ & ->)]
  end.
  - exfalso. destruct Hdup as [->|Hdup]; [done|].
    cbn in Hs. rewrite Hdup in Hs. by destruct Hs.
  - reflexivity.
Qed.

End SynthesisExamples.

(** C8.  [add_bundles_for_ports] takes '/' as the separator when every
    name contains '/', else ':' when every name contains ':', and else
    makes one bundle of the whole list.  With a separator it makes one
    bundle for each maximal run of neighbouring names with the same prefix
    up to and including the first separator, in order; that prefix ends at
    the first position of the separator in the name.  When the engine has
    no pretty names and the target group is empty, the names a/1, a/2, a/3
    give one bundle named a with the channels 1, 2 and 3, and the names
    a/1, b/1 give the bundles a and b with one channel each (the second
    one being subject to the group's check for duplicates). *)
Theorem add_bundles_for_ports_runs `{BundleLib} `{Host}
    (p : list string) (type : DataType) (inputs allow_dups : bool)
    (g : PortGroupListM.Category) (L : PortGroupListM.Locals) :
  (((∀ s, s ∈ p → Spec.contains "/" s)
    ∧ PortGroupListM.add_bundles_for_ports p type inputs allow_dups g L =
        for_each (Spec.group_runs (PortGroupListM.prefix_to_sep "/") p)
          (λ nb, PortGroupListM.add_bundle_from_ports nb type inputs allow_dups g) L)
   ∨ (¬ (∀ s, s ∈ p → Spec.contains "/" s)
      ∧ (∀ s, s ∈ p → Spec.contains ":" s)
      ∧ PortGroupListM.add_bundles_for_ports p type inputs allow_dups g L =
          for_each (Spec.group_runs (PortGroupListM.prefix_to_sep ":") p)
            (λ nb, PortGroupListM.add_bundle_from_ports nb type inputs allow_dups g) L)
   ∨ (¬ (∀ s, s ∈ p → Spec.contains "/" s)
      ∧ ¬ (∀ s, s ∈ p → Spec.contains ":" s)
      ∧ PortGroupListM.add_bundles_for_ports p type inputs allow_dups g L =
          PortGroupListM.add_bundle_from_ports p type inputs allow_dups g L))
  ∧ (∀ c s i, Str.find_char s c = Some i →
       PortGroupListM.prefix_to_sep (String c EmptyString) s = String.substring 0 (S i) s
       ∧ String.get i s = Some c
       ∧ ∀ j, j < i → String.get j s ≠ Some c)
  ∧ ((∀ s, get_pretty_name_by_name s = EmptyString) →
     _bundles (PortGroupListM.group L g) = [] →
     _bundles (PortGroupListM.group
                 (state_of (PortGroupListM.add_bundles_for_ports
                              ["a/1"; "a/2"; "a/3"]%string type inputs allow_dups g L)) g)
     = [mkBundleRecord
          (mkBundle (PortGroupListM.heap_top L) "a" inputs
             [mkChannel "1" type ["a/1"%string];
              mkChannel "2" type ["a/2"%string];
              mkChannel "3" type ["a/3"%string]])
          None Color_default false]
     ∧ (let a := mkBundle (PortGroupListM.heap_top L) "a" inputs
                   [mkChannel "1" type ["a/1"%string]] in
        let b := mkBundle (S (PortGroupListM.heap_top L)) "b" inputs
                   [mkChannel "1" type ["b/1"%string]] in
        allow_dups = true ∨ has_same_ports b a = false →
        _bundles (PortGroupListM.group
                    (state_of (PortGroupListM.add_bundles_for_ports
                                 ["a/1"; "b/1"]%string type inputs allow_dups g L)) g)
        = [mkBundleRecord a None Color_default false;
           mkBundleRecord b None Color_default false])).
Proof.
  split; [|split].
  - unfold PortGroupListM.add_bundles_for_ports.
    destruct (separator_cases p) as [(Hs & ->)|[(Hns & Hc & ->)|(Hns & Hnc & ->)]];
      cbn [Str.empty].
    + left. split; [done|]. by rewrite add_bundles_runs_spec.
    + right. left. split; [done|]. split; [done|]. by rewrite add_bundles_runs_spec.
    + right. right. done.
  - intros c s i. apply prefix_to_sep_first.
  - intros Hpn Hempty. split.
    + by apply example_one_bundle.
    + intros a b Hdup. by apply example_two_bundles.
Qed.

(** The two examples on the empty "Hardware" group of a host without
    pretty names, duplicates not allowed. *)
Lemma add_bundles_for_ports_runs_witness :
  let L := PortGroupListM.mkLocals (@PortGroupListM.new_groups Concrete.bare_host) 0 in
  let run p := map bundle (_bundles (PortGroupListM.group
                 (state_of (@PortGroupListM.add_bundles_for_ports
                              Concrete.lib Concrete.bare_host p AUDIO true false
                              PortGroupListM.System L)) PortGroupListM.System)) in
  run ["a/1"; "a/2"; "a/3"]%string
  = [mkBundle 0 "a" true [mkChannel "1" AUDIO ["a/1"%string];
                          mkChannel "2" AUDIO ["a/2"%string];
                          mkChannel "3" AUDIO ["a/3"%string]]]
  ∧ run ["a/1"; "b/1"]%string
    = [mkBundle 0 "a" true [mkChannel "1" AUDIO ["a/1"%string]];
       mkBundle 1 "b" true [mkChannel "1" AUDIO ["b/1"%string]]].
Proof.
  intros L run.
  destruct (@add_bundles_for_ports_runs Concrete.lib Concrete.bare_host
              [] AUDIO true false PortGroupListM.System L) as (_ & _ & Hex).
  destruct Hex as (H1 & H2); [reflexivity|reflexivity|].
  unfold run. rewrite H1, H2; [done|]. right. vm_compute. reflexivity.
Defined.

(** ** Invariants of the groups under construction *)

Lemma keeps_ret {S E A} (Inv : S → Prop) (a : A) : keeps Inv (ret (E:=E) a).
Proof. intros s Hs. exact Hs. Qed.

Lemma keeps_get {S E} (Inv : S → Prop) : keeps Inv (get (E:=E)).
Proof. intros s Hs. exact Hs. Qed.

Lemma keeps_bind {S E A B} (Inv : S → Prop) (m : Eff S E A) (k : A → Eff S E B) :
  keeps Inv m → (∀ a, keeps Inv (k a)) → keeps Inv (bind m k).
Proof. intros Hm Hk s Hs. rewrite state_bind. by apply Hk, Hm. Qed.

Lemma keeps_for_each {S E A} (Inv : S → Prop) (xs : list A) (body : A → Eff S E unit) :
  (∀ x, x ∈ xs → keeps Inv (body x)) → keeps Inv (for_each xs body).
Proof.
  induction xs as [|x xs IH]; intros Hb; simpl.
  - apply keeps_ret.
  - apply keeps_bind; [apply Hb; left|].
    intros _. apply IH. intros y Hy. apply Hb. by right.
Qed.

Section ProgramGroup.
Context `{BundleLib} `{Host}.
Import PortGroupListM.

Lemma grows_ret {A} (a : A) : grows (ret a).
Proof. intros n. apply keeps_ret. Qed.

Lemma grows_bind {A B} (m : Gather A) (k : A → Gather B) :
  grows m → (∀ a, grows (k a)) → grows (bind m k).
Proof. intros Hm Hk n. apply keeps_bind; [apply Hm|intros a; apply Hk]. Qed.

Lemma grows_for_each {A} (xs : list A) (body : A → Gather unit) :
  (∀ x, grows (body x)) → grows (for_each xs body).
Proof. intros Hb n. apply keeps_for_each. intros x _. apply Hb. Qed.

Lemma fills_then {A B} (m : Gather A) (k : A → Gather B) :
  fills m → (∀ a, grows (k a)) → fills (bind m k).
Proof. intros Hm Hk L. rewrite state_bind. by apply Hk, Hm. Qed.

Lemma then_fills {A B} (m : Gather A) (k : A → Gather B) :
  (∀ a, fills (k a)) → fills (bind m k).
Proof. intros Hk L. rewrite state_bind. apply Hk. Qed.

Lemma grows_on_other g op : g ≠ Program → grows (on g op).
Proof.
  intros Hne n L HL. unfold program_has in *.
  by rewrite group_on_other.
Qed.

Lemma grows_on_add b io hc c allow_dups :
  grows (on Program (PortGroupM.add_bundle_internal b io hc c allow_dups)).
Proof.
  intros n L HL. unfold program_has in *. rewrite group_on_same.
  destruct (add_bundle_internal_cases b io hc c allow_dups (group L Program))
    as [(_ & _ & ->)|(_ & ->)]; cbn [state_of fst snd _bundles]; [done|].
  rewrite length_app. lia.
Qed.

Lemma fills_on_add b io hc c allow_dups :
  fills (on Program (PortGroupM.add_bundle_internal b io hc c allow_dups)).
Proof.
  intros L. unfold program_has. rewrite group_on_same.
  destruct (add_bundle_internal_cases b io hc c allow_dups (group L Program))
    as [(_ & Hs & ->)|(_ & ->)]; cbn [state_of fst snd _bundles].
  - destruct (_bundles (group L Program)); simpl; [by destruct Hs|lia].
  - rewrite length_app. simpl. lia.
Qed.

Lemma grows_new_Bundle n inputs : grows (new_Bundle n inputs).
Proof. intros k L HL. exact HL. Qed.

Lemma grows_make_bundle p type inputs nm : grows (make_bundle_from_ports p type inputs nm).
Proof. intros k L HL. exact HL. Qed.

End ProgramGroup.

(** Steps of a proof that an action never empties the program's group. *)
Ltac grows_step :=
  first
    [ apply grows_ret
    | apply grows_new_Bundle
    | apply grows_make_bundle
    | apply grows_on_add
    | apply grows_on_other; discriminate
    | apply grows_for_each; intros ?
    | apply grows_bind; [|intros ?]
    | match goal with
      | |- PortGroupListM.grows (if ?b then _ else _) => destruct b
      | |- PortGroupListM.grows (match ?x with _ => _ end) => destruct x
      end ].

Section GatherFills.
Context `{BundleLib} `{Host}.
Import PortGroupListM.

Lemma grows_get : grows (get (S:=Locals) (E:=Category * GroupEvent)).
Proof. intros n L HL. exact HL. Qed.

Lemma grows_add_bundle_from_ports nb type inputs allow_dups g :
  grows (add_bundle_from_ports nb type inputs allow_dups g).
Proof.
  unfold add_bundle_from_ports, PortGroupM.add_bundle.
  destruct g; repeat grows_step.
Qed.

Lemma grows_add_bundles_runs sep type inputs allow_dups g p :
  ∀ nb cp, grows (add_bundles_runs sep p nb cp type inputs allow_dups g).
Proof.
  induction p as [|s p IH]; intros nb cp; simpl.
  - destruct (negb (bool_decide (nb = [])));
      [apply grows_add_bundle_from_ports|apply grows_ret].
  - destruct (negb (prefix_to_sep sep s =? cp)%string && negb (bool_decide (nb = []))).
    + apply grows_bind; [apply grows_add_bundle_from_ports|intros _; apply IH].
    + apply IH.
Qed.

Lemma grows_add_bundles_for_ports p type inputs allow_dups g :
  grows (add_bundles_for_ports p type inputs allow_dups g).
Proof.
  unfold add_bundles_for_ports.
  destruct (Str.empty (separator p));
    [apply grows_add_bundle_from_ports|apply grows_add_bundles_runs].
Qed.

Lemma grows_add_io_plugs session type inputs :
  grows (add_io_plugs session type inputs).
Proof.
  unfold add_io_plugs, PortGroupM.add_bundle_io. repeat grows_step.
Qed.

Lemma grows_add_extra_ports type inputs allow_dups :
  grows (add_extra_ports type inputs allow_dups).
Proof.
  unfold add_extra_ports, PortGroupM.add_bundle.
  apply grows_bind; [apply grows_get|intros L].
  repeat first [ apply grows_add_bundles_for_ports | grows_step ].
Qed.

(** The four parts of [add_program_bundles]. *)
Lemma add_program_bundles_fills session type inputs :
  fills (add_program_bundles session type inputs).
Proof.
  unfold add_program_bundles, PortGroupM.add_bundle.
  destruct type.
  - (* AUDIO: the LTC bundle or the audio "Sync" bundle *)
    apply fills_then; [|intros _; repeat grows_step].
    cbn [bool_decide decide_rel DataType_eq_dec orb].
    replace (bool_decide (AUDIO = AUDIO)) with true by (symmetry; by apply bool_decide_eq_true).
    cbn [orb]. destruct inputs; cbn [negb].
    + apply then_fills. intros sync. apply fills_on_add.
    + apply then_fills. intros _. apply then_fills. intros _.
      apply then_fills. intros ltc. apply fills_on_add.
  - (* MIDI: the MIDI "Sync" bundle *)
    apply then_fills. intros _. apply then_fills. intros _. apply then_fills. intros _.
    replace (bool_decide (MIDI = MIDI)) with true by (symmetry; by apply bool_decide_eq_true).
    cbn [orb]. apply then_fills. intros sync. apply fills_on_add.
  - (* NIL: both *)
    apply then_fills. intros _. apply then_fills. intros _. apply then_fills. intros _.
    replace (bool_decide (NIL = NIL)) with true by (symmetry; by apply bool_decide_eq_true).
    rewrite orb_true_r. apply then_fills. intros sync. apply fills_on_add.
Qed.

(** The program's group is never empty at the end of [gather]. *)
Lemma fill_groups_fills session type inputs allow_dups use_session_bundles :
  fills (fill_groups session type inputs allow_dups use_session_bundles).
Proof.
  unfold fill_groups.
  apply then_fills. intros _. apply then_fills. intros _.
  apply fills_then; [apply add_program_bundles_fills|]. intros _.
  apply grows_bind; [apply grows_add_io_plugs|]. intros _.
  apply grows_bind; [apply grows_add_extra_ports|]. intros _.
  destruct (negb allow_dups); [apply grows_on_other; discriminate|apply grows_ret].
Qed.

End GatherFills.

(** *** The notifications of gather *)

Section GatherCount.
Context `{BundleLib} `{Host}.
Import PortGroupListM.

Lemma published_program L :
  program_has 1 L → 1 ≤ length (published L).
Proof.
  unfold program_has. intros HL.
  assert (Hin : In (group L Program) (published L)).
  { unfold published. apply filter_In. split; [simpl; tauto|].
    destruct (_bundles (group L Program)) eqn:E; [simpl in HL; lia|].
    by rewrite bool_decide_eq_false_2. }
  destruct (published L); [by destruct Hin|simpl; lia].
Qed.

End GatherCount.

(** C4, as the code has it.  A call of [gather] on a session always
    publishes at least one group, the program's "Misc" group with its
    "Sync" or "LTC Out" bundle; on a list that is not suspended it fires
    [Changed] once for the initial [clear], once for each group it adds
    and once at the end, that is two times more than there are groups in
    the list, and nothing else; on a suspended list it fires nothing and
    sets the pending flag, so that the notifications coalesce into the
    single [Changed] of [resume_signals]. *)
Theorem gather_changed_count `{BundleLib} `{Host}
    (session : Session) (type : DataType)
    (inputs allow_dups use_session_bundles : bool) (l : PortGroupList) :
  let r := PortGroupListM.gather (Some session) type inputs allow_dups
             use_session_bundles l in
  1 ≤ length (_groups (state_of r))
  ∧ (if _signals_suspended l
     then trace_of r = [] ∧ _pending_change (state_of r) = true
          ∧ trace_of (PortGroupListM.resume_signals (state_of r))
            = Changed :: (if bool_decide (_pending_bundle_change l ≠ 0%Z)
                          then [BundleChanged (_pending_bundle_change l)] else [])
     else trace_of r = replicate (2 + length (_groups (state_of r))) Changed).
Proof.
  intros r. subst r. rewrite gather_Some_run. cbv zeta.
  set (L := state_of (PortGroupListM.fill_groups session type inputs allow_dups
                        use_session_bundles _)).
  rewrite groups_notified. cbn [PortGroupListM.with_groups _groups].
  split.
  - apply published_program. apply fill_groups_fills.
  - unfold PortGroupListM.notified.
    cbn [PortGroupListM.with_groups _signals_suspended _pending_change
         _pending_bundle_change _groups].
    destruct (_signals_suspended l).
    + cbn [trace_of state_of fst snd _pending_change]. split; [done|].
      split; [by rewrite orb_true_r|].
      rewrite resume_signals_run.
      cbn [trace_of snd _pending_change _pending_bundle_change].
      rewrite orb_true_r.
      change (Changed :: map (λ _, Changed) (PortGroupListM.published L) ++ [Changed])
        with ([Changed] ++ (map (λ _ : PortGroup, Changed) (PortGroupListM.published L)
                            ++ [Changed])).
      rewrite !last_payload_app. cbn [PortGroupListM.last_payload fold_left].
      rewrite map_const_replicate.
      change (fold_left _ (replicate ?n Changed) ?d)
        with (PortGroupListM.last_payload (replicate n Changed) d).
      rewrite last_payload_replicate. reflexivity.
    + cbn [trace_of snd]. rewrite map_const_replicate, replicate_snoc. reflexivity.
Qed.

(** A session without routes, bundles or ports and a host without ports,
    asked for the MIDI inputs on a new list: nothing matches in any
    source, and yet the list gets the program's group with its "Sync"
    bundle, and [Changed] is fired three times. *)
Lemma gather_fires_changed_thrice :
  let r := @PortGroupListM.gather Concrete.lib Concrete.bare_host
             (Some Concrete.bare_session) MIDI true false false PortGroupListM.new in
  trace_of r = [Changed; Changed; Changed]
  ∧ trace_of r ≠ [Changed]
  ∧ map name (_groups (state_of r)) = ["Ardour Misc"%string]
  ∧ PortGroupListM.empty (state_of r) = false.
Proof. vm_compute. repeat split; discriminate. Qed.

(** ** The route scan *)

Section RouteScan.
Context `{BundleLib} `{Host}.
Import PortGroupListM.

Lemma leaves_ret {A} g (a : A) : leaves g (ret a).
Proof. intros G. apply keeps_ret. Qed.

Lemma leaves_get g : leaves g (get (S:=Locals) (E:=Category * GroupEvent)).
Proof. intros G L HL. exact HL. Qed.

Lemma leaves_bind {A B} g (m : Gather A) (k : A → Gather B) :
  leaves g m → (∀ a, leaves g (k a)) → leaves g (bind m k).
Proof. intros Hm Hk G. apply keeps_bind; [apply Hm|intros a; apply Hk]. Qed.

Lemma leaves_for_each {A} g (xs : list A) (body : A → Gather unit) :
  (∀ x, leaves g (body x)) → leaves g (for_each xs body).
Proof. intros Hb G. apply keeps_for_each. intros x _. apply Hb. Qed.

Lemma leaves_on g g' op : g' ≠ g → leaves g (on g' op).
Proof. intros Hne G L HL. by rewrite group_on_other. Qed.

Lemma leaves_new_Bundle g n inputs : leaves g (new_Bundle n inputs).
Proof. intros G L HL. exact HL. Qed.

Lemma leaves_make_bundle g p type inputs nm :
  leaves g (make_bundle_from_ports p type inputs nm).
Proof. intros G L HL. exact HL. Qed.

Ltac leaves_auto :=
  repeat first
    [ apply leaves_ret
    | apply leaves_get
    | apply leaves_new_Bundle
    | apply leaves_make_bundle
    | apply leaves_on; discriminate
    | apply leaves_for_each; intros ?
    | apply leaves_bind; [|intros ?]
    | match goal with
      | |- leaves _ (if ?b then _ else _) => destruct b
      | |- leaves _ (match ?x with _ => _ end) => destruct x
      end ].

Lemma leaves_add_bundle_from_ports g g' nb type inputs allow_dups :
  g' ≠ g → leaves g (add_bundle_from_ports nb type inputs allow_dups g').
Proof.
  intros Hne. unfold add_bundle_from_ports.
  apply leaves_bind; [apply leaves_make_bundle|intros b]. by apply leaves_on.
Qed.

Lemma leaves_add_bundles_runs g g' sep type inputs allow_dups p :
  g' ≠ g → ∀ nb cp, leaves g (add_bundles_runs sep p nb cp type inputs allow_dups g').
Proof.
  intros Hne. induction p as [|s p IH]; intros nb cp; simpl.
  - destruct (negb (bool_decide (nb = [])));
      [by apply leaves_add_bundle_from_ports|apply leaves_ret].
  - destruct (negb (prefix_to_sep sep s =? cp)%string && negb (bool_decide (nb = []))).
    + apply leaves_bind; [by apply leaves_add_bundle_from_ports|intros _; apply IH].
    + apply IH.
Qed.

Lemma leaves_add_bundles_for_ports g g' p type inputs allow_dups :
  g' ≠ g → leaves g (add_bundles_for_ports p type inputs allow_dups g').
Proof.
  intros Hne. unfold add_bundles_for_ports.
  destruct (Str.empty (separator p));
    [by apply leaves_add_bundle_from_ports|by apply leaves_add_bundles_runs].
Qed.

(** Everything after the loop over the routes leaves "Busses" and
    "Tracks" alone. *)
Lemma leaves_after_routes g session type inputs allow_dups use_session_bundles :
  g = Bus ∨ g = Track →
  leaves g (add_session_bundles session inputs allow_dups use_session_bundles ;;;
            add_program_bundles session type inputs ;;;
            add_io_plugs session type inputs ;;;
            add_extra_ports type inputs allow_dups ;;;
            if negb allow_dups then on System PortGroupM.remove_duplicates
            else ret tt).
Proof.
  intros [-> | ->].
  all: apply leaves_bind; [unfold add_session_bundles; leaves_auto|intros _].
  all: apply leaves_bind; [unfold add_program_bundles; leaves_auto|intros _].
  all: apply leaves_bind; [unfold add_io_plugs; leaves_auto|intros _].
  all: apply leaves_bind; [|intros _; leaves_auto].
  all: unfold add_extra_ports; apply leaves_bind; [apply leaves_get|intros L].
  all: repeat first [ apply leaves_add_bundles_for_ports; discriminate
                    | apply leaves_ret
                    | apply leaves_make_bundle
                    | apply leaves_on; discriminate
                    | apply leaves_for_each; intros ?
                    | apply leaves_bind; [|intros ?]
                    | match goal with
                      | |- leaves _ (if ?b then _ else _) => destruct b
                      end ].
Qed.

End RouteScan.

Section MonitorInputs.
Context `{BundleLib} `{Host}.
Import PortGroupListM.

(** The IOs collected for one route. *)
Lemma maybe_add_processors_origin inputs rt ps : ∀ st,
  (∀ p, p ∈ ps → p ∈ processors rt) →
  (∀ j, j ∈ st.1 → Spec.io_of_route inputs rt j) →
  ∀ j, j ∈ (fold_left (λ st wp, maybe_add_processor_to_list wp inputs st) ps st).1 →
       Spec.io_of_route inputs rt j.
Proof.
  induction ps as [|wp ps IH]; intros st Hps Hst; [exact Hst|].
  simpl. apply IH; [intros p Hp; apply Hps; by right|].
  unfold maybe_add_processor_to_list.
  destruct wp as [[i o|]|]; [|done..].
  destruct (if inputs then i else o) as [io'|] eqn:Eio; [|done].
  case_bool_decide; [|done]. cbn [fst].
  intros j [Hj|Hj%list_elem_of_singleton]%elem_of_app; [by apply Hst|]. subst j.
  right. exists i, o. split; [apply Hps; left|done].
Qed.

(** What the first loop of [gather] collects: for each route that is
    not skipped, IOs of that route. *)
Lemma scan_routes_origin inputs (routes rs : list Route) : ∀ acc,
  (∀ rt, rt ∈ rs → rt ∈ routes) →
  ∀ i, i ∈ scan_routes inputs rs acc →
    i ∈ acc
    ∨ (route i ∈ routes
       ∧ (inputs = true → is_monitor (route i) = false)
       ∧ ∀ j, j ∈ ios i → Spec.io_of_route inputs (route i) j).
Proof.
  induction rs as [|rt rs IH]; intros acc Hrs i; simpl; [by left|].
  destruct (inputs && is_monitor rt) eqn:Eskip.
  - apply IH. intros x Hx. apply Hrs. by right.
  - intros Hi. apply IH in Hi; [|intros x Hx; apply Hrs; by right].
    destruct Hi as [[Hi|Hi%list_elem_of_singleton]%elem_of_app|Hi]; [by left| |by right].
    right. subst i. cbn [route ios]. split; [apply Hrs; left|]. split.
    + intros ->. by destruct (is_monitor rt).
    + apply maybe_add_processors_origin; [done|]. cbn [fst].
      intros j ->%list_elem_of_singleton. by left.
Qed.

(** The scan of the input side is the scan without the monitor routes. *)
Lemma scan_routes_without_monitor rs : ∀ acc,
  scan_routes true rs acc
  = scan_routes true (List.filter (λ r, negb (is_monitor r)) rs) acc.
Proof.
  induction rs as [|rt rs IH]; intros acc; [done|]. simpl.
  destruct (is_monitor rt) eqn:E; simpl; rewrite ?E; apply IH.
Qed.

Lemma insert_by_order_elem x y l : y ∈ insert_by_order x l → y = x ∨ y ∈ l.
Proof.
  induction l as [|z l IH]; simpl.
  - intros ->%list_elem_of_singleton. by left.
  - destruct (order (route x) <? order (route z)).
    + intros [->|Hy]%elem_of_cons; [by left|by right].
    + intros [->|Hy]%elem_of_cons; [right; left|].
      destruct (IH Hy) as [->|Hl]; [by left|right; by right].
Qed.

Lemma sort_by_order_elem y l : y ∈ sort_by_order l → y ∈ l.
Proof.
  unfold sort_by_order.
  assert (Hgen : ∀ l acc, y ∈ fold_left (λ sorted x, insert_by_order x sorted) l acc →
                          y ∈ acc ∨ y ∈ l).
  { clear. induction l as [|x l IH]; intros acc; simpl; [by left|].
    intros Hy. destruct (IH _ Hy) as [Hy'|Hy']; [|right; by right].
    destruct (insert_by_order_elem _ _ _ Hy') as [->|?]; [right; left|by left]. }
  intros Hy. destruct (Hgen _ _ Hy) as [Hn|Hl]; [by inversion Hn|done].
Qed.

(** Adding the bundle of an IO of a route to the group of that route
    keeps "Busses" and "Tracks" made of such records. *)
Lemma route_groups_on_add inputs routes rt j hc c :
  rt ∈ routes → (inputs = true → is_monitor rt = false) →
  Spec.io_of_route inputs rt j →
  keeps (route_groups (Spec.taken_from inputs routes))
        (on (if is_track rt then Track else Bus)
            (PortGroupM.add_bundle_internal (io_bundle j) (Some j) hc c false)).
Proof.
  intros Hrt Hmon Hj L HL g Hg r.
  set (g' := if is_track rt then Track else Bus).
  destruct (decide (g' = g)) as [<-|Hne].
  - rewrite group_on_same.
    destruct (add_bundle_internal_cases (io_bundle j) (Some j) hc c false (group L g'))
      as [(_ & _ & ->)|(_ & ->)]; cbn [state_of fst snd _bundles]; [by apply HL|].
    intros [Hr|Hr%list_elem_of_singleton]%elem_of_app; [by apply HL|]. subst r.
    exists rt, j. done.
  - rewrite group_on_other by done. by apply HL.
Qed.

Lemma route_groups_on_other P g op :
  g ≠ Bus → g ≠ Track → keeps (route_groups P) (on g op).
Proof.
  intros Hb Ht L HL c Hc r.
  rewrite group_on_other; [by apply HL|]. destruct Hc; congruence.
Qed.

Lemma route_groups_leaves {A} P (m : Gather A) :
  leaves Bus m → leaves Track m → keeps (route_groups P) m.
Proof.
  intros Hb Ht L HL c [-> | ->] r.
  - rewrite (Hb (group L Bus) L eq_refl). apply HL. by left.
  - rewrite (Ht (group L Track) L eq_refl). apply HL. by right.
Qed.

(** The second loop of [gather], for one entry of the scan. *)
Lemma route_groups_add_route_bundles inputs routes type i :
  route i ∈ routes → (inputs = true → is_monitor (route i) = false) →
  (∀ j, j ∈ ios i → Spec.io_of_route inputs (route i) j) →
  keeps (route_groups (Spec.taken_from inputs routes)) (add_route_bundles type inputs i).
Proof.
  intros Hrt Hmon Hios. unfold add_route_bundles.
  apply keeps_bind.
  - apply keeps_for_each. intros j Hj.
    destruct (bool_decide (type = NIL)
              || (0 <? ChanCountOps.n (BundleOps.nchannels (io_bundle j)) type));
      [|apply keeps_ret].
    destruct (time_axis_view_colour (route i)); by apply route_groups_on_add; auto.
  - intros _. destruct inputs; [|apply keeps_ret].
    apply keeps_for_each. intros p _.
    destruct (sidechain p); [|apply keeps_ret].
    destruct (time_axis_view_colour (route i)); by apply route_groups_on_other.
Qed.

(** At the end of [gather], "Busses" and "Tracks" hold nothing but
    bundles of IOs of the routes that the scan did not skip. *)
Lemma fill_groups_route_groups session type inputs allow_dups use_session_bundles :
  route_groups (Spec.taken_from inputs (get_routes session))
    (state_of (fill_groups session type inputs allow_dups use_session_bundles
                 (mkLocals new_groups heap_start))).
Proof.
  unfold fill_groups.
  apply keeps_bind with (Inv := route_groups (Spec.taken_from inputs (get_routes session))).
  - apply keeps_for_each. intros i Hi%sort_by_order_elem.
    apply (scan_routes_origin inputs (get_routes session)) in Hi; [|done].
    destruct Hi as [Hi|(Hrt & Hmon & Hios)]; [by inversion Hi|].
    by apply route_groups_add_route_bundles.
  - intros _. apply route_groups_leaves; by apply leaves_after_routes; auto.
  - intros c Hc r Hr. exfalso. by destruct Hc as [-> | ->]; inversion Hr.
Qed.

End MonitorInputs.

(** C7.  On the input side the first loop of [gather] skips every route
    flagged as monitor: no entry of the scan belongs to such a route, and
    the groups that [gather] fills, and so the list and the notifications
    it leaves, are those of the session without its monitor routes.  Every
    record of "Tracks" and "Busses" holds the bundle of the input, or of
    the input of a processor, of a route that is not flagged as monitor. *)
Theorem gather_skips_monitor_inputs `{BundleLib} `{Host}
    (session : Session) (type : DataType) (allow_dups use_session_bundles : bool) :
  (∀ i, i ∈ PortGroupListM.scan_routes true (get_routes session) [] →
        is_monitor (PortGroupListM.route i) = false)
  ∧ (∀ L, PortGroupListM.fill_groups session type true allow_dups use_session_bundles L
          = PortGroupListM.fill_groups (Spec.without_monitor session) type true
              allow_dups use_session_bundles L)
  ∧ (∀ l, PortGroupListM.gather (Some session) type true allow_dups use_session_bundles l
          = PortGroupListM.gather (Some (Spec.without_monitor session)) type true
              allow_dups use_session_bundles l)
  ∧ (let L := state_of (PortGroupListM.fill_groups session type true allow_dups
                          use_session_bundles
                          (PortGroupListM.mkLocals PortGroupListM.new_groups heap_start)) in
     ∀ c, c = PortGroupListM.Bus ∨ c = PortGroupListM.Track →
       ∀ r, r ∈ _bundles (PortGroupListM.group L c) →
         ∃ rt j, rt ∈ get_routes session
                 ∧ is_monitor rt = false
                 ∧ Spec.io_of_route true rt j
                 ∧ io r = Some j
                 ∧ bundle r = io_bundle j
                 ∧ c = (if is_track rt then PortGroupListM.Track else PortGroupListM.Bus)).
Proof.
  assert (Hfill : ∀ L,
            PortGroupListM.fill_groups session type true allow_dups use_session_bundles L
            = PortGroupListM.fill_groups (Spec.without_monitor session) type true
                allow_dups use_session_bundles L).
  { intros L. unfold PortGroupListM.fill_groups.
    cbn [Spec.without_monitor get_routes].
    rewrite <- scan_routes_without_monitor. reflexivity. }
  split; [|split; [exact Hfill|split]].
  - intros i Hi.
    apply (scan_routes_origin true (get_routes session)) in Hi; [|done].
    destruct Hi as [Hi|(_ & Hmon & _)]; [by inversion Hi|by apply Hmon].
  - intros l. unfold PortGroupListM.gather. by rewrite Hfill.
  - intros L c Hc r Hr.
    destruct (fill_groups_route_groups session type true allow_dups use_session_bundles
                c Hc r Hr) as (rt & j & Hrt & Hmon & Hj & Hio & Hb & Hcat).
    exists rt, j. repeat split; auto.
Qed.

(** ** The calls of substr stay in range *)

Section SubstrInRange.
Context `{BundleLib} `{Host}.
Import PortGroupListM.

Lemma substring_0_length_le n : ∀ s,
  String.length (String.substring 0 n s) ≤ String.length s.
Proof.
  induction n as [|n IH]; intros [|a s]; simpl; try lia.
  specialize (IH s). lia.
Qed.

Lemma prefix_scan_all fp rest : ∀ j,
  prefix_scan fp rest j ≤ j + length rest
  ∧ (prefix_scan fp rest j = j + length rest →
     ∀ s, s ∈ rest → Str.substr s 0 (String.length fp) = fp).
Proof.
  induction rest as [|pj rest IH]; intros j; simpl.
  - split; [lia|]. intros _ s Hs. inversion Hs.
  - destruct (String.eqb_spec (Str.substr pj 0 (String.length fp)) fp) as [E|N]; simpl.
    + destruct (IH (S j)) as [Hle Hall]. split; [lia|].
      intros Heq s [->|Hs]%elem_of_cons; [done|]. apply Hall; [lia|done].
    + split; [lia|]. intros ?. lia.
Qed.

Lemma common_prefix_before_in_range p sep s :
  s ∈ p → String.length (common_prefix_before p sep) ≤ String.length s.
Proof.
  intros Hs. unfold common_prefix_before.
  destruct p as [|p0 rest]; [simpl; lia|]. cbv zeta.
  destruct (Str.found (Str.find_first_of p0 sep)); simpl negb; cbv iota; [|simpl; lia].
  set (fp := Str.substr p0 0 (Str.plus1 (Str.find_first_of p0 sep))).
  destruct (prefix_scan_all fp rest 1) as [_ Hall].
  destruct (Nat.eqb_spec (prefix_scan fp rest 1) (S (length rest))) as [E|N];
    simpl negb; cbv iota; [|simpl; lia].
  apply elem_of_cons in Hs as [->|Hs].
  - apply substring_0_length_le.
  - rewrite <- (Hall E s Hs) at 1. apply substring_0_length_le.
Qed.

(** [p[j].substr (pre.length ())] in [make_bundle_from_ports] never
    starts beyond the end of the name. *)
Lemma common_prefix_in_range p s :
  s ∈ p → String.length (common_prefix p) ≤ String.length s.
Proof.
  intros Hs. unfold common_prefix.
  destruct (Str.empty (common_prefix_before p "/")); simpl negb; cbv iota.
  - destruct (Str.empty (common_prefix_before p ":")); simpl negb; cbv iota.
    + simpl. lia.
    + by apply common_prefix_before_in_range.
  - by apply common_prefix_before_in_range.
Qed.

End SubstrInRange.

(** A session with a bus and the monitor bus, gathered for the inputs of
    any type on a new list: "Busses" holds the input of the bus only. *)
Lemma gather_skips_monitor_inputs_witness :
  let r := @PortGroupListM.gather Concrete.lib Concrete.bare_host
             (Some Concrete.monitored_session) NIL true false false PortGroupListM.new in
  map (λ g, (name g, map (λ x, b_name (bundle x)) (_bundles g))) (_groups (state_of r))
  = [("Busses", ["Bus 1 in"]); ("Ardour Misc", ["Sync"; "Sync"])]%string
  ∧ ∀ i, i ∈ @PortGroupListM.scan_routes true
               (get_routes Concrete.monitored_session) [] →
         is_monitor (PortGroupListM.route i) = false.
Proof.
  split; [vm_compute; reflexivity|].
  exact (proj1 (@gather_skips_monitor_inputs Concrete.lib Concrete.bare_host
                  Concrete.monitored_session NIL false false)).
Defined.

(* ===================================================================== *)
(** * Further properties of the code *)
(* ===================================================================== *)

(** ** Strings *)

Lemma substring_0_all s : String.substring 0 (String.length s) s = s.
Proof. induction s as [|b s IH]; simpl; [done|]. by rewrite IH. Qed.

Lemma substring_0_split n : ∀ s,
  String.append (String.substring 0 n s)
                (String.substring n (String.length s - n) s) = s.
Proof.
  induction n as [|n IH]; intros [|a s]; simpl; try reflexivity.
  - by rewrite substring_0_all.
  - change (String a (String.append (String.substring 0 n s)
                       (String.substring n (String.length s - n) s)) = String a s).
    f_equal. apply IH.
Qed.

Lemma substring_0_again n : ∀ s,
  String.substring 0 (String.length (String.substring 0 n s)) s
  = String.substring 0 n s.
Proof.
  induction n as [|n IH]; intros [|a s]; simpl; try reflexivity.
  by rewrite IH.
Qed.

Lemma substring_0_append pre : ∀ rest,
  String.substring 0 (String.length pre) (String.append pre rest) = pre.
Proof.
  induction pre as [|a pre IH]; intros rest; simpl.
  - by destruct rest.
  - by rewrite IH.
Qed.

(** A string that starts with [pre], said with [substr]. *)
Lemma substr_prefix_iff s pre :
  Str.substr s 0 (String.length pre) = pre ↔ ∃ rest, s = String.append pre rest.
Proof.
  unfold Str.substr. split.
  - intros E. exists (String.substring (String.length pre) (String.length s - String.length pre) s).
    pose proof (substring_0_split (String.length pre) s) as Hs.
    rewrite E in Hs. by symmetry.
  - intros [rest ->]. apply substring_0_append.
Qed.

Lemma substring_through_first c : ∀ s i,
  Str.find_char s c = Some i →
  String.substring 0 (S i) s
  = String.append (String.substring 0 i s) (String c EmptyString)
  ∧ ¬ Spec.contains c (String.substring 0 i s).
Proof.
  induction s as [|a s IH]; intros i; simpl; [done|].
  destruct (Ascii.eqb_spec a c) as [->|Hne].
  - intros [= <-]. split; [by destruct s|]. intros [j Hj]. by destruct j.
  - destruct (Str.find_char s c) as [i'|] eqn:E; [|done].
    intros [= <-]. destruct (IH i' eq_refl) as [Hs Hn]. split.
    + change (String.substring 0 (S (S i')) (String a s))
        with (String a (String.substring 0 (S i') s)).
      rewrite Hs. reflexivity.
    + intros [[|j] Hj]; simpl in Hj; [congruence|]. apply Hn. by exists j.
Qed.

(** ** The common prefix of a run of port names *)

Lemma prefix_scan_complete fp rest : ∀ j,
  (∀ s, s ∈ rest → Str.substr s 0 (String.length fp) = fp) →
  PortGroupListM.prefix_scan fp rest j = j + length rest.
Proof.
  induction rest as [|pj rest IH]; intros j Hall; simpl; [lia|].
  rewrite (Hall pj) by left. rewrite String.eqb_refl. simpl.
  rewrite IH; [lia|]. intros s Hs. apply Hall. by right.
Qed.

(** [common_prefix_before] for a one-character separator: nothing, or
    the first name up to its first separator, which then starts every
    name of the list. *)
Lemma common_prefix_before_cases p c :
  (PortGroupListM.common_prefix_before p (String c EmptyString) = EmptyString)
  ∨ (∃ p0 rest i,
       p = p0 :: rest
       ∧ Str.find_char p0 c = Some i
       ∧ PortGroupListM.common_prefix_before p (String c EmptyString)
         = String.substring 0 (S i) p0
       ∧ ∀ s, s ∈ p →
           Str.substr s 0 (String.length (String.substring 0 (S i) p0))
           = String.substring 0 (S i) p0).
Proof.
  unfold PortGroupListM.common_prefix_before.
  destruct p as [|p0 rest]; [by left|]. cbv zeta.
  rewrite find_first_of_single.
  destruct (Str.find_char p0 c) as [i|] eqn:Ei; simpl Str.found; simpl negb;
    cbv iota; [|by left].
  simpl Str.plus1. unfold Str.substr at 1 3.
  set (fp := String.substring 0 (S i) p0).
  destruct (prefix_scan_all fp rest 1) as [_ Hall].
  destruct (Nat.eqb_spec (PortGroupListM.prefix_scan fp rest 1) (S (length rest)))
    as [E|N]; simpl negb; cbv iota; [|by left].
  right. exists p0, rest, i. repeat split; try done.
  intros s [->|Hs]%elem_of_cons.
  - apply substring_0_again.
  - by apply Hall.
Qed.

Lemma common_prefix_before_complete c p0 rest i :
  Str.find_char p0 c = Some i →
  (∀ s, s ∈ rest → ∃ t, s = String.append (String.substring 0 (S i) p0) t) →
  PortGroupListM.common_prefix_before (p0 :: rest) (String c EmptyString)
  = String.substring 0 (S i) p0.
Proof.
  intros Hi Hrest. unfold PortGroupListM.common_prefix_before. cbv zeta.
  rewrite find_first_of_single, Hi. simpl Str.found. simpl negb. cbv iota.
  simpl Str.plus1. unfold Str.substr at 1 2.
  rewrite prefix_scan_complete.
  - simpl length. rewrite Nat.eqb_refl. reflexivity.
  - intros s Hs. apply substr_prefix_iff. by apply Hrest.
Qed.

(** The common prefix starts every name of the list. *)
Lemma common_prefix_starts (p : list string) (s : string) :
  s ∈ p → ∃ rest, s = String.append (PortGroupListM.common_prefix p) rest.
Proof.
  intros Hs.
  assert (Hne : ∀ c i p0, Str.find_char p0 c = Some i →
            Str.empty (String.substring 0 (S i) p0) = false).
  { intros c i p0 Hi. destruct (substring_through_first c p0 i Hi) as (E & _).
    rewrite E. by destruct (String.substring 0 i p0). }
  unfold PortGroupListM.common_prefix.
  destruct (common_prefix_before_cases p "/")
    as [E1|(p0 & rest & i & -> & Hi & E1 & Hall)]; rewrite E1.
  - simpl Str.empty. simpl negb. cbv iota.
    destruct (common_prefix_before_cases p ":")
      as [E2|(p0 & rest & i & -> & Hi & E2 & Hall)]; rewrite E2.
    + simpl. by exists s.
    + rewrite (Hne _ _ _ Hi). simpl negb. cbv iota.
      apply substr_prefix_iff. by apply Hall.
  - rewrite (Hne _ _ _ Hi). simpl negb. cbv iota.
    apply substr_prefix_iff. by apply Hall.
Qed.

(** X1.  The common prefix of a list of port names starts every name of
    the list.  It is empty, or it ends with its separator, '/' or ':',
    with no other occurrence of that separator before the end.  A first
    name with a '/', whose part up to the first '/' starts all the other
    names, gives that part. *)
Theorem common_prefix_shared (p : list string) :
  (∀ s, s ∈ p →
     ∃ rest, s = String.append (PortGroupListM.common_prefix p) rest)
  ∧ (PortGroupListM.common_prefix p = EmptyString
     ∨ ∃ stem c,
         (c = "/"%char ∨ c = ":"%char)
         ∧ PortGroupListM.common_prefix p = String.append stem (String c EmptyString)
         ∧ ¬ Spec.contains c stem)
  ∧ (∀ p0 rest i,
       p = p0 :: rest →
       Str.find_char p0 "/" = Some i →
       (∀ s, s ∈ rest → ∃ t, s = String.append (String.substring 0 (S i) p0) t) →
       PortGroupListM.common_prefix p = String.substring 0 (S i) p0).
Proof.
  assert (Hsplit : ∀ c i p0, Str.find_char p0 c = Some i →
            ∃ stem, String.substring 0 (S i) p0 = String.append stem (String c EmptyString)
                    ∧ ¬ Spec.contains c stem).
  { intros c i p0 Hi. destruct (substring_through_first c p0 i Hi) as [? ?]. eauto. }
  unfold PortGroupListM.common_prefix.
  destruct (common_prefix_before_cases p "/")
    as [E1|(p0 & rest & i & -> & Hi & E1 & Hall)]; rewrite E1.
  - simpl Str.empty. simpl negb. cbv iota.
    destruct (common_prefix_before_cases p ":")
      as [E2|(p0 & rest & i & -> & Hi & E2 & Hall)]; rewrite E2.
    + simpl. split; [intros s _; by exists s|]. split; [by left|].
      intros p0 rest i -> Hi Hrest. exfalso.
      rewrite (common_prefix_before_complete _ _ _ _ Hi Hrest) in E1.
      destruct (Hsplit "/"%char i p0 Hi) as (stem & Hstem & _).
      rewrite Hstem in E1. by destruct stem.
    + destruct (Hsplit ":"%char i p0 Hi) as (stem & Hstem & Hn).
      assert (Hne : Str.empty (String.substring 0 (S i) p0) = false)
        by (rewrite Hstem; by destruct stem).
      rewrite Hne. simpl negb. cbv iota. split; [|split].
      * intros s Hs. apply substr_prefix_iff. by apply Hall.
      * right. exists stem, ":"%char. auto.
      * intros p1 rest' j [= <- <-] Hj Hrest. exfalso.
        rewrite (common_prefix_before_complete _ _ _ _ Hj Hrest) in E1.
        destruct (Hsplit "/"%char j p0 Hj) as (stem' & Hstem' & _).
        rewrite Hstem' in E1. by destruct stem'.
  - destruct (Hsplit "/"%char i p0 Hi) as (stem & Hstem & Hn).
    assert (Hne : Str.empty (String.substring 0 (S i) p0) = false)
      by (rewrite Hstem; by destruct stem).
    rewrite Hne. simpl negb. cbv iota. split; [|split].
    + intros s Hs. apply substr_prefix_iff. by apply Hall.
    + right. exists stem, "/"%char. auto.
    + intros p1 rest' j [= <- <-] Hj _. congruence.
Qed.

(** Three names under "system:capture/". *)
Lemma common_prefix_shared_witness :
  PortGroupListM.common_prefix
    ["system:capture/1"; "system:capture/2"; "system:capture/10"]%string
  = "system:capture/"%string.
Proof.
  apply (proj2 (proj2 (common_prefix_shared
           ["system:capture/1"; "system:capture/2"; "system:capture/10"]%string))
           "system:capture/1"%string
           ["system:capture/2"; "system:capture/10"]%string 14).
  - reflexivity.
  - reflexivity.
  - intros s Hs. apply substr_prefix_iff.
    repeat (apply elem_of_cons in Hs as [->|Hs]; [reflexivity|]). inversion Hs.
Defined.

(** ** The bundle made from a run of port names *)

Section MadeBundle.
Context `{Host}.
Import PortGroupListM.

(** The loop of [make_bundle_from_ports], started at the end of the
    channels of [b]: each name appends one channel with that one port. *)
Lemma add_port_channels_run pre type p : ∀ j b,
  j = length (b_channel b) →
  add_port_channels pre type p j b =
    mkBundle (b_addr b) (b_name b) (ports_are_inputs b)
      (b_channel b
       ++ map (λ s, mkChannel
                      (if negb (Str.empty (get_pretty_name_by_name s))
                       then get_pretty_name_by_name s
                       else Str.substr_from s (String.length pre))
                      type [s]) p).
Proof.
  assert (Hlast : ∀ (f : Channel → Channel) l x,
            alter f (length l) (l ++ [x]) = l ++ [f x]).
  { intros f l x. rewrite alter_app_r_alt by lia. by rewrite Nat.sub_diag. }
  induction p as [|pj p IH]; intros j b Hj; simpl.
  - rewrite app_nil_r. by destruct b.
  - subst j. rewrite IH.
    + cbn [BundleOps.set_port BundleOps.add_channel b_addr b_name ports_are_inputs b_channel].
      rewrite Hlast, <- app_assoc. reflexivity.
    + cbn [BundleOps.set_port BundleOps.add_channel b_channel].
      rewrite Hlast, !length_app. simpl. lia.
Qed.

Lemma nchannels_uniform type chs : ∀ c,
  type ≠ NIL → (∀ ch, ch ∈ chs → ch_type ch = type) →
  fold_left (λ c ch, ChanCountOps.set c (ch_type ch) (S (ChanCountOps.n c (ch_type ch))))
            chs c
  = ChanCountOps.set c type (ChanCountOps.n c type + length chs).
Proof.
  induction chs as [|ch chs IH]; intros c Ht Hall; simpl.
  - rewrite Nat.add_0_r. by destruct type, c.
  - rewrite (Hall ch) by left. rewrite IH; [|done|intros x Hx; apply Hall; by right].
    destruct type, c; simpl; try done; f_equal; lia.
Qed.

(** The direction and the ports of the bundle that
    [make_bundle_from_ports] returns. *)
Lemma made_bundle_channels p type inputs nm L :
  ports_are_inputs (value_of (make_bundle_from_ports p type inputs nm L)) = inputs
  ∧ map ch_ports (b_channel (value_of (make_bundle_from_ports p type inputs nm L)))
    = map (λ s, [s]) p.
Proof.
  unfold make_bundle_from_ports. rewrite run_bind.
  cbn [new_Bundle ret value_of state_of trace_of fst snd].
  rewrite add_port_channels_run
    by (by destruct (negb (Str.empty nm)), (negb (Str.empty (common_prefix p)))).
  cbn [ports_are_inputs b_channel].
  split.
  - by destruct (negb (Str.empty nm)), (negb (Str.empty (common_prefix p))).
  - assert (b_channel (if negb (Str.empty nm)
                       then BundleOps.set_name
                              (BundleOps.new (heap_top L) EmptyString inputs) nm
                       else if negb (Str.empty (common_prefix p))
                            then BundleOps.set_name
                                   (BundleOps.new (heap_top L) EmptyString inputs)
                                   (Str.substr (common_prefix p) 0
                                      (String.length (common_prefix p) - 1))
                            else BundleOps.new (heap_top L) EmptyString inputs)
            = []) as ->
      by (by destruct (negb (Str.empty nm)), (negb (Str.empty (common_prefix p)))).
    simpl app. by rewrite map_map.
Qed.

End MadeBundle.

(** X2.  [make_bundle_from_ports] takes one address from the heap and
    touches no group.  The bundle it returns has the direction asked
    for and one channel for each name, in the order of the names, which
    has the type asked for and exactly that one port; so the channel
    count of a real type is the number of names, and the bundle offers
    each of the names alone. *)
Theorem make_bundle_from_ports_channels `{Host}
    (p : list string) (type : DataType) (inputs : bool) (bundle_name : string)
    (L : PortGroupListM.Locals) :
  let r := PortGroupListM.make_bundle_from_ports p type inputs bundle_name L in
  let b := value_of r in
  b_addr b = PortGroupListM.heap_top L
  ∧ ports_are_inputs b = inputs
  ∧ PortGroupListM.heap_top (state_of r) = S (PortGroupListM.heap_top L)
  ∧ PortGroupListM.group (state_of r) = PortGroupListM.group L
  ∧ trace_of r = []
  ∧ map ch_ports (b_channel b) = map (λ s, [s]) p
  ∧ (∀ ch, ch ∈ b_channel b → ch_type ch = type)
  ∧ (type ≠ NIL →
     ChanCountOps.n (BundleOps.nchannels b) type = length p
     ∧ ChanCountOps.n_total (BundleOps.nchannels b) = length p)
  ∧ (∀ s, s ∈ p → BundleOps.offers_port_alone b s = true).
Proof.
  intros r b. subst r b. rewrite make_bundle_from_ports_run.
  cbn [value_of state_of trace_of fst snd PortGroupListM.heap_top PortGroupListM.group].
  rewrite add_port_channels_run
    by (by destruct (negb (Str.empty bundle_name)),
                    (negb (Str.empty (PortGroupListM.common_prefix p)))).
  assert (Hch : ∀ b0 : Bundle, b_channel b0 = [] →
            b_channel (mkBundle (b_addr b0) (b_name b0) (ports_are_inputs b0)
              (b_channel b0 ++ map (λ s, mkChannel
                  (if negb (Str.empty (get_pretty_name_by_name s))
                   then get_pretty_name_by_name s
                   else Str.substr_from s (String.length (PortGroupListM.common_prefix p)))
                  type [s]) p))
            = map (λ s, mkChannel
                  (if negb (Str.empty (get_pretty_name_by_name s))
                   then get_pretty_name_by_name s
                   else Str.substr_from s (String.length (PortGroupListM.common_prefix p)))
                  type [s]) p).
  { intros b0 E. cbn [b_channel]. by rewrite E. }
  set (b0 := if negb (Str.empty bundle_name) then _ else _).
  assert (E0 : b_channel b0 = [] ∧ b_addr b0 = PortGroupListM.heap_top L
               ∧ ports_are_inputs b0 = inputs).
  { subst b0. by destruct (negb (Str.empty bundle_name)),
                          (negb (Str.empty (PortGroupListM.common_prefix p))). }
  destruct E0 as (Ec & Ea & Ei).
  assert (Htypes : ∀ ch, ch ∈ map (λ s, mkChannel
                  (if negb (Str.empty (get_pretty_name_by_name s))
                   then get_pretty_name_by_name s
                   else Str.substr_from s (String.length (PortGroupListM.common_prefix p)))
                  type [s]) p → ch_type ch = type).
  { intros ch Hin. apply list_elem_of_In, in_map_iff in Hin as (s & <- & _). done. }
  split; [exact Ea|]. split; [exact Ei|]. split; [done|]. split; [done|]. split; [done|].
  unfold BundleOps.nchannels, BundleOps.offers_port_alone. rewrite (Hch b0 Ec).
  split; [by rewrite map_map|]. split; [exact Htypes|]. split.
  - intros Ht. rewrite (nchannels_uniform type) by done. rewrite length_map.
    destruct type; done.
  - intros s Hs. apply existsb_exists.
    exists (mkChannel
              (if negb (Str.empty (get_pretty_name_by_name s))
               then get_pretty_name_by_name s
               else Str.substr_from s (String.length (PortGroupListM.common_prefix p)))
              type [s]).
    split; [|by apply bool_decide_eq_true].
    apply in_map_iff. exists s. split; [done|by apply list_elem_of_In].
Qed.

(** Two audio ports on a host without pretty names. *)
Lemma make_bundle_from_ports_channels_witness :
  let L := PortGroupListM.mkLocals (@PortGroupListM.new_groups Concrete.bare_host) 7 in
  let b := value_of (@PortGroupListM.make_bundle_from_ports Concrete.bare_host
                       ["a/1"; "a/2"]%string AUDIO true EmptyString L) in
  ChanCountOps.n (BundleOps.nchannels b) AUDIO = 2
  ∧ BundleOps.offers_port_alone b "a/2" = true.
Proof.
  intros L b.
  destruct (@make_bundle_from_ports_channels Concrete.bare_host
              ["a/1"; "a/2"]%string AUDIO true EmptyString L)
    as (_ & _ & _ & _ & _ & _ & _ & Hn & Ho).
  split.
  - apply Hn. discriminate.
  - apply Ho. right. left.
Defined.

Lemma substring_drop_last stem c :
  Str.substr (String.append stem (String c EmptyString)) 0
    (String.length (String.append stem (String c EmptyString)) - 1) = stem.
Proof.
  unfold Str.substr.
  assert (String.length (String.append stem (String c EmptyString)) - 1 = String.length stem)
    as ->.
  { induction stem as [|a stem IH]; simpl in *; [done|].
    destruct (String.append stem (String c EmptyString)) eqn:E; simpl in *.
    - by destruct stem.
    - lia. }
  apply substring_0_append.
Qed.

(** X3.  The bundle of [make_bundle_from_ports] is named by
    [bundle_name] when that is given, and otherwise after the common
    prefix of the names without its final separator (it has no name when
    there is no common prefix).  A channel is named by the pretty name of
    its port when the engine has one, and otherwise by the port name
    without the common prefix: the common prefix followed by that channel
    name is the port name again. *)
Theorem make_bundle_from_ports_names `{Host}
    (p : list string) (type : DataType) (inputs : bool) (bundle_name : string)
    (L : PortGroupListM.Locals) :
  let b := value_of (PortGroupListM.make_bundle_from_ports p type inputs bundle_name L) in
  let pre := PortGroupListM.common_prefix p in
  (bundle_name ≠ EmptyString → b_name b = bundle_name)
  ∧ (bundle_name = EmptyString → pre = EmptyString → b_name b = EmptyString)
  ∧ (bundle_name = EmptyString →
     ∀ stem c, pre = String.append stem (String c EmptyString) → b_name b = stem)
  ∧ map ch_name (b_channel b)
    = map (λ s, if Str.empty (get_pretty_name_by_name s)
                then Str.substr_from s (String.length pre)
                else get_pretty_name_by_name s) p
  ∧ (∀ s, s ∈ p → String.append pre (Str.substr_from s (String.length pre)) = s).
Proof.
  intros b pre. subst b. rewrite make_bundle_from_ports_run. cbn [value_of fst].
  fold pre.
  rewrite add_port_channels_run
    by (by destruct (negb (Str.empty bundle_name)), (negb (Str.empty pre))).
  cbn [b_name b_channel].
  split; [|split; [|split; [|split]]].
  - intros Hn. by destruct bundle_name.
  - intros -> ->. reflexivity.
  - intros -> stem c E. rewrite E. simpl Str.empty at 1. cbn [negb].
    assert (Str.empty (String.append stem (String c EmptyString)) = false) as ->
      by (by destruct stem).
    cbn [negb BundleOps.set_name b_name]. apply substring_drop_last.
  - assert (b_channel (if negb (Str.empty bundle_name)
                       then BundleOps.set_name
                              (BundleOps.new (PortGroupListM.heap_top L) EmptyString inputs)
                              bundle_name
                       else if negb (Str.empty pre)
                            then BundleOps.set_name
                                   (BundleOps.new (PortGroupListM.heap_top L) EmptyString inputs)
                                   (Str.substr pre 0 (String.length pre - 1))
                            else BundleOps.new (PortGroupListM.heap_top L) EmptyString inputs)
            = []) as ->
      by (by destruct (negb (Str.empty bundle_name)), (negb (Str.empty pre))).
    simpl app. rewrite map_map. apply map_ext. intros s. cbn [ch_name].
    by destruct (Str.empty (get_pretty_name_by_name s)).
  - intros s Hs.
    destruct (common_prefix_starts p s Hs) as [rest E]. fold pre in E.
    unfold Str.substr_from, Str.substr.
    pose proof (substring_0_split (String.length pre) s) as Hsplit.
    rewrite E in Hsplit at 1. rewrite substring_0_append in Hsplit. exact Hsplit.
Qed.

(** Two ports under "system:", the second with a common prefix "system:". *)
Lemma make_bundle_from_ports_names_witness :
  let L := PortGroupListM.mkLocals (@PortGroupListM.new_groups Concrete.bare_host) 7 in
  let b := value_of (@PortGroupListM.make_bundle_from_ports Concrete.bare_host
                       ["system:playback_1"; "system:playback_2"]%string
                       AUDIO false EmptyString L) in
  b_name b = "system"%string
  ∧ map ch_name (b_channel b) = ["playback_1"; "playback_2"]%string.
Proof.
  intros L b.
  destruct (@make_bundle_from_ports_names Concrete.bare_host
              ["system:playback_1"; "system:playback_2"]%string
              AUDIO false EmptyString L) as (_ & _ & Hn & Hc & _).
  split.
  - apply (Hn eq_refl "system"%string ":"%char). reflexivity.
  - etrans; [exact Hc|reflexivity].
Defined.

(** X4.  [port_has_prefix (n, p)] holds exactly when the name [n] is [p]
    followed by something, possibly nothing: every name has the empty
    prefix, and no name has a prefix longer than itself. *)
Theorem port_has_prefix_iff (n p : string) :
  (PortGroupListM.port_has_prefix n p = true ↔ ∃ rest, n = String.append p rest)
  ∧ PortGroupListM.port_has_prefix n EmptyString = true
  ∧ (String.length n < String.length p → PortGroupListM.port_has_prefix n p = false).
Proof.
  unfold PortGroupListM.port_has_prefix.
  assert (Hiff : (Str.substr n 0 (String.length p) =? p)%string = true
                 ↔ ∃ rest, n = String.append p rest).
  { rewrite String.eqb_eq. apply substr_prefix_iff. }
  split; [exact Hiff|]. split.
  - simpl. unfold Str.substr. by destruct n.
  - intros Hlt. apply not_true_iff_false. intros [rest ->]%Hiff.
    assert (Hlen : ∀ a b, String.length (String.append a b)
                          = String.length a + String.length b).
    { clear. induction a as [|x a IH]; intros b; simpl; [done|]. by rewrite IH. }
    rewrite Hlen in Hlt. lia.
Qed.

Lemma port_has_prefix_iff_witness :
  PortGroupListM.port_has_prefix "ardour" "ardour:" = false.
Proof.
  apply (proj2 (proj2 (port_has_prefix_iff "ardour" "ardour:"))).
  simpl. lia.
Defined.

(** ** What bundle synthesis adds to a group *)

Section SynthesisAdds.
Context `{BundleLib} `{Host}.
Import PortGroupListM.

Lemma concat_group_runs key p : concat (Spec.group_runs key p) = p.
Proof.
  induction p as [|s p IH]; [done|].
  destruct p as [|s' p']; [done|].
  destruct (group_runs_cons key s' p') as (run & runs & E).
  change (Spec.group_runs key (s :: s' :: p'))
    with (match Spec.group_runs key (s' :: p') with
          | (t :: run) :: runs =>
              if String.eqb (key s) (key t) then (s :: t :: run) :: runs
              else [s] :: (t :: run) :: runs
          | _ => [[s]]
          end).
  rewrite E in IH |- *.
  destruct (String.eqb (key s) (key s')); simpl in *; by rewrite IH.
Qed.

Lemma made_bundle_ports p type inputs nm L :
  Spec.bundle_ports (value_of (make_bundle_from_ports p type inputs nm L)) = p
  ∧ ∀ ch, ch ∈ b_channel (value_of (make_bundle_from_ports p type inputs nm L)) →
          ∃ s, ch_ports ch = [s].
Proof.
  destruct (made_bundle_channels p type inputs nm L) as (_ & Hp).
  split.
  - unfold Spec.bundle_ports. rewrite Hp. clear. induction p; simpl; congruence.
  - intros ch Hin.
    assert (In (ch_ports ch) (map ch_ports
              (b_channel (value_of (make_bundle_from_ports p type inputs nm L)))))
      as Hin' by (apply in_map; by apply list_elem_of_In).
    rewrite Hp in Hin'. apply in_map_iff in Hin' as (s & <- & _). eauto.
Qed.

Lemma appended_to_trans g L1 L2 L3 new1 new2 :
  appended_to g L1 L2 new1 → appended_to g L2 L3 new2 →
  appended_to g L1 L3 (new1 ++ new2).
Proof.
  intros (E1 & O1 & H1) (E2 & O2 & H2). split; [|split].
  - by rewrite E2, E1, app_assoc.
  - intros c Hc. by rewrite O2, O1.
  - lia.
Qed.

(** One bundle made from the names [nb] and added to [g]: nothing is
    appended when the group refuses a duplicate, else one record whose
    ports are the names. *)
Lemma add_bundle_from_ports_appends nb type inputs allow_dups g L :
  ∃ new,
    appended_to g L (state_of (add_bundle_from_ports nb type inputs allow_dups g L)) new
    ∧ (new = [] ∧ allow_dups = false
       ∨ ∃ r, new = [r]
              ∧ Spec.bundle_ports (bundle r) = nb
              ∧ (∀ ch, ch ∈ b_channel (bundle r) → ∃ s, ch_ports ch = [s])
              ∧ ports_are_inputs (bundle r) = inputs
              ∧ io r = None).
Proof.
  rewrite add_bundle_from_ports_run.
  set (b := value_of (make_bundle_from_ports nb type inputs EmptyString L)).
  set (L1 := mkLocals (group L) (S (heap_top L))).
  unfold PortGroupM.add_bundle.
  destruct (add_bundle_internal_cases b None false Color_default allow_dups (group L1 g))
    as [(Had & _ & E)|(_ & E)].
  - exists []. split; [|by left].
    split; [|split].
    + rewrite group_on_same, E. cbn. by rewrite app_nil_r.
    + intros c Hc. by rewrite group_on_other.
    + unfold on. cbn. lia.
  - exists [mkBundleRecord b None Color_default false]. split.
    + split; [|split].
      * rewrite group_on_same, E. reflexivity.
      * intros c Hc. by rewrite group_on_other.
      * unfold on. cbn. lia.
    + right. eexists. split; [done|]. cbn [bundle io].
      destruct (made_bundle_ports nb type inputs EmptyString L) as [Hp Hs].
      destruct (made_bundle_channels nb type inputs EmptyString L) as (Hi & _).
      done.
Qed.

(** One bundle for each of the [runs]. *)
Lemma add_runs_appends type inputs allow_dups g runs : ∀ L,
  ∃ new,
    appended_to g L
      (state_of (for_each runs
                   (λ nb, add_bundle_from_ports nb type inputs allow_dups g) L)) new
    ∧ sublist (map (λ r, Spec.bundle_ports (bundle r)) new) runs
    ∧ (allow_dups = true → map (λ r, Spec.bundle_ports (bundle r)) new = runs)
    ∧ (∀ r, r ∈ new →
         (∀ ch, ch ∈ b_channel (bundle r) → ∃ s, ch_ports ch = [s])
         ∧ ports_are_inputs (bundle r) = inputs
         ∧ io r = None).
Proof.
  induction runs as [|nb runs IH]; intros L.
  - exists []. split; [|split; [|split]]; try done.
    + split; [by rewrite app_nil_r|]. split; [done|]. cbn. lia.
    + intros r Hr. inversion Hr.
  - simpl for_each. rewrite state_bind.
    destruct (add_bundle_from_ports_appends nb type inputs allow_dups g L)
      as (new1 & Ha1 & Hn1).
    set (L1 := state_of (add_bundle_from_ports nb type inputs allow_dups g L)) in *.
    destruct (IH L1) as (new2 & Ha2 & Hs2 & Hd2 & Hr2).
    exists (new1 ++ new2). split; [by eapply appended_to_trans|].
    destruct Hn1 as [[-> Had]|(r & -> & Hp & Hch & Hi & Hio)]; simpl.
    + split; [by apply sublist_cons|]. split; [intros ->; done|done].
    + split; [rewrite Hp; by apply sublist_skip|].
      split; [intros Had; by rewrite Hp, Hd2|].
      intros x [->|Hx]%elem_of_cons; [done|by apply Hr2].
Qed.

(** [add_bundles_for_ports] makes one bundle for each of a sequence of
    runs that the names fall into. *)
Lemma add_bundles_for_ports_as_runs p type inputs allow_dups g L :
  ∃ runs, concat runs = p
          ∧ add_bundles_for_ports p type inputs allow_dups g L
            = for_each runs
                (λ nb, add_bundle_from_ports nb type inputs allow_dups g) L.
Proof.
  unfold add_bundles_for_ports.
  destruct (separator_cases p) as [(Hs & ->)|[(Hns & Hc & ->)|(Hns & Hnc & ->)]];
    cbn [Str.empty].
  - eexists. split; [apply concat_group_runs|]. by rewrite add_bundles_runs_spec.
  - eexists. split; [apply concat_group_runs|]. by rewrite add_bundles_runs_spec.
  - exists [p]. split; [simpl; by rewrite app_nil_r|].
    simpl for_each. by rewrite bind_ret_r.
Qed.

End SynthesisAdds.

(** X5.  Whatever the names, [add_bundles_for_ports] only appends
    records to its target group and leaves the other groups as they are;
    every record it appends holds a bundle of the direction asked for,
    without an owner, whose channels have one port each, all among the
    names given.  When duplicates are allowed no name is lost or
    repeated: the ports of the appended bundles, in order, are the names
    given, and the group then has each of them ([has_port]). *)
Theorem add_bundles_for_ports_appends `{BundleLib} `{Host}
    (p : list string) (type : DataType) (inputs allow_dups : bool)
    (g : PortGroupListM.Category) (L : PortGroupListM.Locals) :
  let L' := state_of (PortGroupListM.add_bundles_for_ports p type inputs allow_dups g L) in
  ∃ new,
    _bundles (PortGroupListM.group L' g) = _bundles (PortGroupListM.group L g) ++ new
    ∧ (∀ c, c ≠ g → PortGroupListM.group L' c = PortGroupListM.group L c)
    ∧ (∀ r, r ∈ new →
         (∀ ch, ch ∈ b_channel (bundle r) → ∃ s, ch_ports ch = [s] ∧ s ∈ p)
         ∧ ports_are_inputs (bundle r) = inputs
         ∧ io r = None)
    ∧ (allow_dups = true →
       concat (map (λ r, Spec.bundle_ports (bundle r)) new) = p
       ∧ ∀ s, s ∈ p → PortGroupM.has_port (PortGroupListM.group L' g) s = true).
Proof.
  intros L'.
  assert (Hruns : ∃ runs, concat runs = p ∧
            L' = state_of (for_each runs
                   (λ nb, PortGroupListM.add_bundle_from_ports nb type inputs allow_dups g) L)).
  { subst L'.
    destruct (add_bundles_for_ports_as_runs p type inputs allow_dups g L)
      as (runs & Hcat & ->).
    by exists runs. }
  destruct Hruns as (runs & Hcat & ->).
  destruct (add_runs_appends type inputs allow_dups g runs L)
    as (new & (Eg & Ho & _) & Hsub & Hall & Hrec).
  assert (Hports : ∀ r ch s, r ∈ new → ch ∈ b_channel (bundle r) → ch_ports ch = [s] → s ∈ p).
  { intros r ch s Hr Hch Hs. rewrite <- Hcat.
    apply list_elem_of_In, in_concat.
    exists (Spec.bundle_ports (bundle r)). split.
    - apply list_elem_of_In. eapply elem_of_sublist; [|exact Hsub].
      apply list_elem_of_In.
      apply (in_map (λ r, Spec.bundle_ports (bundle r))). by apply list_elem_of_In.
    - unfold Spec.bundle_ports. apply in_concat. exists (ch_ports ch). split.
      + apply in_map. by apply list_elem_of_In.
      + rewrite Hs. by left. }
  exists new. split; [exact Eg|]. split; [exact Ho|]. split.
  - intros r Hr. destruct (Hrec r Hr) as (Hch & Hi & Hio). split; [|done].
    intros ch Hin. destruct (Hch ch Hin) as [s Hs]. exists s. split; [done|]. eauto.
  - intros Had. specialize (Hall Had). split; [by rewrite Hall|].
    intros s Hs. unfold PortGroupM.has_port. rewrite Eg, existsb_app.
    apply orb_true_iff. right. apply existsb_exists.
    rewrite <- Hcat, <- Hall in Hs.
    apply list_elem_of_In, in_concat in Hs as (ports & Hin & Hs).
    apply in_map_iff in Hin as (r & <- & Hr).
    exists r. split; [done|].
    unfold Spec.bundle_ports in Hs. apply in_concat in Hs as (cp & Hcp & Hs).
    apply in_map_iff in Hcp as (ch & <- & Hch).
    destruct (proj1 (Hrec r (proj2 (list_elem_of_In _ _) Hr)) ch
                (proj2 (list_elem_of_In _ _) Hch)) as [s' Hs'].
    rewrite Hs' in Hs. destruct Hs as [->|[]].
    unfold BundleOps.offers_port_alone. apply existsb_exists.
    exists ch. split; [done|]. by apply bool_decide_eq_true.
Qed.

(** Five hardware ports in two runs, duplicates allowed. *)
Lemma add_bundles_for_ports_appends_witness :
  let L := PortGroupListM.mkLocals (@PortGroupListM.new_groups Concrete.bare_host) 0 in
  let p := ["hw/1"; "hw/2"; "usb/1"]%string in
  let L' := state_of (@PortGroupListM.add_bundles_for_ports Concrete.lib Concrete.bare_host
                        p AUDIO true true PortGroupListM.System L) in
  map (λ r, Spec.bundle_ports (bundle r))
      (_bundles (PortGroupListM.group L' PortGroupListM.System))
  = [["hw/1"; "hw/2"]; ["usb/1"]]%string
  ∧ ∀ s, s ∈ p → PortGroupM.has_port (PortGroupListM.group L' PortGroupListM.System) s = true.
Proof.
  intros L p L'. split; [vm_compute; reflexivity|].
  destruct (@add_bundles_for_ports_appends Concrete.lib Concrete.bare_host
              p AUDIO true true PortGroupListM.System L) as (new & _ & _ & _ & Hall).
  exact (proj2 (Hall eq_refl)).
Defined.

(** ** PortGroup: records without the same ports *)

Section NoSamePorts.
Context `{BundleLib}.
Import PortGroupM.

Lemma find_same_ports_None b bs :
  find_same_ports b bs = None →
  ∀ x, x ∈ bs → has_same_ports b (bundle x) = false.
Proof.
  intros Hn x Hx. apply not_true_iff_false. intros Hs.
  assert (is_Some (find_same_ports b bs)) as [? E]
    by (apply find_same_ports_Some; eauto).
  congruence.
Qed.

Lemma no_same_ports_sublist (l' l : list BundleRecord) :
  sublist l' l → Spec.no_same_ports l → Spec.no_same_ports l'.
Proof.
  intros Hsub Hl pre r post ->.
  apply sublist_app_l in Hsub as (k1 & k2 & -> & Hpre & Hrest).
  apply sublist_cons_l in Hrest as (k3 & k4 & -> & _).
  intros x Hx. apply (Hl (k1 ++ k3) r k4); [by rewrite <- app_assoc|].
  apply elem_of_app. left. by eapply elem_of_sublist.
Qed.

Lemma no_same_ports_snoc bs r :
  Spec.no_same_ports bs →
  (∀ x, x ∈ bs → has_same_ports (bundle r) (bundle x) = false) →
  Spec.no_same_ports (bs ++ [r]).
Proof.
  intros Hbs Hr pre y post E.
  destruct post as [|z post _] using rev_ind.
  - apply app_inj_tail in E as [-> ->]. exact Hr.
  - rewrite app_comm_cons, app_assoc in E. apply app_inj_tail in E as [-> _].
    by apply (Hbs pre y post).
Qed.

Lemma remove_duplicates_from_sublist rest : ∀ done,
  ∃ kept, remove_duplicates_from done rest = done ++ kept ∧ sublist kept rest.
Proof.
  induction rest as [|i tmp IH]; intros done; simpl.
  - exists []. by rewrite app_nil_r.
  - destruct (to_remove i (done ++ i :: tmp)).
    + destruct (IH done) as (kept & -> & Hk). exists kept. split; [done|by apply sublist_cons].
    + destruct (IH (done ++ [i])) as (kept & -> & Hk). exists (i :: kept).
      rewrite <- app_assoc. split; [done|by apply sublist_skip].
Qed.

End NoSamePorts.

(** X6.  A group to which bundles are only ever added without
    duplicates keeps the invariant that no record has the same ports as a
    record before it: a new or cleared group has it, and [add_bundle]
    with [allow_dups] false, [remove_bundle] and [remove_duplicates] keep
    it. *)
Theorem no_same_ports_kept `{BundleLib} (g : PortGroup) :
  Spec.no_same_ports (_bundles (PortGroupM.new (name g)))
  ∧ Spec.no_same_ports (_bundles (state_of (PortGroupM.clear g)))
  ∧ (Spec.no_same_ports (_bundles g) →
     (∀ b io hc c,
        Spec.no_same_ports
          (_bundles (state_of (PortGroupM.add_bundle_internal b io hc c false g))))
     ∧ (∀ b, Spec.no_same_ports (_bundles (state_of (PortGroupM.remove_bundle b g))))
     ∧ Spec.no_same_ports (_bundles (state_of (PortGroupM.remove_duplicates g)))).
Proof.
  assert (Hnil : Spec.no_same_ports []).
  { intros pre r post E. by destruct pre. }
  split; [exact Hnil|]. split; [by rewrite clear_run|].
  intros Hg. split; [|split].
  - intros b io' hc c.
    destruct (add_bundle_internal_cases b io' hc c false g)
      as [(_ & _ & ->)|([?|Hn] & ->)]; cbn [state_of fst snd _bundles]; [done|done|].
    apply no_same_ports_snoc; [done|]. cbn [bundle].
    by apply find_same_ports_None.
  - intros b.
    destruct (remove_bundle_cases b g)
      as [(_ & ->)|(pre & x & post & Hb & _ & _ & ->)];
      cbn [state_of fst snd _bundles]; [done|].
    eapply no_same_ports_sublist; [|exact Hg].
    rewrite Hb. apply sublist_app; [done|]. by apply sublist_cons.
  - rewrite remove_duplicates_run. cbn [state_of fst snd _bundles].
    destruct (remove_duplicates_from_sublist (_bundles g) []) as (kept & -> & Hk).
    by eapply no_same_ports_sublist.
Qed.

(** A group with one mono bundle, to which a stereo bundle is added. *)
Lemma no_same_ports_kept_witness :
  let g := mkPortGroup "Hardware" [Concrete.record_of Concrete.mono] in
  @Spec.no_same_ports Concrete.lib
    (_bundles (state_of (@PortGroupM.add_bundle_internal Concrete.lib
                           Concrete.stereo None false Color_default false g))).
Proof.
  intros g.
  apply (proj2 (proj2 (@no_same_ports_kept Concrete.lib g))).
  intros pre r post E x Hx.
  destruct pre as [|y [|? ?]]; [inversion Hx|by destruct post|by destruct post].
Defined.

(** ** remove_duplicates, twice *)

Section RemoveDuplicatesTwice.
Context `{BundleLib}.
Import PortGroupM.

Lemma to_remove_mono i (small big : list BundleRecord) :
  (∀ x, x ∈ small → x ∈ big) → to_remove i big = false → to_remove i small = false.
Proof.
  unfold to_remove. intros Hsub Hbig. apply not_true_iff_false.
  intros (j & Hj & Hrep)%existsb_exists.
  apply not_true_iff_false in Hbig. apply Hbig. apply existsb_exists.
  exists j. split; [|done]. apply list_elem_of_In, Hsub. by apply list_elem_of_In.
Qed.

(** No record that the loop keeps is represented by a record of its
    result. *)
Lemma remove_duplicates_from_kept rest : ∀ done,
  ∃ kept, remove_duplicates_from done rest = done ++ kept
          ∧ sublist kept rest
          ∧ ∀ k, k ∈ kept → to_remove k (done ++ kept) = false.
Proof.
  induction rest as [|i tmp IH]; intros done; simpl.
  - exists []. rewrite app_nil_r. repeat split; [constructor|]. intros k Hk. inversion Hk.
  - destruct (to_remove i (done ++ i :: tmp)) eqn:Hrm.
    + destruct (IH done) as (kept & -> & Hk & Hno).
      exists kept. repeat split; [by apply sublist_cons|done].
    + destruct (IH (done ++ [i])) as (kept & -> & Hk & Hno).
      exists (i :: kept). rewrite <- app_assoc. repeat split; [by apply sublist_skip|].
      intros k [->|Hin]%elem_of_cons.
      * eapply to_remove_mono; [|exact Hrm].
        intros x [Hx|[->|Hx]%elem_of_cons]%elem_of_app;
          apply elem_of_app; [by left|right; left|right; right].
        by eapply elem_of_sublist.
      * specialize (Hno k Hin). by rewrite <- app_assoc in Hno.
Qed.

(** The loop keeps a list in which no record is represented. *)
Lemma remove_duplicates_from_fixed rest : ∀ done,
  (∀ x, x ∈ rest → to_remove x (done ++ rest) = false) →
  remove_duplicates_from done rest = done ++ rest.
Proof.
  induction rest as [|i tmp IH]; intros done Hno; simpl.
  - by rewrite app_nil_r.
  - rewrite (Hno i) by left. rewrite IH; [by rewrite <- app_assoc|].
    intros x Hx. rewrite <- app_assoc. apply Hno. by right.
Qed.

End RemoveDuplicatesTwice.

(** X7.  After [remove_duplicates] no record of the group is
    represented by another record of the group, as the loops of
    [remove_duplicates] test it; so the method is idempotent: run again
    on its own result, it erases nothing more. *)
Theorem remove_duplicates_idempotent `{BundleLib} (g : PortGroup) :
  let g1 := state_of (PortGroupM.remove_duplicates g) in
  (∀ i j, i ∈ _bundles g1 → j ∈ _bundles g1 →
          PortGroupM.represented_by (bundle i) (bundle j) = false)
  ∧ PortGroupM.remove_duplicates g1 = (tt, g1, []).
Proof.
  intros g1. subst g1. rewrite !remove_duplicates_run.
  cbn [state_of fst snd _bundles name].
  destruct (remove_duplicates_from_kept (_bundles g) []) as (kept & E & _ & Hno).
  rewrite E. simpl app in *. split.
  - intros i j Hi Hj. specialize (Hno i Hi). unfold PortGroupM.to_remove in Hno.
    apply not_true_iff_false. intros Hrep.
    apply not_true_iff_false in Hno. apply Hno, existsb_exists.
    exists j. split; [by apply list_elem_of_In|done].
  - rewrite (remove_duplicates_from_fixed kept []) by done. reflexivity.
Qed.

(** ** remove_bundle goes by the object *)

Section RemoveByObject.
Import PortGroupM.

Lemma filter_other_object b pre x post :
  BundleOps.same_object (bundle x) b = true →
  List.filter (λ r, negb (BundleOps.same_object (bundle r) b)) (pre ++ x :: post)
  = List.filter (λ r, negb (BundleOps.same_object (bundle r) b)) (pre ++ post).
Proof.
  intros Hx. rewrite !List.filter_app. simpl. by rewrite Hx.
Qed.

Lemma filter_none {A} (f : A → bool) (l : list A) :
  (∀ x, x ∈ l → f x = false) → List.filter f l = [].
Proof.
  induction l as [|y l IH]; intros Hall; simpl; [done|].
  rewrite (Hall y) by left. apply IH. intros x Hx. apply Hall. by right.
Qed.

End RemoveByObject.

(** X8.  [remove_bundle] goes by the identity of the bundle: it keeps the
    name of the group and every record of another bundle object, in
    order, even one with the very same ports, and of the records of the
    object [b] it erases one, the first, when there is any. *)
Theorem remove_bundle_by_object (b : Bundle) (g : PortGroup) :
  let g' := state_of (PortGroupM.remove_bundle b g) in
  let other := λ r, negb (BundleOps.same_object (bundle r) b) in
  let same := λ r, BundleOps.same_object (bundle r) b in
  name g' = name g
  ∧ sublist (_bundles g') (_bundles g)
  ∧ List.filter other (_bundles g') = List.filter other (_bundles g)
  ∧ length (List.filter same (_bundles g')) = pred (length (List.filter same (_bundles g)))
  ∧ (∀ pre x post,
       _bundles g = pre ++ x :: post →
       same x = true → (∀ r, r ∈ pre → same r = false) →
       _bundles g' = pre ++ post).
Proof.
  intros g' other same. subst g' other same. cbv beta.
  destruct (remove_bundle_cases b g)
    as [(Hn & ->)|(pre & x & post & Hb & Hx & Hpre & ->)];
    cbn [state_of fst snd _bundles name].
  - split; [done|]. split; [done|]. split; [done|]. split.
    + rewrite (filter_none (λ r, BundleOps.same_object (bundle r) b)) by done. done.
    + intros pre x post E Hx _. rewrite (Hn x) in Hx; [done|].
      rewrite E. apply elem_of_app. right. left.
  - split; [done|]. split; [|split; [|split]].
    + rewrite Hb. apply sublist_app; [done|]. by apply sublist_cons.
    + rewrite Hb. symmetry. by apply filter_other_object.
    + rewrite Hb, !List.filter_app. simpl. rewrite Hx.
      rewrite !length_app. simpl. rewrite (filter_none _ pre) by done. simpl. lia.
    + intros pre' x' post' E Hx' Hpre'. rewrite Hb in E.
      assert (Hlen : length pre = length pre').
      { destruct (Nat.lt_trichotomy (length pre) (length pre')) as [Hlt|[?|Hlt]]; [|done|].
        - exfalso. assert (Hin : pre' !! length pre = Some x).
          { rewrite <- (lookup_app_l pre' (x' :: post')) by done.
            rewrite <- E. by rewrite list_lookup_middle. }
          apply list_elem_of_lookup_2 in Hin. rewrite (Hpre' x Hin) in Hx. done.
        - exfalso. assert (Hin : pre !! length pre' = Some x').
          { rewrite <- (lookup_app_l pre (x :: post)) by done.
            rewrite E. by rewrite list_lookup_middle. }
          apply list_elem_of_lookup_2 in Hin. rewrite (Hpre x' Hin) in Hx'. done. }
      apply app_inj_1 in E as [-> [= -> ->]]; done.
Qed.

(** A group with two bundles of the same ports at different addresses. *)
Lemma remove_bundle_by_object_witness :
  let twin := Concrete.audio_bundle 9 "stereo" ["system:capture_1"; "system:capture_2"]%string in
  let g := mkPortGroup "Hardware"
             [Concrete.record_of twin; Concrete.record_of Concrete.stereo] in
  _bundles (state_of (PortGroupM.remove_bundle Concrete.stereo g))
  = [Concrete.record_of twin].
Proof.
  intros twin g.
  apply (proj2 (proj2 (proj2 (proj2 (remove_bundle_by_object Concrete.stereo g))))
           [Concrete.record_of twin] (Concrete.record_of Concrete.stereo) []).
  - reflexivity.
  - reflexivity.
  - intros r Hr. apply list_elem_of_singleton in Hr. subst r. reflexivity.
Defined.

(** ** Adding a bundle and taking it out again *)

Section AddThenRemove.
Context `{BundleLib}.
Import PortGroupM.

Lemma split_at_bundle_last b bs x :
  (∀ r, r ∈ bs → BundleOps.same_object (bundle r) b = false) →
  BundleOps.same_object (bundle x) b = true →
  split_at_bundle b (bs ++ [x]) = Some (bs, x, []).
Proof.
  intros Hbs Hx. induction bs as [|r bs IH]; simpl.
  - by rewrite Hx.
  - rewrite (Hbs r) by left. rewrite IH; [done|].
    intros y Hy. apply Hbs. by right.
Qed.

Lemma same_object_refl b : BundleOps.same_object b b = true.
Proof. apply Nat.eqb_refl. Qed.

End AddThenRemove.

(** X9.  A bundle that the group does not hold yet, added and then
    removed, leaves the group as it was, whether [add_bundle_internal]
    took it or refused it as a duplicate; when it took it, the
    subscription opened by the one call is closed by the other, and each
    call fires [Changed] once. *)
Theorem add_then_remove_bundle `{BundleLib}
    (b : Bundle) (io : option IO) (hc : bool) (c : Color) (allow_dups : bool)
    (g : PortGroup) :
  PortGroupListM.holds b g = false →
  let a := PortGroupM.add_bundle_internal b io hc c allow_dups g in
  let r := PortGroupM.remove_bundle b (state_of a) in
  state_of r = g
  ∧ ((allow_dups = false ∧ is_Some (PortGroupM.find_same_ports b (_bundles g))
      ∧ trace_of a = [] ∧ trace_of r = [])
     ∨ ((allow_dups = true ∨ PortGroupM.find_same_ports b (_bundles g) = None)
        ∧ trace_of a = [GConnect (b_addr b); GChanged]
        ∧ trace_of r = [GDisconnect (b_addr b); GChanged])).
Proof.
  intros Hh a r. subst a r.
  assert (Hn := proj1 (holds_false b g) Hh).
  destruct (add_bundle_internal_cases b io hc c allow_dups g)
    as [(Had & Hs & ->)|(Hor & ->)]; cbn [state_of trace_of fst snd].
  - destruct (remove_bundle_cases b g)
      as [(_ & ->)|(pre & x & post & Hg & Hx & _ & _)].
    + split; [done|]. left. done.
    + exfalso. rewrite (Hn x) in Hx; [done|].
      rewrite Hg. apply elem_of_app. right. left.
  - unfold PortGroupM.remove_bundle. rewrite run_bind.
    cbn [get state_of trace_of value_of fst snd _bundles].
    rewrite (split_at_bundle_last b (_bundles g)) by (done || apply same_object_refl).
    rewrite app_nil_r. cbn. split; [by destruct g|]. right. done.
Qed.

Lemma add_then_remove_bundle_witness :
  let g := mkPortGroup "Hardware" [Concrete.record_of Concrete.mono] in
  state_of (PortGroupM.remove_bundle Concrete.stereo
              (state_of (@PortGroupM.add_bundle_internal Concrete.lib
                           Concrete.stereo None false Color_default false g)))
  = g.
Proof.
  intros g.
  apply (proj1 (@add_then_remove_bundle Concrete.lib Concrete.stereo None false
                  Color_default false g eq_refl)).
Defined.

(** ** The owner of a bundle *)

Section Owner.
Import PortGroupM.

Lemma io_from_bundle_in_cases alive gs b :
  match PortGroupListM.io_from_bundle_in alive gs b with
  | Some j =>
      ∃ pre g post, gs = pre ++ g :: post
                    ∧ io_from_bundle alive g b = Some j
                    ∧ ∀ x, x ∈ pre → io_from_bundle alive x b = None
  | None => ∀ g, g ∈ gs → io_from_bundle alive g b = None
  end.
Proof.
  induction gs as [|g gs IH]; simpl.
  - intros g Hg. inversion Hg.
  - destruct (io_from_bundle alive g b) as [j|] eqn:Eg.
    + exists [], g, gs. repeat split; [done|]. intros x Hx. inversion Hx.
    + destruct (PortGroupListM.io_from_bundle_in alive gs b) as [j|].
      * destruct IH as (pre & g' & post & -> & Hg' & Hpre).
        exists (g :: pre), g', post. repeat split; [done|].
        intros x [->|Hx]%elem_of_cons; [done|by apply Hpre].
      * intros x [->|Hx]%elem_of_cons; [done|by apply IH].
Qed.

End Owner.

(** X10.  [PortGroup::io_from_bundle] answers from the first record that
    holds the object [b], and from no other: null when the group does
    not hold [b], or when that record has no owner or its owner is gone,
    and otherwise the owner that the record was added with.  After
    [add_bundle (b, io)] on a group that did not hold [b] and took it,
    the answer is [io] as long as it is alive. *)
Theorem io_from_bundle_first_record `{BundleLib}
    (alive : IO → bool) (g : PortGroup) (b : Bundle) :
  (PortGroupListM.holds b g = false → PortGroupM.io_from_bundle alive g b = None)
  ∧ (∀ pre r post,
       _bundles g = pre ++ r :: post →
       BundleOps.same_object (bundle r) b = true →
       (∀ x, x ∈ pre → BundleOps.same_object (bundle x) b = false) →
       PortGroupM.io_from_bundle alive g b
       = match io r with
         | Some j => if alive j then Some j else None
         | None => None
         end)
  ∧ (∀ j, PortGroupListM.holds b g = false →
          PortGroupM.find_same_ports b (_bundles g) = None →
          PortGroupM.io_from_bundle alive
            (state_of (PortGroupM.add_bundle_io b j g)) b
          = if alive j then Some j else None).
Proof.
  split; [|split].
  - intros Hh. unfold PortGroupM.io_from_bundle.
    by rewrite (proj2 (split_at_bundle_None b (_bundles g)) (proj1 (holds_false b g) Hh)).
  - intros pre r post Hg Hr Hpre. unfold PortGroupM.io_from_bundle.
    destruct (PortGroupM.split_at_bundle b (_bundles g)) as [[[pre' r'] post']|] eqn:Es.
    + destruct (split_at_bundle_Some _ _ _ _ _ Es) as (Hg' & Hr' & Hpre').
      rewrite Hg in Hg'.
      assert (Hlen : length pre = length pre').
      { destruct (Nat.lt_trichotomy (length pre) (length pre')) as [Hlt|[?|Hlt]]; [|done|].
        - exfalso. assert (Hin : pre' !! length pre = Some r).
          { rewrite <- (lookup_app_l pre' (r' :: post')) by done.
            rewrite <- Hg'. by rewrite list_lookup_middle. }
          apply list_elem_of_lookup_2 in Hin. rewrite (Hpre' r Hin) in Hr. done.
        - exfalso. assert (Hin : pre !! length pre' = Some r').
          { rewrite <- (lookup_app_l pre (r :: post)) by done.
            rewrite Hg'. by rewrite list_lookup_middle. }
          apply list_elem_of_lookup_2 in Hin. rewrite (Hpre r' Hin) in Hr'. done. }
      apply app_inj_1 in Hg' as [_ [= -> _]]; [|done]. reflexivity.
    + exfalso. rewrite split_at_bundle_None in Es. rewrite (Es r) in Hr; [done|].
      rewrite Hg. apply elem_of_app. right. left.
  - intros j Hh Hf. unfold PortGroupM.add_bundle_io.
    destruct (add_bundle_internal_cases b (Some j) false Color_default false g)
      as [(_ & Hs & _)|(_ & ->)].
    + rewrite Hf in Hs. by destruct Hs.
    + cbn [state_of fst snd]. unfold PortGroupM.io_from_bundle. cbn [_bundles].
      rewrite (split_at_bundle_last b (_bundles g));
        [done|by apply holds_false|apply same_object_refl].
Qed.

Lemma io_from_bundle_first_record_witness :
  let g := mkPortGroup "Busses" [Concrete.record_of Concrete.mono] in
  PortGroupM.io_from_bundle (λ _, true)
    (state_of (@PortGroupM.add_bundle_io Concrete.lib
                 (io_bundle Concrete.bus_input) Concrete.bus_input g))
    (io_bundle Concrete.bus_input)
  = Some Concrete.bus_input.
Proof.
  intros g.
  apply (proj2 (proj2 (@io_from_bundle_first_record Concrete.lib (λ _, true) g
                         (io_bundle Concrete.bus_input))) Concrete.bus_input);
    reflexivity.
Defined.

(** X11.  [PortGroupList::io_from_bundle] gives the answer of the first
    member group that has one, and null only when every member group
    answers null; so a live owner recorded in any group is found unless
    a group before it answers first, and a group added to the list is
    asked only when no earlier member has an answer. *)
Theorem io_from_bundle_first_group `{BundleLib}
    (alive : IO → bool) (l : PortGroupList) (b : Bundle) :
  match PortGroupListM.io_from_bundle alive l b with
  | Some j =>
      ∃ pre g post, _groups l = pre ++ g :: post
                    ∧ PortGroupM.io_from_bundle alive g b = Some j
                    ∧ ∀ x, x ∈ pre → PortGroupM.io_from_bundle alive x b = None
  | None => ∀ g, g ∈ _groups l → PortGroupM.io_from_bundle alive g b = None
  end
  ∧ ∀ g, PortGroupListM.io_from_bundle alive
           (state_of (PortGroupListM.add_group g l)) b
         = match PortGroupListM.io_from_bundle alive l b with
           | Some j => Some j
           | None => PortGroupM.io_from_bundle alive g b
           end.
Proof.
  split; [apply io_from_bundle_in_cases|].
  intros g. rewrite add_group_run. unfold PortGroupListM.io_from_bundle.
  rewrite groups_notified. cbn [PortGroupListM.with_groups _groups].
  induction (_groups l) as [|x gs IH]; simpl.
  - by destruct (PortGroupM.io_from_bundle alive g b).
  - by destruct (PortGroupM.io_from_bundle alive x b).
Qed.

(** ** Channel totals *)

Section Totals.
Context `{BundleLib}.

Lemma ChanCount_add_assoc a b c :
  ChanCountOps.add (ChanCountOps.add a b) c = ChanCountOps.add a (ChanCountOps.add b c).
Proof. unfold ChanCountOps.add. simpl. f_equal; lia. Qed.

Lemma ChanCount_add_zero_l a : ChanCountOps.add ChanCountOps.zero a = a.
Proof. by destruct a. Qed.

Lemma ChanCount_add_zero_r a : ChanCountOps.add a ChanCountOps.zero = a.
Proof. destruct a. unfold ChanCountOps.add. simpl. f_equal; lia. Qed.

Lemma ChanCount_n_add a b t :
  ChanCountOps.n (ChanCountOps.add a b) t = ChanCountOps.n a t + ChanCountOps.n b t.
Proof. by destruct t. Qed.

Lemma fold_add_from {A} (f : A → ChanCount) (xs : list A) : ∀ c,
  fold_left (λ n x, ChanCountOps.add n (f x)) xs c
  = ChanCountOps.add c (fold_left (λ n x, ChanCountOps.add n (f x)) xs ChanCountOps.zero).
Proof.
  induction xs as [|x xs IH]; intros c; simpl.
  - by rewrite ChanCount_add_zero_r.
  - rewrite IH, (IH (ChanCountOps.add ChanCountOps.zero (f x))).
    by rewrite ChanCount_add_zero_l, ChanCount_add_assoc.
Qed.

Lemma fold_add_app {A} (f : A → ChanCount) (xs ys : list A) :
  fold_left (λ n x, ChanCountOps.add n (f x)) (xs ++ ys) ChanCountOps.zero
  = ChanCountOps.add
      (fold_left (λ n x, ChanCountOps.add n (f x)) xs ChanCountOps.zero)
      (fold_left (λ n x, ChanCountOps.add n (f x)) ys ChanCountOps.zero).
Proof. by rewrite fold_left_app, fold_add_from. Qed.

Lemma fold_add_n {A} (f : A → ChanCount) (xs : list A) t :
  ChanCountOps.n (fold_left (λ n x, ChanCountOps.add n (f x)) xs ChanCountOps.zero) t
  = sum_list (map (λ x, ChanCountOps.n (f x) t) xs).
Proof.
  induction xs as [|x xs IH]; simpl; [by destruct t|].
  rewrite fold_add_from, !ChanCount_n_add, IH. by destruct t.
Qed.

Lemma total_channels_concat (gs : list PortGroup) :
  fold_left (λ n g, ChanCountOps.add n (PortGroupM.total_channels g)) gs ChanCountOps.zero
  = fold_left (λ n r, ChanCountOps.add n (BundleOps.nchannels (bundle r)))
      (concat (map _bundles gs)) ChanCountOps.zero.
Proof.
  induction gs as [|g gs IH]; [done|]. simpl.
  rewrite fold_add_from, ChanCount_add_zero_l, IH, fold_add_app. reflexivity.
Qed.

End Totals.

(** X12.  The two totals agree with the lists of bundles: the total of
    a list is the sum, over the records that [bundles ()] returns, of
    the channel counts of their bundles, type by type; a bundle that a
    group takes adds its channel count to the total of the group, and a
    group added to the list adds its total to that of the list. *)
Theorem total_channels_of_bundles `{BundleLib} (l : PortGroupList) :
  PortGroupListM.total_channels l
  = fold_left (λ n r, ChanCountOps.add n (BundleOps.nchannels (bundle r)))
      (PortGroupListM.bundles l) ChanCountOps.zero
  ∧ (∀ t, ChanCountOps.n (PortGroupListM.total_channels l) t
          = sum_list (map (λ r, ChanCountOps.n (BundleOps.nchannels (bundle r)) t)
                          (PortGroupListM.bundles l)))
  ∧ (∀ g, PortGroupListM.total_channels (state_of (PortGroupListM.add_group g l))
          = ChanCountOps.add (PortGroupListM.total_channels l)
                             (PortGroupM.total_channels g))
  ∧ (∀ g b, PortGroupM.total_channels (state_of (PortGroupM.add_bundle b true g))
            = ChanCountOps.add (PortGroupM.total_channels g) (BundleOps.nchannels b)).
Proof.
  unfold PortGroupListM.total_channels, PortGroupListM.bundles.
  split; [apply total_channels_concat|]. split; [|split].
  - intros t. rewrite total_channels_concat. apply fold_add_n.
  - intros g. rewrite add_group_run, groups_notified.
    cbn [PortGroupListM.with_groups _groups].
    rewrite fold_add_app. simpl. by rewrite ChanCount_add_zero_l.
  - intros g b. unfold PortGroupM.add_bundle.
    destruct (add_bundle_internal_cases b None false Color_default true g)
      as [(? & _)|(_ & ->)]; [done|].
    unfold PortGroupM.total_channels. cbn [state_of fst snd _bundles].
    rewrite fold_add_app. simpl. by rewrite ChanCount_add_zero_l.
Qed.

(** ** Pending notifications *)

Section Pending.
Context `{BundleLib} `{Host}.
Import PortGroupListM.

Lemma settled_notified ns gs l :
  settled l → settled (state_of (notified ns (with_groups gs l))).
Proof.
  unfold settled, notified. destruct l as [g0 [] pc pb];
    cbn [with_groups _signals_suspended _pending_change _pending_bundle_change
         state_of fst snd]; [done|]. by intros Hl.
Qed.

Lemma settled_call c l : settled l → settled (state_of (call c l)).
Proof.
  intros Hl. destruct c as [m|s| |]; simpl call.
  - destruct (mutate_run m l) as (gs & k & ->). by apply settled_notified.
  - rewrite <- (with_groups_same l).
    assert (E : notify s (with_groups (_groups l) l)
                = notified [s] (with_groups (_groups l) l)).
    { rewrite <- notify_run. simpl for_each. rewrite run_bind.
      cbn [ret value_of state_of trace_of fst snd]. rewrite app_nil_r.
      apply run_eta. }
    rewrite E. by apply settled_notified.
  - intros Hs. destruct l. discriminate Hs.
  - rewrite resume_signals_run. intros _. done.
Qed.

Lemma settled_calls cs : ∀ l, settled l → settled (state_of (for_each cs call l)).
Proof.
  induction cs as [|c cs IH]; intros l Hl; [done|].
  simpl for_each. rewrite state_bind. apply IH. by apply settled_call.
Qed.

End Pending.

(** X13.  Nothing is ever pending on a list that is not suspended:
    whatever sequence of mutations, group signals, [suspend_signals] and
    [resume_signals] a new list has gone through, its pending flag and
    payload are clear unless it is suspended.  So a [resume_signals]
    without a [suspend_signals] before it fires nothing and changes
    nothing.  Suspension does not nest: after two calls of
    [suspend_signals], one [resume_signals] ends it. *)
Theorem pending_only_while_suspended `{BundleLib} `{Host}
    (cs : list PortGroupListM.Call) :
  let l := state_of (for_each cs PortGroupListM.call PortGroupListM.new) in
  (_signals_suspended l = false →
   _pending_change l = false ∧ _pending_bundle_change l = 0%Z)
  ∧ (_signals_suspended l = false → PortGroupListM.resume_signals l = (tt, l, []))
  ∧ _signals_suspended
      (state_of (for_each [PortGroupListM.CSuspend; PortGroupListM.CSuspend;
                           PortGroupListM.CResume] PortGroupListM.call l)) = false.
Proof.
  intros l.
  assert (Hl : PortGroupListM.settled l).
  { apply settled_calls. intros _. done. }
  split; [exact Hl|]. split.
  - intros Hs. destruct (Hl Hs) as [Hpc Hpb].
    rewrite resume_signals_run, Hpc, Hpb. destruct l as [gs su pc pb].
    simpl in *. by subst.
  - simpl for_each. rewrite !state_bind.
    cbn [ret value_of state_of fst snd]. by rewrite resume_signals_run.
Qed.

(** ** The ports that nothing else has claimed *)

Section ExtraPorts.
Context `{BundleLib} `{Host}.
Import PortGroupListM.

Lemma unseen_checks L p :
  negb (PortGroupM.has_port (group L System) p)
  && negb (PortGroupM.has_port (group L Bus) p)
  && negb (PortGroupM.has_port (group L Track) p)
  && negb (PortGroupM.has_port (group L IopPre) p)
  && negb (PortGroupM.has_port (group L IopPost) p)
  && negb (PortGroupM.has_port (group L Sidechain) p)
  && negb (PortGroupM.has_port (group L Program) p)
  && negb (PortGroupM.has_port (group L Other) p) = true
  ↔ unseen L p.
Proof.
  rewrite !andb_true_iff, !negb_true_iff. split.
  - intros [[[[[[[? ?] ?] ?] ?] ?] ?] ?] []; done.
  - intros Hu. repeat split; apply Hu.
Qed.

(** The body of the loop either leaves the arrays alone, and then the
    port belongs to none, or pushes the port onto the one array and type
    it belongs to. *)
Lemma sort_port_cases L allow_dups p x :
  (sort_port L allow_dups p x = x
   ∧ ∀ k t, ¬ ((allow_dups = true ∨ unseen L p) ∧ extra_port k t p))
  ∨ ∃ k t, (allow_dups = true ∨ unseen L p) ∧ extra_port k t p
           ∧ sort_port L allow_dups p x = push k t p x.
Proof.
  unfold sort_port, extra_port.
  destruct (allow_dups || _) eqn:Eseen; cycle 1.
  { left. split; [done|]. intros k t [Hs _].
    apply orb_false_iff in Eseen as [-> Eseen].
    destruct Hs as [?|Hs]; [done|]. apply unseen_checks in Hs. congruence. }
  assert (Hseen : allow_dups = true ∨ unseen L p).
  { apply orb_true_iff in Eseen as [?|?]; [by left|right; by apply unseen_checks]. }
  destruct (Str.found (Str.find p "Midi-Through") || Str.found (Str.find p "Midi Through"))
    eqn:Ethru.
  { left. split; [done|]. intros k t (_ & E1 & E2 & _).
    rewrite E1, E2 in Ethru. done. }
  apply orb_false_iff in Ethru as [Et1 Et2]. cbv zeta.
  destruct (Str.found (Str.find (Str.to_lower p) (Str.to_lower "Monitor"))
            && Str.found (Str.find (Str.to_lower p) lpn)) eqn:Emon.
  { left. split; [done|]. intros k t (_ & _ & _ & E3 & _). done. }
  destruct (get_port_by_name p) as [ph|] eqn:Eph; cycle 1.
  { left. split; [done|]. intros k t (_ & _ & _ & _ & ph & Hph & _). done. }
  case_bool_decide as Ht; cycle 1.
  { left. split; [done|].
    intros k t (_ & _ & _ & _ & ph' & [= <-] & Hty & Hnil & _). congruence. }
  destruct (flag_hidden ph) eqn:Ehid.
  { left. split; [done|].
    intros k t (_ & _ & _ & _ & ph' & [= <-] & _ & _ & Hh & _). congruence. }
  right.
  destruct (port_has_prefix p lpnc) eqn:Epre; [|destruct (flag_physical ph) eqn:Ephys].
  - exists InProgram, (port_data_type ph). repeat split; try done. by exists ph.
  - exists InSystem, (port_data_type ph). repeat split; try done. by exists ph.
  - exists InOther, (port_data_type ph). repeat split; try done. by exists ph.
Qed.

(** A port belongs to one array and one type at most. *)
Lemma extra_port_once k k' t t' p :
  extra_port k t p → extra_port k' t' p → k = k' ∧ t = t'.
Proof.
  intros (_ & _ & _ & ph & Hph & Ht & _ & _ & Hk)
         (_ & _ & _ & ph' & Hph' & Ht' & _ & _ & Hk').
  rewrite Hph in Hph'. injection Hph' as <-. split; [|congruence].
  destruct k, k'; try done; cbv beta iota in Hk, Hk'; intuition congruence.
Qed.

Lemma bucket_push k t p x k' t' :
  bucket (push k t p x) k' t'
  = bucket x k' t' ++ (if bool_decide (k = k' ∧ t = t') then [p] else []).
Proof.
  destruct k, k'; cbn [bucket push extra_system extra_program extra_other];
    try (rewrite bool_decide_eq_false_2 by (intros [? ?]; done); by rewrite app_nil_r).
  all: destruct (decide (t = t')) as [->|Hne];
    [rewrite fn_lookup_insert, bool_decide_eq_true_2 by done; done
    |rewrite fn_lookup_insert_ne by done;
     rewrite bool_decide_eq_false_2 by (intros [? ?]; done); by rewrite app_nil_r].
Qed.

(** The loop over the sorted names. *)
Lemma sort_ports_run L allow_dups ps : ∀ x k t,
  ∃ new,
    bucket (fold_left (λ x p, sort_port L allow_dups p x) ps x) k t = bucket x k t ++ new
    ∧ sublist new ps
    ∧ ∀ p, p ∈ new ↔ p ∈ ps ∧ (allow_dups = true ∨ unseen L p) ∧ extra_port k t p.
Proof.
  induction ps as [|q ps IH]; intros x k t; simpl.
  - exists []. rewrite app_nil_r. split; [done|]. split; [done|].
    intros p. split; [intros Hp; inversion Hp|intros (Hp & _); inversion Hp].
  - destruct (sort_port_cases L allow_dups q x)
      as [(-> & Hnot)|(k0 & t0 & Hseen & Hq & ->)].
    + destruct (IH x k t) as (new & -> & Hsub & Hiff).
      exists new. split; [done|]. split; [by apply sublist_cons|].
      intros p. rewrite Hiff. split.
      * intros (Hp & Hrest). split; [by right|done].
      * intros ([->|Hp]%elem_of_cons & Hs & He); [|done].
        exfalso. by apply (Hnot k t).
    + destruct (IH (push k0 t0 q x) k t) as (new & -> & Hsub & Hiff).
      rewrite bucket_push. case_bool_decide as Hkt.
      * destruct Hkt as [-> ->]. exists (q :: new).
        split; [by rewrite <- app_assoc|]. split; [by apply sublist_skip|].
        intros p. rewrite elem_of_cons, Hiff, elem_of_cons. split.
        -- intros [->|(Hp & Hrest)]; [split; [by left|done]|split; [by right|done]].
        -- intros ([->|Hp] & Hrest); [by left|right; done].
      * exists new. rewrite app_nil_r.
        split; [done|]. split; [by apply sublist_cons|].
        intros p. rewrite Hiff, elem_of_cons. split.
        -- intros (Hp & Hrest). split; [by right|done].
        -- intros ([->|Hp] & Hs & He); [|done].
           exfalso. apply Hkt. by eapply extra_port_once.
Qed.

(** What [find_extra_ports] puts into an array. *)
Lemma find_extra_ports_bucket L type inputs allow_dups k t :
  sublist (bucket (find_extra_ports L type inputs allow_dups) k t)
          (sort_naturally (engine_ports type inputs))
  ∧ ∀ p, p ∈ bucket (find_extra_ports L type inputs allow_dups) k t ↔
         engine_ports type inputs ≠ []
         ∧ p ∈ sort_naturally (engine_ports type inputs)
         ∧ (allow_dups = true ∨ unseen L p)
         ∧ extra_port k t p.
Proof.
  unfold find_extra_ports. fold (engine_ports type inputs). cbv zeta.
  destruct (engine_ports type inputs) as [|p0 ps] eqn:E.
  - simpl. split; [destruct k; apply sublist_nil_l|].
    intros p. split; [destruct k; intros Hp; inversion Hp|]. by intros (? & _).
  - cbn [length Nat.ltb Nat.leb].
    destruct (sort_ports_run L allow_dups (sort_naturally (p0 :: ps))
                (mkExtra (λ _, []) (λ _, []) (λ _, [])) k t) as (new & -> & Hsub & Hiff).
    assert (bucket (mkExtra (λ _, []) (λ _, []) (λ _, [])) k t = []) as -> by by destruct k.
    simpl app. split; [done|]. intros p. rewrite Hiff. split.
    + intros (? & ? & ?). done.
    + intros (_ & ? & ? & ?). done.
Qed.

(** Every occurrence of a name that is filed is filed: an array is the
    sorted list without the names that are not in it. *)
Lemma sort_ports_filed L allow_dups ps : ∀ x k t,
  ∃ new,
    bucket (fold_left (λ x p, sort_port L allow_dups p x) ps x) k t = bucket x k t ++ new
    ∧ (∀ p, p ∈ new ↔ p ∈ ps ∧ (allow_dups = true ∨ unseen L p) ∧ extra_port k t p)
    ∧ new = List.filter (λ p, bool_decide (p ∈ new)) ps.
Proof.
  induction ps as [|q ps IH]; intros x k t; simpl fold_left.
  - exists []. rewrite app_nil_r. split; [done|]. split; [|done].
    intros p. split; [intros Hp; inversion Hp|intros (Hp & _); inversion Hp].
  - assert (Hskip : ∀ new,
              (∀ p, p ∈ new ↔ p ∈ ps ∧ (allow_dups = true ∨ unseen L p) ∧ extra_port k t p) →
              ¬ ((allow_dups = true ∨ unseen L q) ∧ extra_port k t q) →
              new = List.filter (λ p, bool_decide (p ∈ new)) ps →
              (∀ p, p ∈ new ↔
                    p ∈ q :: ps ∧ (allow_dups = true ∨ unseen L p) ∧ extra_port k t p)
              ∧ new = List.filter (λ p, bool_decide (p ∈ new)) (q :: ps)).
    { intros new Hiff Hnot Hf. split.
      - intros p. rewrite Hiff, elem_of_cons. split.
        + intros (Hp & Hrest). split; [by right|done].
        + intros ([->|Hp] & Hs & He); [|done]. exfalso. by apply Hnot.
      - simpl. rewrite bool_decide_eq_false_2; [done|].
        intros (_ & Hq)%Hiff. by apply Hnot. }
    destruct (sort_port_cases L allow_dups q x)
      as [(-> & Hnot)|(k0 & t0 & Hseen & Hq & ->)].
    + destruct (IH x k t) as (new & -> & Hiff & Hf).
      exists new. split; [done|]. apply Hskip; [done|apply Hnot|done].
    + destruct (IH (push k0 t0 q x) k t) as (new & -> & Hiff & Hf).
      rewrite bucket_push. case_bool_decide as Hkt.
      * destruct Hkt as [-> ->]. exists (q :: new).
        split; [by rewrite <- app_assoc|]. split.
        -- intros p. rewrite elem_of_cons, Hiff, elem_of_cons. split.
           ++ intros [->|(Hp & Hrest)]; [split; [by left|done]|split; [by right|done]].
           ++ intros ([->|Hp] & Hrest); [by left|right; done].
        -- simpl. rewrite bool_decide_eq_true_2 by left. f_equal.
           rewrite Hf at 1. apply List.filter_ext_in.
           intros p Hp%list_elem_of_In. apply bool_decide_ext.
           rewrite elem_of_cons. split; [by right|].
           intros [->|?]; [|done]. apply Hiff. done.
      * exists new. rewrite app_nil_r. split; [done|].
        apply Hskip; [done| |done].
        intros [_ He]. apply Hkt. by eapply extra_port_once.
Qed.

Lemma find_extra_ports_filed L type inputs allow_dups k t :
  bucket (find_extra_ports L type inputs allow_dups) k t
  = List.filter
      (λ p, bool_decide (p ∈ bucket (find_extra_ports L type inputs allow_dups) k t))
      (sort_naturally (engine_ports type inputs)).
Proof.
  unfold find_extra_ports. fold (engine_ports type inputs). cbv zeta.
  destruct (engine_ports type inputs) as [|p0 ps] eqn:E.
  - simpl. assert (bucket (mkExtra (λ _, []) (λ _, []) (λ _, [])) k t = []) as ->
      by by destruct k.
    induction (sort_naturally []) as [|y l IH]; [done|].
    cbn [List.filter]. case_bool_decide as Hy; [inversion Hy|exact IH].
  - cbn [length Nat.ltb Nat.leb].
    destruct (sort_ports_filed L allow_dups (sort_naturally (p0 :: ps))
                (mkExtra (λ _, []) (λ _, []) (λ _, [])) k t) as (new & -> & _ & Hf).
    assert (bucket (mkExtra (λ _, []) (λ _, []) (λ _, [])) k t = []) as -> by by destruct k.
    simpl app. exact Hf.
Qed.

End ExtraPorts.

(** X14.  The ports that [gather] finds at the engine beyond those of
    the session go into three arrays.  A name is in an array, at a type,
    exactly when the engine returned it, no group offers it alone yet
    (unless duplicates are allowed), it is no "Midi-Through" port and no
    monitor port of the program, the engine knows a port of that name,
    of that type, which is not hidden, and: it starts with the name of
    the program and a colon, for [extra_program]; it does not and is
    physical, for [extra_system]; it does not and is not physical, for
    [extra_other].  The arrays keep the order of the sorted names, no
    name is in two arrays or at two types, and nothing is filed under
    [NIL].  The loop does not look for repeats: a name that is filed is
    filed once for each time it is in the sorted list, so that the
    arrays have no repeats when that list has none. *)
Theorem extra_ports_classified `{BundleLib} `{Host}
    (L : PortGroupListM.Locals) (type : DataType) (inputs allow_dups : bool) :
  let x := PortGroupListM.find_extra_ports L type inputs allow_dups in
  let ports := PortGroupListM.engine_ports type inputs in
  (∀ k t p, p ∈ PortGroupListM.bucket x k t ↔
      ports ≠ []
      ∧ p ∈ sort_naturally ports
      ∧ (allow_dups = true ∨ PortGroupListM.unseen L p)
      ∧ PortGroupListM.extra_port k t p)
  ∧ (∀ k t, sublist (PortGroupListM.bucket x k t) (sort_naturally ports))
  ∧ (∀ k k' t t' p,
       p ∈ PortGroupListM.bucket x k t → p ∈ PortGroupListM.bucket x k' t' →
       k = k' ∧ t = t')
  ∧ (∀ k, PortGroupListM.bucket x k NIL = [])
  ∧ (∀ k t, PortGroupListM.bucket x k t
            = List.filter (λ p, bool_decide (p ∈ PortGroupListM.bucket x k t))
                          (sort_naturally ports))
  ∧ (NoDup (sort_naturally ports) → ∀ k t, NoDup (PortGroupListM.bucket x k t)).
Proof.
  intros x ports. subst x ports.
  split; [|split; [|split; [|split; [|split]]]]; cycle 4.
  { intros k t. apply find_extra_ports_filed. }
  { intros Hnd k t. eapply sublist_NoDup; [exact Hnd|apply find_extra_ports_bucket]. }
  - intros k t p. apply find_extra_ports_bucket.
  - intros k t. apply find_extra_ports_bucket.
  - intros k k' t t' p Hp Hp'.
    apply find_extra_ports_bucket in Hp as (_ & _ & _ & Hp).
    apply find_extra_ports_bucket in Hp' as (_ & _ & _ & Hp').
    by eapply extra_port_once.
  - intros k.
    destruct (PortGroupListM.bucket
                (PortGroupListM.find_extra_ports L type inputs allow_dups) k NIL)
      as [|p l] eqn:E; [done|]. exfalso.
    assert (Hp : p ∈ PortGroupListM.bucket
                      (PortGroupListM.find_extra_ports L type inputs allow_dups) k NIL)
      by (rewrite E; left).
    apply find_extra_ports_bucket in Hp as (_ & _ & _ & (_ & _ & _ & ph & _ & _ & Hn & _)).
    done.
Qed.

(** ** gather, step by step *)

Section GatherSteps.
Context `{BundleLib} `{Host}.
Import PortGroupListM.
Variable Allowed : Category → BundleRecord → bool → Prop.

Lemma steps_trans L1 L2 L3 :
  Steps Allowed L1 L2 → Steps Allowed L2 L3 → Steps Allowed L1 L3.
Proof.
  induction 1 as [L|L L' _ IH|L L' g r ad Ha _ IH|L L' _ IH]; intros H3.
  - exact H3.
  - apply steps_new. by apply IH.
  - eapply steps_add; [exact Ha|]. by apply IH.
  - apply steps_dedup. by apply IH.
Qed.

Lemma runs_ret {A} (a : A) : runs_in Allowed (ret a).
Proof. intros L. apply steps_done. Qed.

Lemma runs_get : runs_in Allowed (get (S:=Locals) (E:=Category * GroupEvent)).
Proof. intros L. apply steps_done. Qed.

Lemma runs_bind_value {A B} (m : Gather A) (k : A → Gather B) :
  runs_in Allowed m →
  (∀ L, Steps Allowed (state_of (m L))
          (state_of (k (value_of (m L)) (state_of (m L))))) →
  runs_in Allowed (bind m k).
Proof.
  intros Hm Hk L. rewrite state_bind. eapply steps_trans; [apply Hm|apply Hk].
Qed.

Lemma runs_bind {A B} (m : Gather A) (k : A → Gather B) :
  runs_in Allowed m → (∀ a, runs_in Allowed (k a)) → runs_in Allowed (bind m k).
Proof. intros Hm Hk. apply runs_bind_value; [done|]. intros L. apply Hk. Qed.

Lemma runs_for_each {A} (xs : list A) (body : A → Gather unit) :
  (∀ x, x ∈ xs → runs_in Allowed (body x)) → runs_in Allowed (for_each xs body).
Proof.
  induction xs as [|x xs IH]; intros Hb; simpl.
  - apply runs_ret.
  - apply runs_bind; [apply Hb; left|].
    intros _. apply IH. intros y Hy. apply Hb. by right.
Qed.

Lemma runs_new_Bundle n inputs : runs_in Allowed (new_Bundle n inputs).
Proof. intros L. apply steps_new, steps_done. Qed.

Lemma runs_on_add g b io hc c allow_dups :
  Allowed g (mkBundleRecord b io c hc) allow_dups →
  runs_in Allowed (on g (PortGroupM.add_bundle_internal b io hc c allow_dups)).
Proof.
  intros Ha L.
  apply (steps_add Allowed L _ g (mkBundleRecord b io c hc) allow_dups Ha).
  apply steps_done.
Qed.

Lemma runs_dedup : runs_in Allowed (on System PortGroupM.remove_duplicates).
Proof. intros L. apply steps_dedup, steps_done. Qed.

(** The channels of a bundle made from names. *)
Lemma made_bundle_channel p type inputs nm L ch :
  ch ∈ b_channel (value_of (make_bundle_from_ports p type inputs nm L)) →
  ch_type ch = type ∧ ∃ s, s ∈ p ∧ ch_ports ch = [s].
Proof.
  rewrite make_bundle_from_ports_run. cbn [value_of fst].
  rewrite add_port_channels_run
    by (by destruct (negb (Str.empty nm)), (negb (Str.empty (common_prefix p)))).
  cbn [b_channel].
  assert (b_channel (if negb (Str.empty nm)
                     then BundleOps.set_name
                            (BundleOps.new (heap_top L) EmptyString inputs) nm
                     else if negb (Str.empty (common_prefix p))
                          then BundleOps.set_name
                                 (BundleOps.new (heap_top L) EmptyString inputs)
                                 (Str.substr (common_prefix p) 0
                                    (String.length (common_prefix p) - 1))
                          else BundleOps.new (heap_top L) EmptyString inputs)
          = []) as ->
    by (by destruct (negb (Str.empty nm)), (negb (Str.empty (common_prefix p)))).
  simpl app. intros Hin%list_elem_of_In. apply in_map_iff in Hin as (s & <- & Hs).
  split; [done|]. exists s. split; [by apply list_elem_of_In|done].
Qed.

(** A bundle made from names [nb] and offered to [g]. *)
Lemma runs_add_bundle_from_ports nb type inputs allow_dups g :
  (∀ L, Allowed g
          (unowned (value_of (make_bundle_from_ports nb type inputs EmptyString L)))
          allow_dups) →
  runs_in Allowed (add_bundle_from_ports nb type inputs allow_dups g).
Proof.
  intros Ha. unfold add_bundle_from_ports. apply runs_bind_value.
  - intros L. apply steps_new, steps_done.
  - intros L. apply runs_on_add, Ha.
Qed.

Lemma runs_add_bundles_for_ports p type inputs allow_dups g :
  (∀ nb L, (∀ s, s ∈ nb → s ∈ p) →
     Allowed g
       (unowned (value_of (make_bundle_from_ports nb type inputs EmptyString L)))
       allow_dups) →
  runs_in Allowed (add_bundles_for_ports p type inputs allow_dups g).
Proof.
  intros Ha L.
  destruct (add_bundles_for_ports_as_runs p type inputs allow_dups g L)
    as (runs & Hcat & ->).
  apply runs_for_each. intros nb Hnb.
  apply runs_add_bundle_from_ports. intros L'. apply Ha.
  intros s Hs. rewrite <- Hcat. apply list_elem_of_In, in_concat.
  exists nb. split; by apply list_elem_of_In.
Qed.

(** *** What the steps keep *)

(** The names of the groups. *)
Lemma steps_names L L' :
  Steps Allowed L L' → ∀ c, name (group L' c) = name (group L c).
Proof.
  induction 1 as [L|L L' _ IH|L L' g r ad Ha _ IH|L L' _ IH]; intros c.
  - done.
  - apply IH.
  - rewrite IH. destruct (decide (g = c)) as [->|Hne].
    + rewrite group_on_same.
      by destruct (add_bundle_internal_cases (bundle r) (io r) (has_colour r)
                     (colour r) ad (group L c)) as [(_ & _ & ->)|(_ & ->)].
    + by rewrite group_on_other.
  - rewrite IH. destruct (decide (System = c)) as [<-|Hne].
    + by rewrite group_on_same, remove_duplicates_run.
    + by rewrite group_on_other.
Qed.

(** The heap only grows. *)
Lemma steps_heap L L' : Steps Allowed L L' → heap_top L ≤ heap_top L'.
Proof.
  induction 1 as [L|L L' _ IH|L L' g r ad Ha _ IH|L L' _ IH];
    [done|cbn in IH; lia|exact IH|exact IH].
Qed.

(** A property of the records that each record offered has. *)
Lemma steps_records (P : Category → BundleRecord → Prop) L L' :
  (∀ g r ad, Allowed g r ad → P g r) →
  Steps Allowed L L' →
  (∀ c r, r ∈ _bundles (group L c) → P c r) →
  ∀ c r, r ∈ _bundles (group L' c) → P c r.
Proof.
  intros HP.
  induction 1 as [L|L L' _ IH|L L' g r ad Ha _ IH|L L' _ IH]; intros HL.
  - exact HL.
  - apply IH. exact HL.
  - apply IH. intros c x. destruct (decide (g = c)) as [->|Hne].
    + rewrite group_on_same.
      destruct (add_bundle_internal_cases (bundle r) (io r) (has_colour r)
                  (colour r) ad (group L c)) as [(_ & _ & ->)|(_ & ->)];
        cbn [state_of fst snd _bundles]; [apply HL|].
      intros [Hx|Hx%list_elem_of_singleton]%elem_of_app; [by apply HL|].
      subst x. destruct r. eapply HP, Ha.
    + rewrite group_on_other by done. apply HL.
  - apply IH. intros c x. destruct (decide (System = c)) as [<-|Hne].
    + rewrite group_on_same, remove_duplicates_run. cbn [state_of fst snd _bundles].
      destruct (remove_duplicates_from_sublist (_bundles (group L System)) [])
        as (kept & -> & Hk).
      intros Hx. apply HL. by eapply elem_of_sublist.
    + rewrite group_on_other by done. apply HL.
Qed.

(** No two records with the same ports, in a group that is never
    offered a record with [allow_dups]. *)
Lemma steps_no_same_ports (c : Category) L L' :
  (∀ r, ¬ Allowed c r true) →
  Steps Allowed L L' →
  Spec.no_same_ports (_bundles (group L c)) →
  Spec.no_same_ports (_bundles (group L' c)).
Proof.
  intros Hc.
  induction 1 as [L|L L' _ IH|L L' g r ad Ha _ IH|L L' _ IH]; intros HL.
  - exact HL.
  - apply IH. exact HL.
  - apply IH. destruct (decide (g = c)) as [->|Hne].
    + rewrite group_on_same.
      destruct (add_bundle_internal_cases (bundle r) (io r) (has_colour r)
                  (colour r) ad (group L c)) as [(_ & _ & ->)|([->|Hnone] & ->)];
        cbn [state_of fst snd _bundles]; [exact HL|by destruct (Hc r)|].
      apply no_same_ports_snoc; [exact HL|]. cbn [bundle].
      by apply find_same_ports_None.
    + by rewrite group_on_other.
  - apply IH. destruct (decide (System = c)) as [<-|Hne].
    + rewrite group_on_same, remove_duplicates_run. cbn [state_of fst snd _bundles].
      destruct (remove_duplicates_from_sublist (_bundles (group L System)) [])
        as (kept & -> & Hk).
      by eapply no_same_ports_sublist.
    + by rewrite group_on_other.
Qed.

End GatherSteps.

Section GatherOffers.
Context `{BundleLib} `{Host}.
Import PortGroupListM.
Variables (session : Session) (type : DataType).
Variables (allow_dups use_session_bundles : bool).

Abbreviation Offered inputs :=
  (Spec.offered session type inputs allow_dups use_session_bundles).

Lemma type_asked (n : nat) :
  bool_decide (type = NIL) || (0 <? n) = true → type = NIL ∨ 0 < n.
Proof.
  intros [Ht%bool_decide_eq_true|Hn%Nat.ltb_lt]%orb_true_iff; [by left|by right].
Qed.

Lemma runs_add_route_bundles inputs i :
  route i ∈ get_routes session →
  (inputs = true → is_monitor (route i) = false) →
  (∀ j, j ∈ ios i → Spec.io_of_route inputs (route i) j) →
  runs_in (Offered inputs) (add_route_bundles type inputs i).
Proof.
  intros Hrt Hmon Hios. unfold add_route_bundles. apply runs_bind.
  - apply runs_for_each. intros j Hj.
    destruct (bool_decide (type = NIL)
              || (0 <? ChanCountOps.n (BundleOps.nchannels (io_bundle j)) type))
      eqn:Et; [|apply runs_ret].
    apply type_asked in Et.
    assert (Ho : Spec.origin session type inputs use_session_bundles
                   (if is_track (route i) then Track else Bus)
                   (owned j (time_axis_view_colour (route i)))).
    { assert (Spec.from_route session type inputs
                (if is_track (route i) then Track else Bus)
                (owned j (time_axis_view_colour (route i))))
        by (exists (route i), j; auto 10).
      by destruct (is_track (route i)). }
    destruct (time_axis_view_colour (route i));
      apply runs_on_add; (split; [exact Ho|done]).
  - intros _. destruct inputs eqn:Ei; [|apply runs_ret].
    apply runs_for_each. intros p Hp.
    destruct (sidechain p) as [j|] eqn:Esc; [|apply runs_ret].
    assert (Ho : Spec.origin session type true use_session_bundles Sidechain
                   (owned j (time_axis_view_colour (route i)))).
    { split; [done|]. exists (route i), p, j. auto 10. }
    destruct (time_axis_view_colour (route i));
      apply runs_on_add; (split; [exact Ho|done]).
Qed.

Lemma runs_add_session_bundles inputs :
  runs_in (Offered inputs) (add_session_bundles session inputs allow_dups use_session_bundles).
Proof.
  assert (Hone : ∀ i : bool * Bundle, i ∈ session_bundles session →
            Bool.eqb (ports_are_inputs i.2) inputs = true →
            (i.1 = true ∨ use_session_bundles = true) →
            runs_in (Offered inputs) (on System (PortGroupM.add_bundle i.2 allow_dups))).
  { intros [u b] Hi Hd%Bool.eqb_prop Hu. apply runs_on_add. split.
    - exists b. split; [done|]. left. exists u. done.
    - intros ->. split; [done|by left]. }
  unfold add_session_bundles. apply runs_bind.
  - apply runs_for_each. intros i Hi.
    destruct (i.1 && Bool.eqb (ports_are_inputs i.2) inputs) eqn:E; [|apply runs_ret].
    apply andb_true_iff in E as [Hu Hd]. apply Hone; auto.
  - intros _. destruct use_session_bundles eqn:Eu; [|apply runs_ret].
    apply runs_for_each. intros i Hi.
    destruct (negb i.1 && Bool.eqb (ports_are_inputs i.2) inputs) eqn:E; [|apply runs_ret].
    apply andb_true_iff in E as [Hu Hd]. apply Hone; auto.
Qed.

Lemma add_sync_channels_direction t tm : ∀ b,
  ports_are_inputs (add_sync_channels t tm b) = ports_are_inputs b.
Proof.
  induction tm as [|i tm IH]; intros b; simpl; [done|].
  destruct (tm_port i) as [port|]; [|apply IH].
  destruct (negb (bool_decide (port_type port = t))); [apply IH|].
  by rewrite IH.
Qed.

(** A bundle of the direction asked for, offered to the program's
    group. *)
Lemma runs_program_add inputs b :
  ports_are_inputs b = inputs →
  runs_in (Offered inputs) (on Program (PortGroupM.add_bundle b false)).
Proof.
  intros Hd. apply runs_on_add. split; [|done]. exists b. split; [done|]. by left.
Qed.

Lemma runs_add_program_bundles inputs :
  runs_in (Offered inputs) (add_program_bundles session type inputs).
Proof.
  unfold add_program_bundles.
  apply runs_bind; [|intros _; apply runs_bind; [|intros _; apply runs_bind; [|intros _]]].
  - destruct (bool_decide (type = AUDIO) || bool_decide (type = NIL)) eqn:Et;
      [|apply runs_ret].
    assert (Ht : type = AUDIO ∨ type = NIL).
    { apply orb_true_iff in Et as [?%bool_decide_eq_true|?%bool_decide_eq_true]; auto. }
    destruct inputs eqn:Ei; cbn [negb].
    + apply runs_bind_value; [apply runs_new_Bundle|]. intros L.
      apply runs_program_add. by rewrite add_sync_channels_direction.
    + apply runs_bind; [|intros _; apply runs_bind; [|intros _]].
      * destruct (the_auditioner session) as [j|] eqn:Ea; [|apply runs_ret].
        apply runs_on_add. split; [|done]. exists (io_bundle j). split; [done|].
        right. split; [done|]. split; [done|]. exists j. auto.
      * destruct (click_io session) as [j|] eqn:Ec; [|apply runs_ret].
        apply runs_on_add. split; [|done]. exists (io_bundle j). split; [done|].
        right. split; [done|]. split; [done|]. exists j. auto.
      * apply runs_bind_value; [apply runs_new_Bundle|]. intros L.
        by apply runs_program_add.
  - destruct (bool_decide (type = MIDI) || bool_decide (type = NIL)); [|apply runs_ret].
    apply runs_for_each. intros i Hi.
    destruct (protocol i) as [bs|]; [|apply runs_ret].
    apply runs_for_each. intros j Hj.
    destruct (Bool.eqb (ports_are_inputs j) inputs) eqn:Ed; [|apply runs_ret].
    apply runs_program_add. by apply Bool.eqb_prop.
  - destruct (negb inputs && (bool_decide (type = MIDI) || bool_decide (type = NIL)));
      [|apply runs_ret].
    apply runs_bind_value; [apply runs_new_Bundle|]. intros L.
    by apply runs_program_add.
  - destruct (bool_decide (type = MIDI) || bool_decide (type = NIL)); [|apply runs_ret].
    apply runs_bind_value; [apply runs_new_Bundle|]. intros L.
    apply runs_program_add.
    destruct inputs;
      cbn [value_of fst BundleOps.add_channel_port ports_are_inputs];
      by rewrite ?add_sync_channels_direction.
Qed.

Lemma runs_add_io_plugs inputs : runs_in (Offered inputs) (add_io_plugs session type inputs).
Proof.
  unfold add_io_plugs. apply runs_for_each. intros iop Hiop. cbv zeta.
  set (j := if inputs then plug_input iop else plug_output iop).
  destruct (ChanCountOps.n_total (io_n_ports j) =? 0) eqn:En; [apply runs_ret|].
  apply Nat.eqb_neq in En.
  destruct (bool_decide (type = NIL) || (0 <? ChanCountOps.n (io_n_ports j) type))
    eqn:Et; [|apply runs_ret].
  apply type_asked in Et.
  assert (Ho : Spec.from_io_plug session type inputs
                 (if is_pre iop then IopPre else IopPost) (owned j None))
    by (exists iop, j; auto 10).
  destruct (is_pre iop); apply runs_on_add; (split; [exact Ho|done]).
Qed.

(** A bundle made from names of one of the arrays. *)
Lemma made_of_bucket inputs L0 k t nb nm L :
  (∀ s, s ∈ nb → s ∈ bucket (find_extra_ports L0 type inputs allow_dups) k t) →
  Spec.made_of k type inputs (value_of (make_bundle_from_ports nb t inputs nm L)).
Proof.
  intros Hnb. split; [apply made_bundle_channels|].
  intros ch Hch. destruct (made_bundle_channel _ _ _ _ _ _ Hch) as (-> & s & Hs & Hp).
  exists s. split; [done|].
  apply Hnb, find_extra_ports_bucket in Hs as (_ & Hin & _ & He). done.
Qed.

Lemma runs_add_extra_ports inputs : runs_in (Offered inputs) (add_extra_ports type inputs allow_dups).
Proof.
  unfold add_extra_ports. apply runs_bind; [apply runs_get|]. intros L0. cbv zeta.
  apply runs_bind; [|intros _; apply runs_bind; [|intros _]].
  - apply runs_for_each. intros t _.
    destruct (negb (bool_decide (extra_system _ t = []))); [|apply runs_ret].
    apply runs_add_bundles_for_ports. intros nb L Hnb. split.
    + exists (value_of (make_bundle_from_ports nb t inputs EmptyString L)).
      split; [done|]. right. by apply (made_of_bucket inputs L0 InSystem).
    + intros ->. split; [done|by left].
  - apply runs_for_each. intros t _.
    destruct (negb (bool_decide (extra_program _ t = []))); [|apply runs_ret].
    apply runs_bind_value; [intros L; apply steps_new, steps_done|]. intros L.
    apply runs_program_add. apply made_bundle_channels.
  - apply runs_for_each. intros t _.
    destruct (bool_decide (extra_other _ t = [])); [apply runs_ret|].
    apply runs_add_bundles_for_ports. intros nb L Hnb. split.
    + exists (value_of (make_bundle_from_ports nb t inputs EmptyString L)).
      split; [done|]. by apply (made_of_bucket inputs L0 InOther).
    + intros ->. split; [done|by right].
Qed.

(** Every step of [gather] on its local groups offers a record of a
    known origin. *)
Lemma fill_groups_steps inputs :
  runs_in (Offered inputs) (fill_groups session type inputs allow_dups use_session_bundles).
Proof.
  unfold fill_groups. cbv zeta.
  apply runs_bind; [|intros _; apply runs_bind; [|intros _; apply runs_bind;
    [|intros _; apply runs_bind; [|intros _; apply runs_bind; [|intros _]]]]].
  - apply runs_for_each. intros i Hi%sort_by_order_elem.
    apply (scan_routes_origin inputs (get_routes session)) in Hi; [|done].
    destruct Hi as [Hi|(Hrt & Hmon & Hios)]; [by inversion Hi|].
    by apply runs_add_route_bundles.
  - apply runs_add_session_bundles.
  - apply runs_add_program_bundles.
  - apply runs_add_io_plugs.
  - apply runs_add_extra_ports.
  - destruct (negb allow_dups); [apply runs_dedup|apply runs_ret].
Qed.

(** The records of the local groups at the end of [gather]. *)
Lemma fill_groups_origin inputs c r :
  r ∈ _bundles (group (state_of (fill_groups session type inputs allow_dups
                                   use_session_bundles
                                   (mkLocals new_groups heap_start))) c) →
  Spec.origin session type inputs use_session_bundles c r.
Proof.
  apply (steps_records (Offered inputs) (Spec.origin session type inputs use_session_bundles)
           (mkLocals new_groups heap_start)).
  - by intros g x ad [Ho _].
  - apply fill_groups_steps.
  - intros c' x Hx. destruct c'; inversion Hx.
Qed.

End GatherOffers.

(** ** What gather leaves in the list *)

Section GatherResult.
Context `{BundleLib} `{Host}.
Import PortGroupListM.

Lemma List_filter_sublist {A} (f : A → bool) (l : list A) : sublist (List.filter f l) l.
Proof.
  induction l as [|x l IH]; simpl; [done|].
  destruct (f x); [by apply sublist_skip|by apply sublist_cons].
Qed.

Lemma concat_nonempty (gs : list PortGroup) :
  concat (map _bundles (List.filter (λ g, negb (bool_decide (_bundles g = []))) gs))
  = concat (map _bundles gs).
Proof.
  induction gs as [|g gs IH]; simpl; [done|].
  case_bool_decide as E; simpl; rewrite IH; [by rewrite E|done].
Qed.

Lemma gather_groups session type inputs allow_dups use_session_bundles l :
  _groups (state_of (gather (Some session) type inputs allow_dups use_session_bundles l))
  = published (state_of (fill_groups session type inputs allow_dups use_session_bundles
                           (mkLocals new_groups heap_start))).
Proof.
  rewrite gather_Some_run. cbv zeta. by rewrite groups_notified.
Qed.

Lemma owned_owner j tv : io (owned j tv) = Some j ∧ bundle (owned j tv) = io_bundle j.
Proof. by destruct tv. Qed.

(** The owner of the records, group by group. *)
Lemma origin_owner session type inputs use_session_bundles c r :
  Spec.origin session type inputs use_session_bundles c r →
  match c with
  | System | Program | Other => io r = None ∧ has_colour r = false
  | Bus | Track | Sidechain | IopPre | IopPost =>
      ∃ j, io r = Some j ∧ bundle r = io_bundle j
  end.
Proof.
  destruct c; simpl.
  - intros (rt & j & _ & _ & _ & _ & _ & ->). exists j. apply owned_owner.
  - intros (rt & j & _ & _ & _ & _ & _ & ->). exists j. apply owned_owner.
  - intros (_ & rt & p & j & _ & _ & _ & _ & ->). exists j. apply owned_owner.
  - intros (iop & j & _ & _ & _ & _ & _ & ->). exists j. apply owned_owner.
  - intros (iop & j & _ & _ & _ & _ & _ & ->). exists j. apply owned_owner.
  - by intros (b & -> & _).
  - by intros (b & -> & _).
  - by intros (b & -> & _).
Qed.

(** The name of the program's group is not that of the side chains. *)
Lemma program_name_not_sidechains :
  name (new_groups Program) ≠ "Sidechains"%string.
Proof.
  simpl. generalize PROGRAM_NAME. intros s E.
  do 11 (destruct s as [|? s]; [discriminate E|]). discriminate E.
Qed.

End GatherResult.

(** X15.  After [gather] on a session the list holds, whatever it held
    before, those of the eight groups of the call that are not empty,
    in the order "Busses", "Tracks", "Sidechains", "I/O Pre", "I/O
    Post", the program's "Misc", "External", "Hardware"; the groups keep
    the names they were created with, and [bundles ()] is the records of
    the eight groups in that order. *)
Theorem gather_publishes `{BundleLib} `{Host}
    (session : Session) (type : DataType)
    (inputs allow_dups use_session_bundles : bool) (l : PortGroupList) :
  let L := state_of (PortGroupListM.fill_groups session type inputs allow_dups
                       use_session_bundles
                       (PortGroupListM.mkLocals PortGroupListM.new_groups heap_start)) in
  let l' := state_of (PortGroupListM.gather (Some session) type inputs allow_dups
                        use_session_bundles l) in
  let order := [PortGroupListM.Bus; PortGroupListM.Track; PortGroupListM.Sidechain;
                PortGroupListM.IopPre; PortGroupListM.IopPost; PortGroupListM.Program;
                PortGroupListM.Other; PortGroupListM.System] in
  _groups l'
  = List.filter (λ g, negb (bool_decide (_bundles g = [])))
      (map (PortGroupListM.group L) order)
  ∧ (∀ g, g ∈ _groups l' → _bundles g ≠ [])
  ∧ (∀ c, name (PortGroupListM.group L c) = name (PortGroupListM.new_groups c))
  ∧ sublist (map name (_groups l'))
      ["Busses"; "Tracks"; "Sidechains"; "I/O Pre"; "I/O Post";
       String.append PROGRAM_NAME " Misc"; "External"; "Hardware"]%string
  ∧ PortGroupListM.bundles l'
    = concat (map (λ c, _bundles (PortGroupListM.group L c)) order)
  ∧ (∀ l0, _groups (state_of (PortGroupListM.gather (Some session) type inputs
                                allow_dups use_session_bundles l0))
           = _groups l').
Proof.
  intros L l' order. subst l'.
  assert (Hnames : ∀ c, name (PortGroupListM.group L c)
                        = name (PortGroupListM.new_groups c)).
  { intros c.
    apply (steps_names (Spec.offered session type inputs allow_dups use_session_bundles)
             (PortGroupListM.mkLocals PortGroupListM.new_groups heap_start)).
    apply fill_groups_steps. }
  rewrite gather_groups. fold L.
  assert (Hpub : PortGroupListM.published L
                 = List.filter (λ g, negb (bool_decide (_bundles g = [])))
                     (map (PortGroupListM.group L) order)) by reflexivity.
  split; [exact Hpub|]. split; [|split; [exact Hnames|split; [|split]]].
  - intros g Hg. rewrite Hpub in Hg.
    apply list_elem_of_In, filter_In in Hg as [_ Hg].
    apply negb_true_iff, bool_decide_eq_false in Hg. exact Hg.
  - rewrite Hpub.
    assert (Hall : map name (map (PortGroupListM.group L) order)
                   = ["Busses"; "Tracks"; "Sidechains"; "I/O Pre"; "I/O Post";
                      String.append PROGRAM_NAME " Misc"; "External"; "Hardware"]%string).
    { subst order. cbn [map]. by rewrite !Hnames. }
    rewrite <- Hall. apply (fmap_sublist name), List_filter_sublist.
  - unfold PortGroupListM.bundles. rewrite gather_groups. fold L.
    rewrite Hpub, concat_nonempty, map_map. reflexivity.
  - intros l0. by rewrite gather_groups.
Qed.

(** X16.  Every record of "Busses" and "Tracks" is the bundle of an IO
    of a route of the session: the IO on the side asked for of the route
    or of one of its processors, never of a monitor route on the input
    side, and with at least one channel of the type asked for unless
    that is NIL.  The record has the IO as its owner, the colour of the
    route's time axis view when there is one and no colour else, and is
    in "Tracks" exactly when the route is a track. *)
Theorem gather_route_records `{BundleLib} `{Host}
    (session : Session) (type : DataType)
    (inputs allow_dups use_session_bundles : bool) :
  let L := state_of (PortGroupListM.fill_groups session type inputs allow_dups
                       use_session_bundles
                       (PortGroupListM.mkLocals PortGroupListM.new_groups heap_start)) in
  (∀ r, r ∈ _bundles (PortGroupListM.group L PortGroupListM.Bus) →
        Spec.from_route session type inputs PortGroupListM.Bus r)
  ∧ (∀ r, r ∈ _bundles (PortGroupListM.group L PortGroupListM.Track) →
          Spec.from_route session type inputs PortGroupListM.Track r).
Proof.
  intros L. split; intros r Hr;
    exact (fill_groups_origin session type allow_dups use_session_bundles inputs _ r Hr).
Qed.

(** X17.  "Sidechains" is filled on the input side only.  Every record
    of it is the input of the side chain of a plugin of a route that is
    not a monitor route, owned by that IO and coloured like the route;
    the type asked for plays no part.  On the output side the group
    stays empty, and the list gets no group of that name. *)
Theorem gather_sidechain_records `{BundleLib} `{Host}
    (session : Session) (type : DataType)
    (allow_dups use_session_bundles : bool) :
  let L inputs :=
    state_of (PortGroupListM.fill_groups session type inputs allow_dups
                use_session_bundles
                (PortGroupListM.mkLocals PortGroupListM.new_groups heap_start)) in
  (∀ r, r ∈ _bundles (PortGroupListM.group (L true) PortGroupListM.Sidechain) →
        Spec.from_sidechain session r)
  ∧ _bundles (PortGroupListM.group (L false) PortGroupListM.Sidechain) = []
  ∧ ∀ l g, g ∈ _groups (state_of (PortGroupListM.gather (Some session) type false
                                    allow_dups use_session_bundles l)) →
           name g ≠ "Sidechains"%string.
Proof.
  intros L.
  assert (Hout : _bundles (PortGroupListM.group (L false) PortGroupListM.Sidechain) = []).
  { destruct (_bundles (PortGroupListM.group (L false) PortGroupListM.Sidechain))
      as [|r rs] eqn:E; [done|]. exfalso.
    assert (Hr : r ∈ _bundles (PortGroupListM.group (L false) PortGroupListM.Sidechain))
      by (rewrite E; left).
    by destruct (fill_groups_origin session type allow_dups use_session_bundles
                   false _ r Hr) as [? _]. }
  split; [|split; [exact Hout|]].
  - intros r Hr.
    by destruct (fill_groups_origin session type allow_dups use_session_bundles
                   true _ r Hr) as [_ ?].
  - intros l g Hg. rewrite gather_groups in Hg.
    apply list_elem_of_In, filter_In in Hg as [Hin Hg].
    apply negb_true_iff, bool_decide_eq_false in Hg.
    assert (Hnames : ∀ c, name (PortGroupListM.group (L false) c)
                          = name (PortGroupListM.new_groups c)).
    { intros c.
      apply (steps_names (Spec.offered session type false allow_dups use_session_bundles)
               (PortGroupListM.mkLocals PortGroupListM.new_groups heap_start)).
      apply fill_groups_steps. }
    fold (L false) in Hin. simpl in Hin.
    destruct Hin as [<-|[<-|[<-|[<-|[<-|[<-|[<-|[<-|[]]]]]]]]];
      rewrite ?Hnames; try discriminate; [by rewrite Hout in Hg|].
    apply program_name_not_sidechains.
Qed.

(** X18.  Every record of "I/O Pre" and "I/O Post" is the bundle of the
    IO, on the side asked for, of an IO plugin of the session, which has
    at least one port, and one of the type asked for unless that is NIL.
    The record is owned by that IO, has no colour, and is in "I/O Pre"
    exactly when the plugin is a pre plugin. *)
Theorem gather_io_plug_records `{BundleLib} `{Host}
    (session : Session) (type : DataType)
    (inputs allow_dups use_session_bundles : bool) :
  let L := state_of (PortGroupListM.fill_groups session type inputs allow_dups
                       use_session_bundles
                       (PortGroupListM.mkLocals PortGroupListM.new_groups heap_start)) in
  (∀ r, r ∈ _bundles (PortGroupListM.group L PortGroupListM.IopPre) →
        Spec.from_io_plug session type inputs PortGroupListM.IopPre r)
  ∧ (∀ r, r ∈ _bundles (PortGroupListM.group L PortGroupListM.IopPost) →
          Spec.from_io_plug session type inputs PortGroupListM.IopPost r).
Proof.
  intros L. split; intros r Hr;
    exact (fill_groups_origin session type allow_dups use_session_bundles inputs _ r Hr).
Qed.

(** X19.  The records of "Hardware", "External" and the program's
    "Misc" have no owner and no colour.  A bundle of "Hardware" has the
    direction asked for; it is a bundle of the session (one that is not
    a user bundle only with [use_session_bundles]), or each of its
    channels has one port, a physical port of the engine that is not
    hidden, not named after the program, and of the type of the channel.
    A bundle of "External" has the direction asked for and is of the
    second kind, with ports that are not physical.  A bundle of "Misc"
    has the direction asked for unless it is the bundle of the auditioner
    or of the click, which are taken for audio outputs without a look
    at their direction. *)
Theorem gather_port_records `{BundleLib} `{Host}
    (session : Session) (type : DataType)
    (inputs allow_dups use_session_bundles : bool) :
  let L := state_of (PortGroupListM.fill_groups session type inputs allow_dups
                       use_session_bundles
                       (PortGroupListM.mkLocals PortGroupListM.new_groups heap_start)) in
  (∀ r, r ∈ _bundles (PortGroupListM.group L PortGroupListM.System) →
        r = PortGroupListM.unowned (bundle r)
        ∧ ports_are_inputs (bundle r) = inputs
        ∧ (Spec.from_session session inputs use_session_bundles (bundle r)
           ∨ Spec.made_of PortGroupListM.InSystem type inputs (bundle r)))
  ∧ (∀ r, r ∈ _bundles (PortGroupListM.group L PortGroupListM.Other) →
          r = PortGroupListM.unowned (bundle r)
          ∧ ports_are_inputs (bundle r) = inputs
          ∧ Spec.made_of PortGroupListM.InOther type inputs (bundle r))
  ∧ (∀ r, r ∈ _bundles (PortGroupListM.group L PortGroupListM.Program) →
          r = PortGroupListM.unowned (bundle r)
          ∧ Spec.misc session type inputs (bundle r)).
Proof.
  intros L. split; [|split]; intros r Hr;
    destruct (fill_groups_origin session type allow_dups use_session_bundles inputs _ r Hr)
      as (b & -> & Hb); cbn [bundle PortGroupListM.unowned].
  - split; [done|]. split; [|done].
    destruct Hb as [(u & _ & Hd & _)|[Hd _]]; exact Hd.
  - split; [done|]. split; [by destruct Hb|done].
  - done.
Qed.

(** X20.  After [gather], [io_from_bundle] finds no owner in "Hardware",
    "External" and "Misc", whatever the bundle; in the groups of the
    routes and of the IO plugins every record has an owner, whose bundle
    it holds, so that an owner found for [b] is alive and its bundle is
    the object [b].  Only records of "Busses", "Tracks" and "Sidechains"
    have a colour. *)
Theorem gather_owners `{BundleLib} `{Host}
    (session : Session) (type : DataType)
    (inputs allow_dups use_session_bundles : bool)
    (alive : IO → bool) (b : Bundle) :
  let L := state_of (PortGroupListM.fill_groups session type inputs allow_dups
                       use_session_bundles
                       (PortGroupListM.mkLocals PortGroupListM.new_groups heap_start)) in
  (∀ c r, r ∈ _bundles (PortGroupListM.group L c) →
     match c with
     | PortGroupListM.System | PortGroupListM.Program | PortGroupListM.Other =>
         io r = None ∧ has_colour r = false
     | _ => ∃ j, io r = Some j ∧ bundle r = io_bundle j
     end)
  ∧ PortGroupM.io_from_bundle alive (PortGroupListM.group L PortGroupListM.System) b = None
  ∧ PortGroupM.io_from_bundle alive (PortGroupListM.group L PortGroupListM.Other) b = None
  ∧ PortGroupM.io_from_bundle alive (PortGroupListM.group L PortGroupListM.Program) b = None
  ∧ (∀ c j, PortGroupM.io_from_bundle alive (PortGroupListM.group L c) b = Some j →
            alive j = true ∧ BundleOps.same_object (io_bundle j) b = true)
  ∧ (∀ c r, r ∈ _bundles (PortGroupListM.group L c) → has_colour r = true →
            c = PortGroupListM.Bus ∨ c = PortGroupListM.Track
            ∨ c = PortGroupListM.Sidechain).
Proof.
  intros L.
  assert (Hown : ∀ c r, r ∈ _bundles (PortGroupListM.group L c) →
            match c with
            | PortGroupListM.System | PortGroupListM.Program | PortGroupListM.Other =>
                io r = None ∧ has_colour r = false
            | _ => ∃ j, io r = Some j ∧ bundle r = io_bundle j
            end).
  { intros c r Hr.
    pose proof (origin_owner _ _ _ _ _ _
                  (fill_groups_origin session type allow_dups use_session_bundles
                     inputs c r Hr)) as Ho.
    by destruct c. }
  assert (Hfound : ∀ c, match PortGroupM.io_from_bundle alive (PortGroupListM.group L c) b with
                        | Some j => ∃ r, r ∈ _bundles (PortGroupListM.group L c)
                                         ∧ BundleOps.same_object (bundle r) b = true
                                         ∧ io r = Some j ∧ alive j = true
                        | None => True
                        end).
  { intros c. unfold PortGroupM.io_from_bundle.
    destruct (PortGroupM.split_at_bundle b (_bundles (PortGroupListM.group L c)))
      as [[[pre r] post]|] eqn:Es; [|done].
    destruct (split_at_bundle_Some _ _ _ _ _ Es) as (Hg & Hr & _).
    unfold PortGroupM.lock. destruct (io r) as [j|] eqn:Eio; [|done].
    destruct (alive j) eqn:Ea; [|done].
    exists r. split; [|done]. rewrite Hg. apply elem_of_app. right. left. }
  assert (Hnone : ∀ c, (c = PortGroupListM.System ∨ c = PortGroupListM.Other
                        ∨ c = PortGroupListM.Program) →
            PortGroupM.io_from_bundle alive (PortGroupListM.group L c) b = None).
  { intros c Hc. specialize (Hfound c).
    destruct (PortGroupM.io_from_bundle alive (PortGroupListM.group L c) b) as [j|]; [|done].
    destruct Hfound as (r & Hr & _ & Hio & _). specialize (Hown c r Hr).
    destruct Hc as [->|[->| ->]]; destruct Hown; congruence. }
  split; [exact Hown|]. split; [apply Hnone; auto|]. split; [apply Hnone; auto|].
  split; [apply Hnone; auto|]. split.
  - intros c j Hj. specialize (Hfound c). rewrite Hj in Hfound.
    destruct Hfound as (r & Hr & Hsame & Hio & Ha). split; [done|].
    specialize (Hown c r Hr).
    destruct c; try (destruct Hown; congruence);
      destruct Hown as (j' & Hio' & Hb); rewrite Hio in Hio';
      injection Hio' as <-; by rewrite <- Hb.
  - intros c r Hr Hc.
    pose proof (fill_groups_origin session type allow_dups use_session_bundles
                  inputs c r Hr) as Ho.
    destruct c; auto; simpl in Ho.
    + by destruct Ho as (iop & j & _ & _ & _ & _ & _ & ->).
    + by destruct Ho as (iop & j & _ & _ & _ & _ & _ & ->).
    + by destruct Ho as (b0 & -> & _).
    + by destruct Ho as (b0 & -> & _).
    + by destruct Ho as (b0 & -> & _).
Qed.

(** X21.  No group that [gather] fills holds two records with the same
    ports, as [Bundle::has_same_ports] tells, except "Hardware" and
    "External" when duplicates are allowed: the groups of the routes, of
    the IO plugins and of the program are always filled without
    duplicates, whatever [allow_dups]. *)
Theorem gather_no_same_ports `{BundleLib} `{Host}
    (session : Session) (type : DataType)
    (inputs allow_dups use_session_bundles : bool) (c : PortGroupListM.Category) :
  allow_dups = false ∨ (c ≠ PortGroupListM.System ∧ c ≠ PortGroupListM.Other) →
  Spec.no_same_ports
    (_bundles (PortGroupListM.group
                 (state_of (PortGroupListM.fill_groups session type inputs allow_dups
                              use_session_bundles
                              (PortGroupListM.mkLocals PortGroupListM.new_groups
                                 heap_start))) c)).
Proof.
  intros Hc.
  apply (steps_no_same_ports
           (Spec.offered session type inputs allow_dups use_session_bundles) c
           (PortGroupListM.mkLocals PortGroupListM.new_groups heap_start)).
  - intros r [_ Hd]. destruct (Hd eq_refl) as [Ha Hg].
    destruct Hc as [Hc|[Hs Ho]]; [congruence|]. by destruct Hg.
  - apply fill_groups_steps.
  - intros pre r post E. destruct c, pre; discriminate E.
Qed.

Lemma gather_no_same_ports_witness :
  @Spec.no_same_ports Concrete.lib
    (_bundles (PortGroupListM.group
                 (state_of (@PortGroupListM.fill_groups Concrete.lib Concrete.bare_host
                              Concrete.monitored_session NIL false true true
                              (PortGroupListM.mkLocals
                                 (@PortGroupListM.new_groups Concrete.bare_host)
                                 (@heap_start Concrete.bare_host))))
                 PortGroupListM.Bus)).
Proof.
  apply (@gather_no_same_ports Concrete.lib Concrete.bare_host
           Concrete.monitored_session NIL false true true PortGroupListM.Bus).
  right. split; discriminate.
Defined.

(** ** The subscriptions of a group *)

Section Subscriptions.
Context `{BundleLib}.
Import PortGroupM.

Lemma opened_app a t1 t2 : Spec.opened a (t1 ++ t2) = Spec.opened a t1 + Spec.opened a t2.
Proof. unfold Spec.opened. by rewrite List.filter_app, length_app. Qed.

Lemma closed_app a t1 t2 : Spec.closed a (t1 ++ t2) = Spec.closed a t1 + Spec.closed a t2.
Proof. unfold Spec.closed. by rewrite List.filter_app, length_app. Qed.

Lemma held_app a l1 l2 : Spec.held a (l1 ++ l2) = Spec.held a l1 + Spec.held a l2.
Proof. unfold Spec.held. by rewrite List.filter_app, length_app. Qed.

Lemma closed_disconnects a bs :
  Spec.closed a (map (λ r, GDisconnect (b_addr (bundle r))) bs) = Spec.held a bs.
Proof.
  unfold Spec.closed, Spec.held. induction bs as [|r bs IH]; simpl; [done|].
  destruct (a =? b_addr (bundle r)); simpl; by rewrite IH.
Qed.

Lemma opened_disconnects a bs :
  Spec.opened a (map (λ r, GDisconnect (b_addr (bundle r))) bs) = 0.
Proof. unfold Spec.opened. induction bs as [|r bs IH]; simpl; done. Qed.

Lemma held_sublist a l1 l2 : sublist l1 l2 → Spec.held a l1 ≤ Spec.held a l2.
Proof.
  unfold Spec.held. induction 1 as [|x l1 l2 _ IH|x l1 l2 _ IH]; simpl; [done| |].
  - destruct (a =? b_addr (bundle x)); simpl; lia.
  - destruct (a =? b_addr (bundle x)); simpl; lia.
Qed.

(** One method: what it opens, beside what the group held, is what it
    closes beside what the group holds then; [remove_duplicates] closes
    nothing, whatever it erases. *)
Lemma run_op_balance a o g :
  let r := run_op o g in
  Spec.closed a (trace_of r) + Spec.held a (_bundles (state_of r))
  ≤ Spec.opened a (trace_of r) + Spec.held a (_bundles g)
  ∧ (is_remove_duplicates o = false →
     Spec.closed a (trace_of r) + Spec.held a (_bundles (state_of r))
     = Spec.opened a (trace_of r) + Spec.held a (_bundles g)).
Proof.
  destruct o as [b io hc c ad|b|c| |]; cbn [run_op is_remove_duplicates]; cbv zeta.
  - destruct (add_bundle_internal_cases b io hc c ad g) as [(_ & _ & ->)|(_ & ->)];
      cbn [state_of trace_of fst snd _bundles]; [done|].
    rewrite held_app. unfold Spec.opened, Spec.closed, Spec.held. simpl.
    destruct (a =? b_addr b); simpl; split; intros; lia.
  - destruct (remove_bundle_cases b g)
      as [(_ & ->)|(pre & x & post & Hg & _ & _ & ->)];
      cbn [state_of trace_of fst snd _bundles]; [done|].
    rewrite Hg, !held_app. unfold Spec.opened, Spec.closed, Spec.held. simpl.
    destruct (a =? b_addr (bundle x)); simpl; split; intros; lia.
  - done.
  - rewrite clear_run. cbn [state_of trace_of fst snd _bundles].
    rewrite closed_app, opened_app, closed_disconnects, opened_disconnects.
    unfold Spec.opened, Spec.closed, Spec.held. simpl. split; intros; lia.
  - rewrite remove_duplicates_run. cbn [state_of trace_of fst snd _bundles].
    split; [|done].
    destruct (remove_duplicates_from_sublist (_bundles g) []) as (kept & -> & Hk).
    simpl. pose proof (held_sublist a _ _ Hk). unfold Spec.opened, Spec.closed. simpl. lia.
Qed.

Lemma run_ops_balance a ops : ∀ g,
  let r := for_each ops run_op g in
  Spec.closed a (trace_of r) + Spec.held a (_bundles (state_of r))
  ≤ Spec.opened a (trace_of r) + Spec.held a (_bundles g)
  ∧ (forallb (λ o, negb (is_remove_duplicates o)) ops = true →
     Spec.closed a (trace_of r) + Spec.held a (_bundles (state_of r))
     = Spec.opened a (trace_of r) + Spec.held a (_bundles g)).
Proof.
  induction ops as [|o ops IH]; intros g; cbv zeta.
  - simpl. done.
  - simpl for_each. rewrite state_bind, trace_bind, closed_app, opened_app.
    destruct (run_op_balance a o g) as [Hle Heq]. cbv zeta in Hle, Heq.
    destruct (IH (state_of (run_op o g))) as [Hle' Heq']. cbv zeta in Hle', Heq'.
    split; [lia|]. simpl forallb. intros [Ho Hops]%andb_true_iff.
    apply negb_true_iff in Ho. specialize (Heq Ho). specialize (Heq' Hops). lia.
Qed.

End Subscriptions.

(** X22.  A group subscribes to the [Changed] signal of a bundle when
    it takes a record of it, and the subscription lives in the record.
    Through any sequence of the methods of a group, started on a new
    group, each record held has its subscription open: for every bundle,
    the subscriptions opened are those closed and those of the records
    held, as long as [remove_duplicates] is not called.  The records that
    [remove_duplicates] erases are not deleted: with it, the
    subscriptions opened can only exceed those closed and held. *)
Theorem subscriptions_balance `{BundleLib}
    (ops : list PortGroupM.Op) (n : string) (a : nat) :
  let r := for_each ops PortGroupM.run_op (PortGroupM.new n) in
  Spec.closed a (trace_of r) + Spec.held a (_bundles (state_of r))
  ≤ Spec.opened a (trace_of r)
  ∧ (forallb (λ o, negb (PortGroupM.is_remove_duplicates o)) ops = true →
     Spec.opened a (trace_of r)
     = Spec.closed a (trace_of r) + Spec.held a (_bundles (state_of r))).
Proof.
  intros r. subst r.
  destruct (run_ops_balance a ops (PortGroupM.new n)) as [Hle Heq].
  cbv zeta in Hle, Heq. unfold Spec.held at 2 in Hle. unfold Spec.held at 2 in Heq.
  simpl in Hle, Heq. split; [lia|]. intros Hops. specialize (Heq Hops). lia.
Qed.

(** ** The IOs of the routes *)

Section RouteIOs.
Import PortGroupListM.

Lemma scan_routes_acc inputs rs : ∀ acc,
  scan_routes inputs rs acc = acc ++ scan_routes inputs rs [].
Proof.
  induction rs as [|rt rs IH]; intros acc; simpl; [by rewrite app_nil_r|].
  destruct (inputs && is_monitor rt); [apply IH|].
  rewrite IH. symmetry. rewrite IH. by rewrite app_assoc.
Qed.

(** The loop over the processors of a route: the set [used_io] holds
    the addresses of the IOs in the list, no IO is taken twice, the list
    only grows at its end, and the IO of each processor is in it. *)
Lemma processors_fold inputs ps : ∀ st : list IO * gset nat,
  (∀ a, a ∈ st.2 ↔ In a (map io_addr st.1)) →
  NoDup (map io_addr st.1) →
  let st' := fold_left (λ st wp, maybe_add_processor_to_list wp inputs st) ps st in
  (∀ a, a ∈ st'.2 ↔ In a (map io_addr st'.1))
  ∧ NoDup (map io_addr st'.1)
  ∧ (∃ more, st'.1 = st.1 ++ more)
  ∧ (∀ i o j, Some (IOProcessor i o) ∈ ps →
       (if inputs then i else o) = Some j → In (io_addr j) (map io_addr st'.1)).
Proof.
  induction ps as [|wp ps IH]; intros st Hset Hnd; cbv zeta.
  - simpl. split; [done|]. split; [done|]. split; [exists []; by rewrite app_nil_r|].
    intros i o j Hin. inversion Hin.
  - simpl fold_left.
    set (st1 := maybe_add_processor_to_list wp inputs st).
    assert (H1 : (∀ a, a ∈ st1.2 ↔ In a (map io_addr st1.1))
                 ∧ NoDup (map io_addr st1.1)
                 ∧ (∃ more, st1.1 = st.1 ++ more)
                 ∧ (∀ i o j, wp = Some (IOProcessor i o) →
                      (if inputs then i else o) = Some j →
                      In (io_addr j) (map io_addr st1.1))).
    { subst st1. unfold maybe_add_processor_to_list.
      destruct wp as [[i o|]|];
        [|(split; [done|]; split; [done|];
           split; [exists []; by rewrite app_nil_r|]; by intros ? ? ? [=])..].
      destruct (if inputs then i else o) as [io'|] eqn:Eio.
      - case_bool_decide as Hnew; cbn [fst snd].
        + split; [|split; [|split]].
          * intros a. rewrite elem_of_union, elem_of_singleton, Hset, map_app, in_app_iff.
            simpl. intuition.
          * rewrite map_app. simpl. apply NoDup_app. split; [done|]. split.
            -- intros a Ha ->%list_elem_of_singleton.
               apply Hnew, Hset. by apply list_elem_of_In.
            -- apply NoDup_singleton.
          * by exists [io'].
          * intros i' o' j [= <- <-] Hj. rewrite Eio in Hj. injection Hj as <-.
            rewrite map_app, in_app_iff. right. by left.
        + split; [done|]. split; [done|]. split; [exists []; by rewrite app_nil_r|].
          intros i' o' j [= <- <-] Hj. rewrite Eio in Hj. injection Hj as <-.
          apply Hset. exact Hnew.
      - split; [done|]. split; [done|]. split; [exists []; by rewrite app_nil_r|].
        intros i' o' j [= <- <-] Hj. congruence. }
    destruct H1 as (Hset1 & Hnd1 & (more1 & Hmore1) & Hin1).
    destruct (IH st1 Hset1 Hnd1) as (Hset' & Hnd' & (more & Hmore) & Hin').
    cbv zeta in Hset', Hnd', Hmore, Hin'.
    split; [done|]. split; [done|]. split.
    + exists (more1 ++ more). by rewrite Hmore, Hmore1, app_assoc.
    + intros i o j [E|Hps]%elem_of_cons Hj; [|by eapply Hin'].
      rewrite Hmore, map_app, in_app_iff. left. eapply Hin1; [by symmetry|exact Hj].
Qed.

(** Stable sorting by the order key. *)
Lemma insert_by_order_perm x l : insert_by_order x l ≡ₚ x :: l.
Proof.
  induction l as [|y l IH]; simpl; [done|].
  destruct (order (route x) <? order (route y)); [done|].
  rewrite IH. apply Permutation_swap.
Qed.

Lemma insert_by_order_sorted x l :
  StronglySorted (λ a b, order (route a) ≤ order (route b)) l →
  StronglySorted (λ a b, order (route a) ≤ order (route b)) (insert_by_order x l).
Proof.
  induction 1 as [|y l Hl IH Hy]; simpl.
  - repeat constructor.
  - destruct (order (route x) <? order (route y)) eqn:E.
    + apply Nat.ltb_lt in E. constructor; [by constructor|].
      constructor; [lia|]. eapply Forall_impl; [exact Hy|]. intros z Hz. simpl in Hz. lia.
    + apply Nat.ltb_ge in E. constructor; [exact IH|].
      rewrite (insert_by_order_perm x l). by constructor.
Qed.

(** The entries with a given key stay in the order they came in. *)
Lemma insert_by_order_stable k x l :
  StronglySorted (λ a b, order (route a) ≤ order (route b)) l →
  List.filter (λ i, order (route i) =? k) (insert_by_order x l)
  = List.filter (λ i, order (route i) =? k) l
    ++ List.filter (λ i, order (route i) =? k) [x].
Proof.
  induction 1 as [|y l Hl IH Hy]; simpl; [done|].
  destruct (order (route x) <? order (route y)) eqn:E.
  - apply Nat.ltb_lt in E. simpl.
    destruct (order (route x) =? k) eqn:Ex.
    + apply Nat.eqb_eq in Ex.
      assert ((order (route y) =? k) = false) as -> by (apply Nat.eqb_neq; lia).
      assert (List.filter (λ i, order (route i) =? k) l = []) as ->.
      { apply filter_none. intros z Hz. apply Nat.eqb_neq.
        rewrite Forall_forall in Hy. specialize (Hy z Hz). simpl in Hy. lia. }
      done.
    + by rewrite app_nil_r.
  - simpl. rewrite IH. simpl.
    destruct (order (route y) =? k); [done|done].
Qed.

Lemma sort_by_order_from l : ∀ acc,
  StronglySorted (λ a b, order (route a) ≤ order (route b)) acc →
  let s := fold_left (λ sorted x, insert_by_order x sorted) l acc in
  s ≡ₚ acc ++ l
  ∧ StronglySorted (λ a b, order (route a) ≤ order (route b)) s
  ∧ ∀ k, List.filter (λ i, order (route i) =? k) s
         = List.filter (λ i, order (route i) =? k) (acc ++ l).
Proof.
  induction l as [|x l IH]; intros acc Hacc; cbv zeta; simpl.
  - rewrite app_nil_r. done.
  - destruct (IH (insert_by_order x acc) (insert_by_order_sorted x acc Hacc))
      as (Hp & Hs & Hk). cbv zeta in Hp, Hs, Hk.
    split; [|split; [exact Hs|]].
    + rewrite Hp, insert_by_order_perm. simpl. apply Permutation_middle.
    + intros k. rewrite Hk, !List.filter_app, insert_by_order_stable by done.
      simpl. destruct (order (route x) =? k); simpl; by rewrite <- ?app_assoc, ?app_nil_r.
Qed.

End RouteIOs.

(** X23.  The first loop of [gather] makes one entry for each route of
    the session, in the order of the session, but none for a monitor
    route on the input side.  An entry starts with the input or output
    of its route, followed by IOs of processors of the route on the same
    side; no IO object is in it twice, and the IO of every processor of
    the route is in it. *)
Theorem scan_routes_entries (inputs : bool) (routes : list Route) :
  let scanned := PortGroupListM.scan_routes inputs routes [] in
  map PortGroupListM.route scanned
  = List.filter (λ rt, negb (inputs && is_monitor rt)) routes
  ∧ ∀ i, i ∈ scanned →
      (∃ more, PortGroupListM.ios i
               = (if inputs then input (PortGroupListM.route i)
                  else output (PortGroupListM.route i)) :: more)
      ∧ NoDup (map io_addr (PortGroupListM.ios i))
      ∧ (∀ j, j ∈ PortGroupListM.ios i →
              Spec.io_of_route inputs (PortGroupListM.route i) j)
      ∧ (∀ p_in p_out j,
           Some (IOProcessor p_in p_out) ∈ processors (PortGroupListM.route i) →
           (if inputs then p_in else p_out) = Some j →
           ∃ j', j' ∈ PortGroupListM.ios i ∧ io_addr j' = io_addr j).
Proof.
  intros scanned. subst scanned. split.
  - induction routes as [|rt rs IH]; simpl; [done|].
    destruct (inputs && is_monitor rt); simpl; [exact IH|].
    rewrite scan_routes_acc, map_app, IH. reflexivity.
  - induction routes as [|rt rs IH]; simpl; [intros i Hi; inversion Hi|].
    destruct (inputs && is_monitor rt) eqn:Eskip; [exact IH|].
    intros i. rewrite scan_routes_acc.
    intros [Hi%list_elem_of_singleton|Hi]%elem_of_app; [|by apply IH].
    subst i. cbn [PortGroupListM.route PortGroupListM.ios].
    set (io0 := if inputs then input rt else output rt).
    destruct (processors_fold inputs (processors rt) ([io0], {[io_addr io0]}))
      as (Hset & Hnd & (more & Hmore) & Hin).
    { intros a. cbn [fst snd map]. rewrite elem_of_singleton. simpl. intuition. }
    { cbn [fst map]. apply NoDup_singleton. }
    cbv zeta in Hset, Hnd, Hmore, Hin. split; [|split; [|split]].
    + exists more. exact Hmore.
    + exact Hnd.
    + apply maybe_add_processors_origin; [done|]. cbn [fst].
      intros j ->%list_elem_of_singleton. by left.
    + intros p_in p_out j Hp Hj.
      pose proof (Hin p_in p_out j Hp Hj) as Hj'.
      apply in_map_iff in Hj' as (j' & E & Hj').
      exists j'. split; [by apply list_elem_of_In|done].
Qed.

(** X24.  The second loop of [gather] visits the entries of the scan
    sorted by the order key of their routes: the sorted list has the
    same entries, the keys never decrease along it, and the entries with
    the same key stay in the order of the scan. *)
Theorem sort_by_order_stable (l : list PortGroupListM.RouteIOs) :
  PortGroupListM.sort_by_order l ≡ₚ l
  ∧ StronglySorted (λ a b, order (PortGroupListM.route a) ≤ order (PortGroupListM.route b))
      (PortGroupListM.sort_by_order l)
  ∧ ∀ k, List.filter (λ i, order (PortGroupListM.route i) =? k)
           (PortGroupListM.sort_by_order l)
         = List.filter (λ i, order (PortGroupListM.route i) =? k) l.
Proof.
  destruct (sort_by_order_from l [] (SSorted_nil _)) as (Hp & Hs & Hk).
  exact (conj Hp (conj Hs Hk)).
Qed.

(** ** The bundles of the session *)

Section SessionBundles.
Context `{BundleLib} `{Host}.
Import PortGroupListM.

(** Bundles offered to "Hardware" one after the other. *)
Lemma offer_filtered allow_dups (f : bool * Bundle → bool) xs : ∀ L,
  let L' := state_of (for_each xs (λ i, if f i
                                        then on System (PortGroupM.add_bundle i.2 allow_dups)
                                        else ret tt) L) in
  ∃ new,
    _bundles (group L' System) = _bundles (group L System) ++ map unowned new
    ∧ (∀ c, c ≠ System → group L' c = group L c)
    ∧ sublist new (map snd (List.filter f xs))
    ∧ (allow_dups = true → new = map snd (List.filter f xs))
    ∧ (∀ b, b ∈ map snd (List.filter f xs) →
         ∃ x, x ∈ _bundles (group L' System)
              ∧ (x = unowned b
                 ∨ (allow_dups = false ∧ has_same_ports b (bundle x) = true))).
Proof.
  induction xs as [|[u b] xs IH]; intros L; cbv zeta.
  - exists []. simpl. rewrite app_nil_r. repeat split; try done.
    intros b Hb. inversion Hb.
  - simpl for_each. rewrite state_bind. simpl List.filter.
    destruct (f (u, b)) eqn:Ef; cbn [snd].
    + set (L1 := state_of (on System (PortGroupM.add_bundle b allow_dups) L)).
      destruct (IH L1) as (new & Hg & Ho & Hsub & Hall & Hrep). cbv zeta in *.
      unfold PortGroupM.add_bundle in L1.
      destruct (add_bundle_internal_cases b None false Color_default allow_dups
                  (group L System)) as [(Had & Hs & E)|(_ & E)].
      * assert (HL1 : ∀ c, group L1 c = group L c).
        { intros c. subst L1. destruct (decide (System = c)) as [<-|Hne].
          - by rewrite group_on_same, E.
          - by rewrite group_on_other. }
        exists new. split; [by rewrite Hg, HL1|]. split.
        { intros c Hc. by rewrite Ho, HL1. }
        split; [by apply sublist_cons|]. split; [intros ->; done|].
        simpl map. intros b' [->|Hb']%elem_of_cons; [|by apply Hrep].
        apply find_same_ports_Some in Hs as (x & Hx & Hsame).
        exists x. split; [|by right].
        rewrite Hg, HL1. apply elem_of_app. by left.
      * assert (HL1 : _bundles (group L1 System)
                      = _bundles (group L System) ++ [unowned b]).
        { subst L1. by rewrite group_on_same, E. }
        exists (b :: new). split; [by rewrite Hg, HL1, <- app_assoc|]. split.
        { intros c Hc. rewrite Ho by done. subst L1. by rewrite group_on_other. }
        split; [by apply sublist_skip|]. split; [intros Had; by rewrite Hall|].
        simpl map. intros b' [->|Hb']%elem_of_cons; [|by apply Hrep].
        exists (unowned b). split; [|by left].
        rewrite Hg, HL1. apply elem_of_app. left. apply elem_of_app. right. left.
    + cbn [ret state_of value_of fst snd]. apply IH.
Qed.

End SessionBundles.

(** X25.  [gather] offers the bundles of the session to "Hardware" in
    two passes: first the user bundles of the direction asked for, then,
    only with [use_session_bundles], the other bundles of that direction.
    The records appended are a selection of these candidates, in that
    order, all of them when duplicates are allowed; no other group
    changes.  Without duplicates every candidate is in the group
    afterwards or has the same ports as a record of the group, so that a
    user bundle wins over a later bundle with the same ports. *)
Theorem session_bundles_user_first `{BundleLib} `{Host}
    (session : Session) (inputs allow_dups use_session_bundles : bool)
    (L : PortGroupListM.Locals) :
  let L' := state_of (PortGroupListM.add_session_bundles session inputs allow_dups
                        use_session_bundles L) in
  let candidates := Spec.session_candidates session inputs use_session_bundles in
  ∃ new,
    _bundles (PortGroupListM.group L' PortGroupListM.System)
    = _bundles (PortGroupListM.group L PortGroupListM.System)
      ++ map PortGroupListM.unowned new
    ∧ (∀ c, c ≠ PortGroupListM.System →
            PortGroupListM.group L' c = PortGroupListM.group L c)
    ∧ sublist new candidates
    ∧ (allow_dups = true → new = candidates)
    ∧ (∀ b, b ∈ candidates →
         ∃ x, x ∈ _bundles (PortGroupListM.group L' PortGroupListM.System)
              ∧ (x = PortGroupListM.unowned b
                 ∨ (allow_dups = false ∧ has_same_ports b (bundle x) = true))).
Proof.
  intros L' candidates. subst L' candidates.
  unfold PortGroupListM.add_session_bundles, Spec.session_candidates.
  rewrite state_bind.
  destruct (offer_filtered allow_dups
              (λ i : bool * Bundle, i.1 && Bool.eqb (ports_are_inputs i.2) inputs)
              (session_bundles session) L) as (new1 & Hg1 & Ho1 & Hsub1 & Hall1 & Hrep1).
  cbv zeta in Hg1, Ho1, Hsub1, Hall1, Hrep1.
  set (L1 := state_of (for_each (session_bundles session) _ L)) in *.
  destruct use_session_bundles.
  - destruct (offer_filtered allow_dups
                (λ i : bool * Bundle, negb i.1 && Bool.eqb (ports_are_inputs i.2) inputs)
                (session_bundles session) L1) as (new2 & Hg2 & Ho2 & Hsub2 & Hall2 & Hrep2).
    cbv zeta in Hg2, Ho2, Hsub2, Hall2, Hrep2.
    exists (new1 ++ new2).
    split; [by rewrite Hg2, Hg1, map_app, <- app_assoc|].
    split; [intros c Hc; by rewrite Ho2, Ho1|].
    split; [by apply sublist_app|]. split; [intros Had; by rewrite Hall1, Hall2|].
    intros b [Hb|Hb]%elem_of_app; [|by apply Hrep2].
    destruct (Hrep1 b Hb) as (x & Hx & Hor). exists x. split; [|done].
    rewrite Hg2. apply elem_of_app. by left.
  - exists new1. cbn [ret state_of value_of fst snd]. rewrite !app_nil_r.
    split; [done|]. split; [done|]. split; [done|]. split; [done|]. exact Hrep1.
Qed.

(** ** The test of remove_duplicates *)

Section Represented.
Context `{BundleLib}.
Import PortGroupM.

(** The loop over [l] stops at the first channel of [bj] with the ports
    [pk]. *)
Lemma scan_l_complete pk bj fuel : ∀ l l',
  l ≤ l' < l + fuel → pk = BundleOps.channel_ports bj l' →
  scan_l fuel l pk bj ≤ l'.
Proof.
  induction fuel as [|fuel IH]; intros l l' Hl Hp; simpl; [lia|].
  case_bool_decide as Hne; [|lia].
  destruct (decide (l' = l)) as [->|Hl']; [done|].
  apply IH; [lia|done].
Qed.

(** The loop over [k] runs to the end when every channel of [bi] has
    its ports on a channel of [bj]. *)
Lemma scan_k_complete bi bj fuel : ∀ k,
  (∀ k', k ≤ k' < k + fuel →
     ∃ l, l < ChanCountOps.n_total (BundleOps.nchannels bj)
          ∧ BundleOps.channel_ports bi k' = BundleOps.channel_ports bj l) →
  scan_k fuel k bi bj = k + fuel.
Proof.
  induction fuel as [|fuel IH]; intros k Hall; simpl; [lia|].
  destruct (Hall k) as (l & Hl & Hp); [lia|].
  pose proof (scan_l_complete (BundleOps.channel_ports bi k) bj
                (ChanCountOps.n_total (BundleOps.nchannels bj)) 0 l) as Hle.
  destruct (Nat.eqb_spec
              (scan_l (ChanCountOps.n_total (BundleOps.nchannels bj)) 0
                 (BundleOps.channel_ports bi k) bj)
              (ChanCountOps.n_total (BundleOps.nchannels bj))) as [E|_].
  - specialize (Hle ltac:(lia) Hp). lia.
  - rewrite IH; [lia|]. intros k' Hk'. apply Hall. lia.
Qed.

Lemma represented_by_spec bi bj :
  represented_by bi bj = true ↔
  chancount_gt (BundleOps.nchannels bj) (BundleOps.nchannels bi) = true
  ∧ Spec.channels_within bi bj.
Proof.
  unfold represented_by.
  destruct (chancount_gt (BundleOps.nchannels bj) (BundleOps.nchannels bi)); cycle 1.
  { split; [done|by intros [? _]]. }
  cbv zeta. rewrite Nat.eqb_eq. split.
  - intros Hk. split; [done|]. intros k Hk'.
    destruct (scan_k_spec (ChanCountOps.n_total (BundleOps.nchannels bi)) 0 bi bj)
      as [_ Hall].
    apply Hall; [done|lia].
  - intros [_ Hin]. rewrite scan_k_complete; [done|].
    intros k' Hk'. apply Hin. lia.
Qed.

Lemma to_remove_spec i l :
  to_remove i l = true ↔ ∃ j, j ∈ l ∧ represented_by (bundle i) (bundle j) = true.
Proof.
  unfold to_remove. rewrite existsb_exists. split.
  - intros (j & Hj & Hr). exists j. split; [by apply list_elem_of_In|done].
  - intros (j & Hj & Hr). exists j. split; [by apply list_elem_of_In|done].
Qed.

Hypothesis gt_trans : ∀ a b c,
  chancount_gt a b = true → chancount_gt b c = true → chancount_gt a c = true.
Hypothesis gt_total : ∀ a b,
  chancount_gt a b = true → ChanCountOps.n_total b < ChanCountOps.n_total a.

Lemma represented_by_trans a b c :
  represented_by a b = true → represented_by b c = true → represented_by a c = true.
Proof.
  rewrite !represented_by_spec. intros [Hab Wab] [Hbc Wbc]. split; [by eapply gt_trans|].
  intros k Hk. destruct (Wab k Hk) as (l & Hl & E).
  destruct (Wbc l Hl) as (m & Hm & E'). exists m. split; [done|congruence].
Qed.

(** A record that is represented has a representative that is not
    represented itself. *)
Lemma represented_by_top l i :
  to_remove i l = true →
  ∃ j, j ∈ l ∧ represented_by (bundle i) (bundle j) = true ∧ to_remove j l = false.
Proof.
  assert (Hgen : ∀ n j, j ∈ l → represented_by (bundle i) (bundle j) = true →
            ChanCountOps.n_total (BundleOps.nchannels (bundle j)) + n
            > list_max (map (λ r, ChanCountOps.n_total (BundleOps.nchannels (bundle r))) l) →
            ∃ j', j' ∈ l ∧ represented_by (bundle i) (bundle j') = true
                  ∧ to_remove j' l = false).
  { assert (Hmax : ∀ x, x ∈ l →
              ChanCountOps.n_total (BundleOps.nchannels (bundle x))
              ≤ list_max (map (λ r, ChanCountOps.n_total (BundleOps.nchannels (bundle r))) l)).
    { intros x Hx.
      pose proof (proj1 (list_max_le
                   (map (λ r, ChanCountOps.n_total (BundleOps.nchannels (bundle r))) l) _)
                   (Nat.le_refl _)) as Hall.
      rewrite List.Forall_forall in Hall. apply Hall.
      apply (in_map (λ r, ChanCountOps.n_total (BundleOps.nchannels (bundle r)))).
      by apply list_elem_of_In. }
    induction n as [|n IH]; intros j Hj Hr Hn.
    - specialize (Hmax j Hj). lia.
    - destruct (to_remove j l) eqn:Ej; [|by exists j].
      apply to_remove_spec in Ej as (j2 & Hj2 & Hr2).
      apply (IH j2 Hj2); [by eapply represented_by_trans|].
      apply represented_by_spec in Hr2 as [Hgt _]. apply gt_total in Hgt. lia. }
  intros (j & Hj & Hr)%to_remove_spec.
  apply (Hgen (S (list_max (map (λ r, ChanCountOps.n_total
                                        (BundleOps.nchannels (bundle r))) l))) j Hj Hr).
  lia.
Qed.

(** The loop over [i], against the whole list [all]. *)
Lemma remove_duplicates_from_filter all rest : ∀ done,
  (∀ x, x ∈ done ++ rest → x ∈ all) →
  (∀ x, x ∈ all → to_remove x all = false → x ∈ done ++ rest) →
  remove_duplicates_from done rest
  = done ++ List.filter (λ i, negb (to_remove i all)) rest.
Proof.
  induction rest as [|i tmp IH]; intros done Hsub Htop; simpl.
  - by rewrite app_nil_r.
  - assert (Esame : to_remove i (done ++ i :: tmp) = to_remove i all).
    { destruct (to_remove i all) eqn:Eall.
      - destruct (represented_by_top all i Eall) as (j & Hj & Hr & Hjtop).
        apply to_remove_spec. exists j. split; [by apply Htop|done].
      - by eapply to_remove_mono. }
    rewrite Esame. destruct (to_remove i all) eqn:Eall; simpl.
    + apply IH.
      * intros x Hx. apply Hsub. rewrite elem_of_app in Hx |- *.
        destruct Hx; [by left|right; by right].
      * intros x Hx Hxtop. specialize (Htop x Hx Hxtop).
        rewrite elem_of_app in Htop |- *.
        destruct Htop as [?|[->|?]%elem_of_cons]; [by left|congruence|by right].
    + rewrite IH, <- app_assoc; [done| |].
      * intros x Hx. apply Hsub. by rewrite <- app_assoc in Hx.
      * intros x Hx Hxtop. rewrite <- app_assoc. by apply Htop.
Qed.

End Represented.

(** X26.  The two inner loops of [remove_duplicates] decide exactly
    this: the bundle of [j] has more channels, as [ChanCount::operator>]
    tells, and every channel of the bundle of [i] has the same port list
    as some channel of the bundle of [j]. *)
Theorem represented_by_iff `{BundleLib} (bi bj : Bundle) :
  PortGroupM.represented_by bi bj = true ↔
  chancount_gt (BundleOps.nchannels bj) (BundleOps.nchannels bi) = true
  ∧ Spec.channels_within bi bj.
Proof. apply represented_by_spec. Qed.

(** X27.  When the comparison of channel counts is transitive and
    implies a larger total, the outcome of [remove_duplicates] does not
    depend on the order in which it erases: what is left are exactly the
    records that no record of the list, as it was before the call,
    represents. *)
Theorem remove_duplicates_order_free `{BundleLib}
    (gt_trans : ∀ a b c,
       chancount_gt a b = true → chancount_gt b c = true → chancount_gt a c = true)
    (gt_total : ∀ a b,
       chancount_gt a b = true → ChanCountOps.n_total b < ChanCountOps.n_total a)
    (g : PortGroup) :
  _bundles (state_of (PortGroupM.remove_duplicates g))
  = List.filter (λ i, negb (PortGroupM.to_remove i (_bundles g))) (_bundles g).
Proof.
  rewrite remove_duplicates_run. cbn [state_of fst snd _bundles].
  by rewrite (remove_duplicates_from_filter gt_trans gt_total (_bundles g)).
Qed.

Lemma chancount_gt_per_type_trans (a b c : ChanCount) :
  Concrete.chancount_gt_per_type a b = true →
  Concrete.chancount_gt_per_type b c = true →
  Concrete.chancount_gt_per_type a c = true.
Proof.
  unfold Concrete.chancount_gt_per_type.
  rewrite !andb_true_iff, !negb_true_iff, !bool_decide_eq_false, !Nat.leb_le.
  intros [[? ?] Hab] [[? ?] Hbc]. split; [split; lia|].
  intros ->. apply Hab. destruct b, c; simpl in *. f_equal; lia.
Qed.

(** The mono bundle that is the first channel of the stereo bundle goes,
    wherever it stands. *)
Lemma remove_duplicates_order_free_witness :
  let g := mkPortGroup "Hardware"
             [Concrete.record_of Concrete.stereo; Concrete.record_of Concrete.mono;
              Concrete.record_of Concrete.other_mono] in
  _bundles (state_of (@PortGroupM.remove_duplicates Concrete.lib g))
  = [Concrete.record_of Concrete.stereo; Concrete.record_of Concrete.other_mono].
Proof.
  intros g.
  etrans; [exact (@remove_duplicates_order_free Concrete.lib
                    chancount_gt_per_type_trans chancount_gt_per_type_total g)|].
  reflexivity.
Defined.

(** ** The prefix is never longer than a name *)

(** X28.  The calls of [substr] in [make_bundle_from_ports] and
    [common_prefix_before] start within the string: a common prefix is
    never longer than a name of the list, so [p[j].substr (pre.length ())]
    cannot throw [std::out_of_range], and the prefix that
    [common_prefix_before] cuts from the first name is a part of it. *)
Theorem substr_starts_in_range (p : list string) :
  (∀ s, s ∈ p →
        String.length (PortGroupListM.common_prefix p) ≤ String.length s)
  ∧ (∀ sep s, s ∈ p →
        String.length (PortGroupListM.common_prefix_before p sep) ≤ String.length s).
Proof.
  split.
  - intros s Hs. by apply common_prefix_in_range.
  - intros sep s Hs. by apply common_prefix_before_in_range.
Qed.

(** ** The small studio *)

(** The groups of the studio, by the names and ports of their bundles. *)
Lemma studio_groups_bundles :
  map (λ c, map (λ r, (b_name (bundle r), Spec.bundle_ports (bundle r)))
                (_bundles (PortGroupListM.group Concrete.studio_groups c)))
      [PortGroupListM.Bus; PortGroupListM.Track; PortGroupListM.Sidechain;
       PortGroupListM.IopPre; PortGroupListM.IopPost; PortGroupListM.Program;
       PortGroupListM.Other; PortGroupListM.System]
  = [[("Bus 1 in", ["ardour:Bus 1/audio_in 1"])];
     [("Audio 1 in", ["ardour:Audio 1/audio_in 1"]);
      ("Send in", ["ardour:Audio 1/send_in 1"])];
     [("Comp SC", ["ardour:Audio 1/sc_in 1"])];
     [("Reverb in", ["ardour:Reverb/audio_in 1"])];
     [];
     [("Sync", []); ("Sync", ["ardour:MMC in"]); ("ardour", ["ardour:LTC-in"])];
     [("zita", ["zita:in_1"])];
     [("playback", ["system:playback_1"; "system:playback_2"]);
      ("system", ["system:playback_3"])]]%string.
Proof. vm_compute. reflexivity. Qed.

Section Studio.
Local Existing Instance Concrete.lib.
Local Existing Instance Concrete.studio_host.

(** The port of another client goes to [extra_other]. *)
Lemma extra_ports_classified_witness :
  let L := PortGroupListM.mkLocals PortGroupListM.new_groups heap_start in
  "zita:in_1"%string
  ∈ PortGroupListM.bucket (PortGroupListM.find_extra_ports L NIL true false)
      PortGroupListM.InOther AUDIO.
Proof.
  intros L.
  apply (proj1 (extra_ports_classified L NIL true false)
           PortGroupListM.InOther AUDIO "zita:in_1"%string).
  split; [vm_compute; discriminate|].
  split; [apply list_elem_of_In; vm_compute; tauto|].
  split; [right; intros c; by destruct c|].
  split; [reflexivity|]. split; [reflexivity|]. split; [reflexivity|].
  exists (mkPortHandle AUDIO false false).
  split; [reflexivity|]. split; [reflexivity|]. split; [discriminate|].
  split; [reflexivity|]. split; reflexivity.
Defined.

(** The send of the track, in "Tracks", with the colour of the track. *)
Lemma gather_route_records_witness :
  Spec.from_route Concrete.studio_session NIL true PortGroupListM.Track
    (PortGroupListM.owned Concrete.send_input (Some (mkColor 1 2 3))).
Proof.
  apply (proj2 (gather_route_records Concrete.studio_session NIL true false true)).
  apply list_elem_of_In. vm_compute. tauto.
Defined.

(** The side chain of the compressor on the track. *)
Lemma gather_sidechain_records_witness :
  Spec.from_sidechain Concrete.studio_session
    (PortGroupListM.owned Concrete.sidechain_input (Some (mkColor 1 2 3))).
Proof.
  apply (proj1 (gather_sidechain_records Concrete.studio_session NIL false true)).
  apply list_elem_of_In. vm_compute. tauto.
Defined.

(** The input of the reverb, a pre plugin. *)
Lemma gather_io_plug_records_witness :
  Spec.from_io_plug Concrete.studio_session NIL true PortGroupListM.IopPre
    (PortGroupListM.owned Concrete.plug_in None).
Proof.
  apply (proj1 (gather_io_plug_records Concrete.studio_session NIL true false true)).
  apply list_elem_of_In. vm_compute. tauto.
Defined.

(** The bundle made for the third playback port, in "Hardware". *)
Lemma gather_port_records_witness :
  let b := mkBundle 102 "system" true
             [mkChannel "playback_3" AUDIO ["system:playback_3"%string]] in
  ports_are_inputs b = true
  ∧ (Spec.from_session Concrete.studio_session true true b
     ∨ Spec.made_of PortGroupListM.InSystem NIL true b).
Proof.
  intros b.
  apply (proj1 (gather_port_records Concrete.studio_session NIL true false true)
           (PortGroupListM.unowned b)).
  apply list_elem_of_In. vm_compute. tauto.
Defined.

(** The owner of the bundle of the send is found in "Tracks". *)
Lemma gather_owners_witness :
  BundleOps.same_object (io_bundle Concrete.send_input) (io_bundle Concrete.send_input)
  = true.
Proof.
  apply (proj1 (proj2 (proj2 (proj2 (proj2
           (gather_owners Concrete.studio_session NIL true false true
              (λ _, true) (io_bundle Concrete.send_input))))))
           PortGroupListM.Track Concrete.send_input).
  vm_compute. reflexivity.
Defined.

End Studio.

(** A mono and a stereo bundle taken, the mono one removed, the group
    cleared: the subscriptions to the stereo bundle are balanced.  When
    [remove_duplicates] erases the record of the mono bundle instead, its
    subscription stays open. *)
Lemma subscriptions_balance_witness :
  let add b := PortGroupM.OAdd b None false Color_default true in
  let r := for_each [add Concrete.mono; add Concrete.stereo;
                     PortGroupM.ORemove Concrete.mono; PortGroupM.OClear]
             (@PortGroupM.run_op Concrete.lib) (PortGroupM.new "Hardware") in
  let r' := for_each [add Concrete.mono; add Concrete.stereo;
                      PortGroupM.ORemoveDuplicates]
              (@PortGroupM.run_op Concrete.lib) (PortGroupM.new "Hardware") in
  Spec.opened 2 (trace_of r)
  = Spec.closed 2 (trace_of r) + Spec.held 2 (_bundles (state_of r))
  ∧ Spec.opened 1 (trace_of r') = 1
  ∧ Spec.closed 1 (trace_of r') + Spec.held 1 (_bundles (state_of r')) = 0.
Proof.
  intros add r r'. split; [|split; reflexivity].
  apply (proj2 (@subscriptions_balance Concrete.lib
                  [add Concrete.mono; add Concrete.stereo;
                   PortGroupM.ORemove Concrete.mono; PortGroupM.OClear]
                  "Hardware" 2)).
  reflexivity.
Defined.

(** ** remove_duplicates loses no port *)

Section KeepsPorts.
Context `{BundleLib}.
Import PortGroupM.

Hypothesis gt_total : ∀ a b,
  chancount_gt a b = true → ChanCountOps.n_total b < ChanCountOps.n_total a.

(** With channels of real types only, the total of [nchannels] is the
    number of channels. *)
Lemma nchannels_total_real chs : ∀ c,
  (∀ ch, ch ∈ chs → ch_type ch ≠ NIL) →
  ChanCountOps.n_total
    (fold_left (λ c ch, ChanCountOps.set c (ch_type ch)
                          (S (ChanCountOps.n c (ch_type ch)))) chs c)
  = ChanCountOps.n_total c + length chs.
Proof.
  induction chs as [|ch chs IH]; intros c Hreal; simpl; [lia|].
  rewrite IH by (intros x Hx; apply Hreal; by right).
  specialize (Hreal ch (list_elem_of_here _ _)).
  destruct (ch_type ch), c; try done; unfold ChanCountOps.n_total; simpl; lia.
Qed.

(** A port that a bundle offers alone is offered alone by a bundle that
    represents it. *)
Lemma represented_offers a b p :
  (∀ ch, ch ∈ b_channel a → ch_type ch ≠ NIL) →
  represented_by a b = true →
  BundleOps.offers_port_alone a p = true → BundleOps.offers_port_alone b p = true.
Proof.
  intros Hreal [_ Hin]%represented_by_spec Ha.
  unfold BundleOps.offers_port_alone in *.
  apply existsb_exists in Ha as (ch & Hch%list_elem_of_In & Hp%bool_decide_eq_true).
  apply list_elem_of_lookup in Hch as [k Hk].
  destruct (Hin k) as (l & _ & E).
  { unfold BundleOps.nchannels. rewrite nchannels_total_real by done. simpl.
    by eapply lookup_lt_Some. }
  unfold BundleOps.channel_ports in E. rewrite Hk, Hp in E.
  destruct (b_channel b !! l) as [ch'|] eqn:El; [|done].
  apply existsb_exists. exists ch'. split.
  - apply list_elem_of_In. by eapply list_elem_of_lookup_2.
  - by apply bool_decide_eq_true.
Qed.

Lemma represented_by_irrefl a : represented_by a a = false.
Proof.
  apply not_true_iff_false. intros [Hgt _]%represented_by_spec.
  apply gt_total in Hgt. lia.
Qed.

Lemma remove_duplicates_from_ports p rest : ∀ done,
  (∀ r ch, r ∈ rest → ch ∈ b_channel (bundle r) → ch_type ch ≠ NIL) →
  existsb (λ r, BundleOps.offers_port_alone (bundle r) p)
          (remove_duplicates_from done rest)
  = existsb (λ r, BundleOps.offers_port_alone (bundle r) p) (done ++ rest).
Proof.
  induction rest as [|i tmp IH]; intros done Hreal; simpl; [by rewrite app_nil_r|].
  destruct (to_remove i (done ++ i :: tmp)) eqn:Hrm.
  - rewrite IH by (intros r ch Hr; apply Hreal; by right).
    rewrite !existsb_app. simpl.
    destruct (BundleOps.offers_port_alone (bundle i) p) eqn:Hi; [|done].
    apply to_remove_spec in Hrm as (j & Hj & Hrep).
    assert (Hoff : BundleOps.offers_port_alone (bundle j) p = true).
    { eapply represented_offers; [|exact Hrep|exact Hi].
      intros ch Hch. eapply Hreal; [left|done]. }
    assert (Hne : j ≠ i) by (intros ->; by rewrite represented_by_irrefl in Hrep).
    simpl. rewrite orb_true_r. rewrite <- existsb_app. apply existsb_exists.
    exists j. split; [|done]. apply list_elem_of_In.
    rewrite elem_of_app in Hj |- *.
    destruct Hj as [?|[?|?]%elem_of_cons]; [by left|done|by right].
  - rewrite IH by (intros r ch Hr; apply Hreal; by right).
    by rewrite <- app_assoc.
Qed.

End KeepsPorts.

(** X29.  [remove_duplicates] loses no port: when the comparison of
    channel counts implies a larger total and the channels of the
    bundles have real types, the group offers a port alone ([has_port])
    after the call exactly when it did before. *)
Theorem remove_duplicates_keeps_ports `{BundleLib}
    (gt_total : ∀ a b,
       chancount_gt a b = true → ChanCountOps.n_total b < ChanCountOps.n_total a)
    (g : PortGroup)
    (real : ∀ r ch, r ∈ _bundles g → ch ∈ b_channel (bundle r) → ch_type ch ≠ NIL)
    (p : string) :
  PortGroupM.has_port (state_of (PortGroupM.remove_duplicates g)) p
  = PortGroupM.has_port g p.
Proof.
  rewrite remove_duplicates_run. unfold PortGroupM.has_port.
  cbn [state_of fst snd _bundles].
  by rewrite (remove_duplicates_from_ports gt_total p (_bundles g) []).
Qed.

(** The first capture port, offered by the mono bundle that goes, is
    still offered by the stereo bundle. *)
Lemma remove_duplicates_keeps_ports_witness :
  let g := mkPortGroup "Hardware"
             [Concrete.record_of Concrete.mono; Concrete.record_of Concrete.stereo] in
  PortGroupM.has_port (state_of (@PortGroupM.remove_duplicates Concrete.lib g))
    "system:capture_1" = true
  ∧ _bundles (state_of (@PortGroupM.remove_duplicates Concrete.lib g))
    = [Concrete.record_of Concrete.stereo].
Proof.
  intros g. split; [|reflexivity].
  etrans; [apply (@remove_duplicates_keeps_ports Concrete.lib
                    chancount_gt_per_type_total g)|reflexivity].
  intros r ch Hr Hch.
  apply list_elem_of_In in Hr. apply list_elem_of_In in Hch.
  simpl in Hr. destruct Hr as [<-|[<-|[]]]; simpl in Hch;
    repeat (destruct Hch as [<-|Hch]; [discriminate|]); destruct Hch.
Defined.

(** ** remove_bundle on the list, and the owner *)

Section ListRemove.
Import PortGroupM.

Lemma holds_held b g :
  PortGroupListM.holds b g = false ↔ Spec.held (b_addr b) (_bundles g) = 0.
Proof.
  unfold PortGroupListM.holds, Spec.held, BundleOps.same_object.
  induction (_bundles g) as [|r bs IH]; simpl; [done|].
  rewrite (Nat.eqb_sym (b_addr b)).
  destruct (b_addr (bundle r) =? b_addr b); simpl; [done|exact IH].
Qed.

Lemma remove_bundle_held b g :
  Spec.held (b_addr b) (_bundles (state_of (remove_bundle b g)))
  = pred (Spec.held (b_addr b) (_bundles g)).
Proof.
  destruct (remove_bundle_cases b g)
    as [(Hn & ->)|(pre & x & post & Hg & Hx & Hpre & ->)];
    cbn [state_of fst snd _bundles].
  - apply holds_false in Hn. apply holds_held in Hn. by rewrite Hn.
  - rewrite Hg. unfold Spec.held. rewrite !List.filter_app, !length_app. simpl.
    unfold BundleOps.same_object in Hx. rewrite (Nat.eqb_sym (b_addr b)), Hx. simpl.
    rewrite (filter_none _ pre).
    + simpl. lia.
    + intros r Hr. rewrite Nat.eqb_sym. by apply Hpre.
Qed.

End ListRemove.

Section SharedRemove.
Import Shared.

(** One record of the bundle goes for each time the object is a
    member. *)
Lemma removed_from_held b members : ∀ h a,
  Spec.held (b_addr b) (_bundles (removed_from b members h a))
  = Spec.held (b_addr b) (_bundles (h a)) - occurrences a members.
Proof.
  unfold occurrences.
  induction members as [|a0 members IH]; intros h a; simpl; [lia|].
  rewrite IH. destruct (Nat.eqb_spec a a0) as [->|Hne]; simpl.
  - rewrite fn_lookup_insert, remove_bundle_held. lia.
  - rewrite fn_lookup_insert_ne by done. lia.
Qed.

End SharedRemove.

(** X30.  [PortGroupList::remove_bundle] takes one record of the bundle,
    the first, out of a group for each time the group object is a member
    of the list: a group that is a member twice loses two records, and a
    group that is no member none.  So when no member holds the bundle
    more often than it is a member, no member holds it afterwards and
    [io_from_bundle] finds no owner for it; a bundle recorded twice in a
    group that is a member once is still held. *)
Theorem remove_bundle_once_per_member (alive : IO → bool) (b : Bundle) (w : Shared.World) :
  let w' := state_of (Shared.remove_bundle b w) in
  (∀ a, Spec.held (b_addr b) (_bundles (Shared.heap w' a))
        = Spec.held (b_addr b) (_bundles (Shared.heap w a))
          - Shared.occurrences a (Shared._groups w))
  ∧ ((∀ a, a ∈ Shared._groups w →
           Spec.held (b_addr b) (_bundles (Shared.heap w a))
           ≤ Shared.occurrences a (Shared._groups w)) →
     (∀ a, a ∈ Shared._groups w' → PortGroupListM.holds b (Shared.heap w' a) = false)
     ∧ Shared.io_from_bundle alive w' b = None)
  ∧ (∀ a, Shared.occurrences a (Shared._groups w) = 1 →
          2 ≤ Spec.held (b_addr b) (_bundles (Shared.heap w a)) →
          PortGroupListM.holds b (Shared.heap w' a) = true).
Proof.
  intros w'.
  assert (Hw : Shared.heap w' = Shared.removed_from b (Shared._groups w) (Shared.heap w)
               ∧ Shared._groups w' = Shared._groups w).
  { subst w'. rewrite shared_remove_bundle_run. by destruct w as [h gs cc bc [] pc pb]. }
  destruct Hw as [Hh Hg].
  assert (Hheld : ∀ a, Spec.held (b_addr b) (_bundles (Shared.heap w' a))
                       = Spec.held (b_addr b) (_bundles (Shared.heap w a))
                         - Shared.occurrences a (Shared._groups w)).
  { intros a. rewrite Hh. apply removed_from_held. }
  split; [exact Hheld|]. split.
  - intros Hle.
    assert (Hnone : ∀ a, a ∈ Shared._groups w' →
              PortGroupListM.holds b (Shared.heap w' a) = false).
    { intros a Ha. rewrite Hg in Ha. apply holds_held. rewrite Hheld.
      specialize (Hle a Ha). lia. }
    split; [exact Hnone|].
    unfold Shared.io_from_bundle.
    pose proof (io_from_bundle_in_cases alive (map (Shared.heap w') (Shared._groups w')) b)
      as Hc.
    destruct (PortGroupListM.io_from_bundle_in alive
                (map (Shared.heap w') (Shared._groups w')) b) as [j|]; [|done].
    destruct Hc as (pre & g & post & E & Hj & _). exfalso.
    assert (Hin : In g (map (Shared.heap w') (Shared._groups w')))
      by (rewrite E; apply in_or_app; right; left; done).
    apply in_map_iff in Hin as (a & <- & Ha%list_elem_of_In).
    specialize (Hnone a Ha). unfold PortGroupM.io_from_bundle in Hj.
    rewrite (proj2 (split_at_bundle_None b (_bundles (Shared.heap w' a)))
               (proj1 (holds_false b (Shared.heap w' a)) Hnone)) in Hj.
    done.
  - intros a Hocc Htwo. apply not_false_iff_true. intros Hf%holds_held.
    rewrite Hheld in Hf. lia.
Qed.

(** The group that is a member twice loses both records of the bundle;
    as a member once it would keep one. *)
Lemma remove_bundle_once_per_member_witness :
  let g := mkPortGroup "Busses" [Concrete.record_of Concrete.stereo;
                                 Concrete.record_of Concrete.stereo] in
  let w := Shared.mkWorld (λ _, g) [7; 7] [7; 7] [7; 7] false false 0%Z in
  let w' := state_of (Shared.remove_bundle Concrete.stereo w) in
  PortGroupListM.holds Concrete.stereo (Shared.heap w' 7) = false
  ∧ Shared.io_from_bundle (λ _, true) w' Concrete.stereo = None.
Proof.
  intros g w w'.
  destruct (proj1 (proj2 (remove_bundle_once_per_member (λ _, true) Concrete.stereo w)))
    as [Hnone Hio].
  - intros a Ha. apply list_elem_of_In in Ha. simpl in Ha.
    destruct Ha as [<-|[<-|[]]]; vm_compute; lia.
  - split; [|exact Hio]. apply Hnone. left.
Defined.
